(** * OrientationGame: the drilling simulation of [game.js]

    A shallow embedding of the simulation core of [src/game.js]
    ([lineCircleIntersection], the [Game] class and the input handlers)
    and the properties of it that the design document states.

    Numbers.  JavaScript numbers are IEEE-754 doubles.  This development
    reads every finite number as the real number it denotes and every
    arithmetic operation as the exact one: rounding is not modelled.  The
    one place where the source can leave the finite numbers is the division
    by [2 * a] in [lineCircleIntersection]; its result is modelled by
    [jsnum], which keeps the three non-finite outcomes of an IEEE division
    apart.  [Math.sqrt] is only ever applied to a number the code has
    checked, or that is by construction, non-negative, where it agrees with
    [sqrt].

    A computed number differs from the exact one by its rounding.  Where a
    property depends on the side of a threshold that a number falls on (a
    bound that is reached, a segment that grazes a circle or ends on it, a
    step too small to move the tip), it is stated with a margin that the
    rounding cannot use up: ranges include their far ends, distances to
    the target circle are at least a millimetre, frames last at least a
    millisecond. *)

From Stdlib Require Import Reals Lra Lia ZArith List String Bool.
Import ListNotations.

Open Scope R_scope.

(** ** World and screen configuration *)

Definition SURFACE_Y_WORLD : R := 0.
Definition MAX_DEPTH_WORLD : R := -900.

Definition ORIGIN_X_MIN : R := 100.
Definition ORIGIN_X_MAX : R := 900.

Definition TARGET_Y_MIN : R := -500.
Definition TARGET_Y_MAX : R := MAX_DEPTH_WORLD.
Definition TARGET_RADIUS_MIN : R := 5.
Definition TARGET_RADIUS_MAX : R := 20.
Definition TARGET_X_MIN : R := 250.
Definition TARGET_X_MAX : R := 900.

Definition DRILL_COST_PER_METER : R := 300.

Definition ANGLE_MIN : R := -180.
Definition ANGLE_MAX : R := 0.
Definition ANGLE_DEFAULT : R := -90.

(** ** Utilities *)

(** [Math.max(a, Math.min(b, v))] *)
Definition clamp (v a b : R) : R := Rmax a (Rmin b v).

Definition deg2rad (d : R) : R := d * PI / 180.

Definition point : Type := R * R.

(** The value of a JavaScript division [x / y] of two finite numbers. *)
Inductive jsnum : Type :=
| Fin (v : R)
| PosInf
| NegInf
| NaN.

(** [x / y].  A zero divisor is read as [+0]: the only divisor in this
    program is [2 * a] with [a] a sum of two squares, which is never [-0].
    Zero over zero is [NaN]; a non-zero number over [+0] is the infinity
    of its sign. *)
Definition jsdiv (x y : R) : jsnum :=
  if Req_dec_T y 0 then
    if Rlt_dec 0 x then PosInf
    else if Rlt_dec x 0 then NegInf
    else NaN
  else Fin (x / y).

(** [t >= 0.0 && t <= 1.0]: every comparison with [NaN] is false, and an
    infinity fails one of the two. *)
Definition in_unit (t : jsnum) : bool :=
  match t with
  | Fin v => (if Rle_dec 0 v then true else false)
             && (if Rle_dec v 1 then true else false)
  | PosInf | NegInf | NaN => false
  end.

(** The number [x1 + t * dx] for a [t] that passed [in_unit]. *)
Definition jsval (t : jsnum) : R :=
  match t with
  | Fin v => v
  | PosInf | NegInf | NaN => 0
  end.

(** The loop [for (const t of [t1, t2])] of [lineCircleIntersection]:
    the first candidate that lies in [0,1] gives the point returned. *)
Fixpoint first_root (x1 y1 dx dy : R) (ts : list jsnum) : option point :=
  match ts with
  | [] => None
  | t :: rest =>
      if in_unit t
      then Some (x1 + jsval t * dx, y1 + jsval t * dy)
      else first_root x1 y1 dx dy rest
  end.

(** The locals of [lineCircleIntersection]: [dx], [dy], [fx], [fy], the
    coefficients [a], [b] and [cterm], the discriminant [disc] and the roots
    [t1] and [t2]. *)
Section Quadratic.
Variables (p0 p1 c : point) (r : R).

Definition seg_dx : R := fst p1 - fst p0.
Definition seg_dy : R := snd p1 - snd p0.
Definition seg_fx : R := fst p0 - fst c.
Definition seg_fy : R := snd p0 - snd c.
Definition quad_a : R := seg_dx * seg_dx + seg_dy * seg_dy.
Definition quad_b : R := 2 * (seg_fx * seg_dx + seg_fy * seg_dy).
Definition quad_c : R := seg_fx * seg_fx + seg_fy * seg_fy - r * r.
Definition quad_disc : R := quad_b * quad_b - 4 * quad_a * quad_c.
Definition root_t1 : jsnum := jsdiv (- quad_b - sqrt quad_disc) (2 * quad_a).
Definition root_t2 : jsnum := jsdiv (- quad_b + sqrt quad_disc) (2 * quad_a).

(** [lineCircleIntersection(p0, p1, c, r)].  The source returns the pair
    [[hit, point]]; on each of its three return paths [hit] is true
    exactly when the point is not [null], so the pair is the option. *)
Definition lineCircleIntersection : option point :=
  if Rlt_dec quad_disc 0 then None
  else first_root (fst p0) (snd p0) seg_dx seg_dy [root_t1; root_t2].
End Quadratic.

(** ** Game state *)

Inductive tag : Type := aim | drilling | win | lose.

Record Game : Type := mkGame {
  angle : R;
  origin_x : R;
  target_x : R;
  target_y : R;
  target_radius : R;
  state : tag;
  drill_tip : point;
  drill_speed_mps : R;
  result_point : option point;
  tries_remaining : Z;
  drill_path_length : R;
  total_cost : R;
  accumulated_cost : R
}.

(** Field assignments [this.f = v]. *)
Definition set_angle (v : R) (g : Game) : Game :=
  mkGame v (origin_x g) (target_x g) (target_y g) (target_radius g) (state g)
         (drill_tip g) (drill_speed_mps g) (result_point g) (tries_remaining g)
         (drill_path_length g) (total_cost g) (accumulated_cost g).
Definition set_state (v : tag) (g : Game) : Game :=
  mkGame (angle g) (origin_x g) (target_x g) (target_y g) (target_radius g) v
         (drill_tip g) (drill_speed_mps g) (result_point g) (tries_remaining g)
         (drill_path_length g) (total_cost g) (accumulated_cost g).
Definition set_drill_tip (v : point) (g : Game) : Game :=
  mkGame (angle g) (origin_x g) (target_x g) (target_y g) (target_radius g)
         (state g) v (drill_speed_mps g) (result_point g) (tries_remaining g)
         (drill_path_length g) (total_cost g) (accumulated_cost g).
Definition set_result_point (v : option point) (g : Game) : Game :=
  mkGame (angle g) (origin_x g) (target_x g) (target_y g) (target_radius g)
         (state g) (drill_tip g) (drill_speed_mps g) v (tries_remaining g)
         (drill_path_length g) (total_cost g) (accumulated_cost g).
Definition set_tries_remaining (v : Z) (g : Game) : Game :=
  mkGame (angle g) (origin_x g) (target_x g) (target_y g) (target_radius g)
         (state g) (drill_tip g) (drill_speed_mps g) (result_point g) v
         (drill_path_length g) (total_cost g) (accumulated_cost g).
Definition set_drill_path_length (v : R) (g : Game) : Game :=
  mkGame (angle g) (origin_x g) (target_x g) (target_y g) (target_radius g)
         (state g) (drill_tip g) (drill_speed_mps g) (result_point g)
         (tries_remaining g) v (total_cost g) (accumulated_cost g).
Definition set_total_cost (v : R) (g : Game) : Game :=
  mkGame (angle g) (origin_x g) (target_x g) (target_y g) (target_radius g)
         (state g) (drill_tip g) (drill_speed_mps g) (result_point g)
         (tries_remaining g) (drill_path_length g) v (accumulated_cost g).
Definition set_accumulated_cost (v : R) (g : Game) : Game :=
  mkGame (angle g) (origin_x g) (target_x g) (target_y g) (target_radius g)
         (state g) (drill_tip g) (drill_speed_mps g) (result_point g)
         (tries_remaining g) (drill_path_length g) (total_cost g) v.

(** The four values that the four calls of [Math.random()] in one
    [resetRound] return, in the order of the calls. *)
Record draws : Type := mkDraws { u_ox : R; u_tx : R; u_ty : R; u_tr : R }.

(** [Math.random()] returns a number in [0, 1). *)
Definition unit_draw (u : R) : Prop := 0 <= u < 1.
Definition valid_draws (u : draws) : Prop :=
  unit_draw (u_ox u) /\ unit_draw (u_tx u) /\ unit_draw (u_ty u)
  /\ unit_draw (u_tr u).

(** [Game.resetRound()].  It assigns every field but [angle]. *)
Definition resetRound (u : draws) (g : Game) : Game :=
  let ox := u_ox u * (ORIGIN_X_MAX - ORIGIN_X_MIN) + ORIGIN_X_MIN in
  {| angle := angle g;
     origin_x := ox;
     target_x := u_tx u * (TARGET_X_MAX - TARGET_X_MIN) + TARGET_X_MIN;
     target_y := u_ty u * (TARGET_Y_MAX - TARGET_Y_MIN) + TARGET_Y_MIN;
     target_radius :=
       u_tr u * (TARGET_RADIUS_MAX - TARGET_RADIUS_MIN) + TARGET_RADIUS_MIN;
     state := aim;
     drill_tip := (ox, SURFACE_Y_WORLD);
     drill_speed_mps := 900;
     result_point := None;
     tries_remaining := 3%Z;
     drill_path_length := 0;
     total_cost := 0;
     accumulated_cost := 0 |}.

(** [new Game()]: [angle] and [origin_x] are assigned, then [resetRound]
    assigns the rest; the fields it has not yet assigned are never read, so
    the record it starts from fills them with zeros. *)
Definition blank : Game :=
  mkGame ANGLE_DEFAULT 0 0 0 0 aim (0, 0) 0 None 0%Z 0 0 0.
Definition newGame (u : draws) : Game := resetRound u blank.

Definition getOrigin (g : Game) : point := (origin_x g, SURFACE_Y_WORLD).

(** [Game.startDrill()] *)
Definition startDrill (g : Game) : Game :=
  match state g with
  | aim =>
      let g1 := set_state drilling g in
      let g2 := set_drill_tip (getOrigin g1) g1 in
      let g3 := set_result_point None g2 in
      set_drill_path_length 0 g3
  | _ => g
  end.

(** [Math.sqrt(dx * dx + dy * dy)] between two points. *)
Definition seg_len (p q : point) : R :=
  let dx := fst q - fst p in
  let dy := snd q - snd p in
  sqrt (dx * dx + dy * dy).

(** The candidate next tip [[nx, ny]] of [update]. *)
Definition next_tip (dt : R) (g : Game) : point :=
  let theta := deg2rad (angle g) in
  let vx := cos theta in
  let vy := sin theta in
  let step := drill_speed_mps g * dt in
  (fst (drill_tip g) + vx * step, snd (drill_tip g) + vy * step).

(** [this.drill_tip[1] <= MAX_DEPTH_WORLD || this.drill_tip[0] > 1100] *)
Definition out_of_bounds (p : point) : bool :=
  (if Rle_dec (snd p) MAX_DEPTH_WORLD then true else false)
  || (if Rlt_dec 1100 (fst p) then true else false).

(** [Game.update(dt)] *)
Definition update (dt : R) (g : Game) : Game :=
  match state g with
  | drilling =>
      let n := next_tip dt g in
      match lineCircleIntersection (drill_tip g) n
              (target_x g, target_y g) (target_radius g) with
      | Some ipt =>
          let final_segment := seg_len (drill_tip g) ipt in
          let g1 := set_drill_path_length
                      (drill_path_length g + final_segment) g in
          let g2 := set_drill_tip ipt g1 in
          let g3 := set_state win g2 in
          let g4 := set_result_point (Some ipt) g3 in
          let g5 := set_total_cost
                      (drill_path_length g4 * DRILL_COST_PER_METER) g4 in
          set_accumulated_cost (accumulated_cost g5 + total_cost g5) g5
      | None =>
          let segment_length := seg_len (drill_tip g) n in
          let g1 := set_drill_path_length
                      (drill_path_length g + segment_length) g in
          let g2 := set_drill_tip n g1 in
          if out_of_bounds (drill_tip g2) then
            let g3 := set_total_cost
                        (drill_path_length g2 * DRILL_COST_PER_METER) g2 in
            let g4 := set_accumulated_cost
                        (accumulated_cost g3 + total_cost g3) g3 in
            let g5 := set_state lose g4 in
            let g6 := set_result_point None g5 in
            set_tries_remaining (tries_remaining g6 - 1)%Z g6
          else g2
      end
  | _ => g
  end.

(** ** Input handlers *)

(** The click handler of [drillBtn], which is also what the space key
    does: start drilling from [aim], or resume aiming after a miss. *)
Definition drill_or_resume (g : Game) : Game :=
  match state g with
  | aim => startDrill g
  | lose => if (0 <? tries_remaining g)%Z then set_state aim g else g
  | _ => g
  end.

(** The click handler of [newRoundBtn], which is also what the keys [n]
    and [N] do. *)
Definition new_round (u : draws) (g : Game) : Game :=
  match state g with
  | win | lose | aim => resetRound u g
  | drilling => g
  end.

(** The [keydown] handler.  Its first conditional handles the arrow keys
    while aiming. *)
Definition keydown_arrows (key : string) (g : Game) : Game :=
  match state g with
  | aim =>
      if String.eqb key "ArrowLeft" then
        set_angle (clamp (angle g - 1) ANGLE_MIN ANGLE_MAX) g
      else if String.eqb key "ArrowRight" then
        set_angle (clamp (angle g + 1) ANGLE_MIN ANGLE_MAX) g
      else g
  | _ => g
  end.

(** Its second conditional handles the space key and the keys [n], [N]. *)
Definition keydown_commands (key : string) (u : draws) (g : Game) : Game :=
  if String.eqb key " " then drill_or_resume g
  else if String.eqb key "n" || String.eqb key "N" then new_round u g
  else g.

(** [help_active] is whether the help dialog is open: [Escape] then closes
    it and returns; otherwise [Escape] skips the arrow keys' branch. *)
Definition keydown (key : string) (help_active : bool) (u : draws)
    (g : Game) : Game :=
  if String.eqb key "Escape" then
    if help_active then g else keydown_commands key u g
  else keydown_commands key u (keydown_arrows key g).

(** What the page can do to the game object. *)
Inductive event : Type :=
| Tick (dt : R)                              (* [gameLoop]: [game.update(dt)] *)
| DrillClick
| NewRoundClick
| KeyDown (key : string) (help_active : bool).

(** One event; [u] is what [Math.random] returns if the event calls
    [resetRound]. *)
Definition handle (e : event) (u : draws) (g : Game) : Game :=
  match e with
  | Tick dt => update dt g
  | DrillClick => drill_or_resume g
  | NewRoundClick => new_round u g
  | KeyDown key help_active => keydown key help_active u g
  end.

(** The states of the game object over the life of the page. *)
Inductive reachable : Game -> Prop :=
| reach_new (u : draws) :
    valid_draws u -> reachable (newGame u)
| reach_handle (e : event) (u : draws) (g : Game) :
    reachable g -> valid_draws u -> reachable (handle e u g).

(** The point [[x1 + t * dx, y1 + t * dy]] of the segment at parameter [t]. *)
Definition point_at (p0 p1 : point) (t : jsnum) : point :=
  (fst p0 + jsval t * seg_dx p0 p1, snd p0 + jsval t * seg_dy p0 p1).

(** ** Runs *)

(** A run of the page: each event with the draws [Math.random] holds
    ready for it. *)
Definition trace : Type := list (event * draws).

Fixpoint exec (tr : trace) (g : Game) : Game :=
  match tr with
  | [] => g
  | (e, u) :: rest => exec rest (handle e u g)
  end.

(** The frames of one attempt: [update] called with each time delta. *)
Fixpoint run_updates (dts : list R) (g : Game) : Game :=
  match dts with
  | [] => g
  | dt :: rest => run_updates rest (update dt g)
  end.

(** The positions of the tip after each of those calls. *)
Fixpoint tip_trace (dts : list R) (g : Game) : list point :=
  match dts with
  | [] => []
  | dt :: rest => drill_tip (update dt g) :: tip_trace rest (update dt g)
  end.

(** The Euclidean distance between two points, as the design document
    means it; [seg_len] above is what the code computes. *)
Definition euclidean (p q : point) : R :=
  sqrt (Rsqr (fst p - fst q) + Rsqr (snd p - snd q)).

(** The length of the polyline from [p] through the points [ps]: the sum
    of the Euclidean lengths of its segments. *)
Fixpoint polyline_length (p : point) (ps : list point) : R :=
  match ps with
  | [] => 0
  | q :: rest => euclidean p q + polyline_length q rest
  end.

(** [update] called with the first [n] deltas of an endless sequence. *)
Fixpoint frames (dts : nat -> R) (n : nat) (g : Game) : Game :=
  match n with
  | O => g
  | S k => update (dts k) (frames dts k g)
  end.

(** The time elapsed over the first [n] frames. *)
Fixpoint elapsed (dts : nat -> R) (n : nat) : R :=
  match n with
  | O => 0
  | S k => elapsed dts k + dts k
  end.

(** A step that concludes an attempt: from [drilling] to [win] or [lose]. *)
Definition concludes (g g' : Game) : bool :=
  match state g, state g' with
  | drilling, win | drilling, lose => true
  | _, _ => false
  end.

(** A step into the [lose] state. *)
Definition enters_lose (g g' : Game) : bool :=
  match state g, state g' with
  | lose, _ => false
  | _, lose => true
  | _, _ => false
  end.

(** A step into the [win] state. *)
Definition enters_win (g g' : Game) : bool :=
  match state g, state g' with
  | win, _ => false
  | _, win => true
  | _, _ => false
  end.

(** Whether the event, handled in state [g], calls [resetRound]. *)
Definition resets (e : event) (g : Game) : bool :=
  match e with
  | NewRoundClick =>
      match state g with drilling => false | _ => true end
  | KeyDown key _ =>
      (String.eqb key "n" || String.eqb key "N")
      && match state g with drilling => false | _ => true end
  | Tick _ | DrillClick => false
  end.

(** The final path lengths of the attempts concluded in the current round,
    oldest first: a ledger kept beside the run, emptied when the round is
    reset and extended when a step concludes an attempt. *)
Fixpoint ledger (tr : trace) (g : Game) (acc : list R) : list R :=
  match tr with
  | [] => acc
  | (e, u) :: rest =>
      let g' := handle e u g in
      ledger rest g'
        (if resets e g then []
         else if concludes g g' then acc ++ [drill_path_length g']
         else acc)
  end.

(** The sum of [path_length * cost_per_meter] over a ledger. *)
Fixpoint ledger_cost (ls : list R) : R :=
  match ls with
  | [] => 0
  | l :: rest => l * DRILL_COST_PER_METER + ledger_cost rest
  end.

(** The squared distance between two points. *)
Definition sqdist (p q : point) : R :=
  (fst q - fst p) * (fst q - fst p) + (snd q - snd p) * (snd q - snd p).

(** ** Invariants *)

(** What holds of the session and the attempt in every state of a run,
    whatever [Math.random] returns. *)
Definition session_inv (g : Game) : Prop :=
  (0 <= tries_remaining g <= 3)%Z
  /\ (state g = aim \/ state g = drilling -> (1 <= tries_remaining g)%Z)
  /\ 0 <= drill_path_length g
  /\ (result_point g <> None <-> state g = win)
  /\ (state g = win ->
      result_point g = Some (drill_tip g)
      /\ sqdist (target_x g, target_y g) (drill_tip g)
         = target_radius g * target_radius g).

(** What holds of the round when [Math.random] returns numbers of [0, 1).
    The far ends of the ranges are included: the draw stays below 1, but
    the product and the sum that [resetRound] makes of it are rounded and
    can reach them. *)
Definition round_inv (g : Game) : Prop :=
  ORIGIN_X_MIN <= origin_x g <= ORIGIN_X_MAX
  /\ TARGET_X_MIN <= target_x g <= TARGET_X_MAX
  /\ TARGET_Y_MAX <= target_y g <= TARGET_Y_MIN
  /\ TARGET_RADIUS_MIN <= target_radius g <= TARGET_RADIUS_MAX
  /\ drill_speed_mps g = 900
  /\ ANGLE_MIN <= angle g <= ANGLE_MAX
  /\ (state g = drilling ->
      out_of_bounds (drill_tip g) = false
      /\ (0 < drill_path_length g \/ snd (drill_tip g) = SURFACE_Y_WORLD)).

(** A step that neither concludes an attempt nor touches the session:
    the tries and the accumulated cost stay, and the state does not become
    [win] or [lose] unless it was so already. *)
Definition quiet (g g' : Game) : Prop :=
  tries_remaining g' = tries_remaining g
  /\ accumulated_cost g' = accumulated_cost g
  /\ (state g' = win \/ state g' = lose -> state g' = state g).

(** ** Screen, loop and displays *)

Definition PX_PER_M : R := 1.
Definition MARGIN_L : R := 120.
Definition MARGIN_R : R := 120.
Definition MARGIN_T : R := 80.
Definition MARGIN_B : R := -60.

Definition SCREEN_W : R := MARGIN_L + 1000 * PX_PER_M + MARGIN_R.
Definition SCREEN_H : R :=
  MARGIN_T + (Rabs MAX_DEPTH_WORLD + 120) * PX_PER_M + MARGIN_B.

Definition DRILL_COST_BUDGET : R := 500000.

(** [worldToScreen(wx, wy)] *)
Definition worldToScreen (wx wy : R) : point :=
  (MARGIN_L + wx * PX_PER_M, MARGIN_T + (- wy) * PX_PER_M).

(** The animation loop: the time of the last frame and the game object. *)
Record Loop : Type := mkLoop { lastTime : R; game : Game }.

(** [gameLoop(currentTime)]: one frame.  Rendering and the display update
    that follow [game.update(dt)] read the game and change nothing in it. *)
Definition gameLoop (currentTime : R) (l : Loop) : Loop :=
  let dt := (currentTime - lastTime l) / 1000 in
  {| lastTime := currentTime; game := update dt (game l) |}.

(** The frames at the given times, in order. *)
Fixpoint run_loop (times : list R) (l : Loop) : Loop :=
  match times with
  | [] => l
  | t :: rest => run_loop rest (gameLoop t l)
  end.

(** The text that [drawNotification] puts over the canvas, if any. *)
Definition notification (g : Game) : option string :=
  match state g with
  | win => Some "TARGET HIT! Press N for new round"%string
  | lose =>
      if (0 <? tries_remaining g)%Z
      then Some "MISS! Press SPACE to try again"%string
      else Some "ROUND COMPLETE! Press N for new round"%string
  | aim | drilling => None
  end.

(** The miss distance that [updateUI] shows after a miss.  [Math.tan] is
    [tan]; the first branch keeps the angle off the pole of the tangent at
    -90. *)
Definition miss_distance (g : Game) : R :=
  let theta := deg2rad (angle g) in
  if Rlt_dec (Rabs (angle g - (-90))) 0.001 then
    Rabs (target_x g - origin_x g)
  else
    let y_at_tx :=
      SURFACE_Y_WORLD + tan theta * (target_x g - origin_x g) in
    Rabs (y_at_tx - target_y g).

(** The guards under which [updateUI] fills the cost panel of a concluded
    attempt: [drill_path_length > 0], and inside it [accumulated_cost > 0]. *)
Definition shows_attempt_cost (g : Game) : bool :=
  if Rlt_dec 0 (drill_path_length g) then true else false.
Definition shows_accumulated_cost (g : Game) : bool :=
  shows_attempt_cost g
  && (if Rlt_dec 0 (accumulated_cost g) then true else false).

(** The two branches of [updateUI] that fill the budget line while no
    attempt is concluded: the plain budget, or the accumulated cost. *)
Definition shows_initial_budget (g : Game) : bool :=
  (if Req_dec_T (accumulated_cost g) 0 then true else false)
  && (tries_remaining g =? 3)%Z.
Definition shows_running_budget (g : Game) : bool :=
  negb (shows_initial_budget g) && (tries_remaining g <? 3)%Z.

(** [Math.floor] *)
Definition floor (x : R) : R := IZR (Int_part x).

(** The [i]-th of the 16 vertices of the shape that [drawBlobShape] draws
    for the target. *)
Definition blob_point (centerX centerY baseRadius : R) (i : nat) : point :=
  let seedX := floor (centerX * 0.1) in
  let seedY := floor (centerY * 0.1) in
  let angle := INR i / 16 * PI * 2 in
  let variation1 := sin (angle * 3.7 + seedX) * 0.25 in
  let variation2 := cos (angle * 2.3 + seedY) * 0.2 in
  let variation3 := sin (angle * 5.1) * 0.15 in
  let radius := baseRadius * (0.75 + variation1 + variation2 + variation3) in
  (centerX + cos angle * radius, centerY + sin angle * radius).

(** Whether the event is a frame of the animation loop. *)
Definition is_tick (e : event) : bool :=
  match e with
  | Tick _ => true
  | DrillClick | NewRoundClick | KeyDown _ _ => false
  end.

(** The angle is a whole number of degrees. *)
Definition whole_angle (g : Game) : Prop := exists k : Z, angle g = IZR k.

(** How the costs and the tries stand to each other. *)
Definition cost_inv (g : Game) : Prop :=
  (state g = win \/ state g = lose ->
   0 < drill_path_length g
   /\ total_cost g = drill_path_length g * DRILL_COST_PER_METER
   /\ total_cost g <= accumulated_cost g)
  /\ (state g = win -> (1 <= tries_remaining g)%Z)
  /\ (tries_remaining g = 3%Z -> state g <> win -> accumulated_cost g = 0)
  /\ ((tries_remaining g < 3)%Z \/ state g = win -> 0 < accumulated_cost g)
  /\ 0 <= accumulated_cost g.

(** 1 in [win], 0 elsewhere. *)
Definition won (g : Game) : Z :=
  match state g with
  | win => 1%Z
  | aim | drilling | lose => 0%Z
  end.

(** The attempts concluded in the round so far, counted from the tries
    spent and the state tag. *)
Definition attempts_made (g : Game) : Z := (3 - tries_remaining g + won g)%Z.

(** Frame times that do not go back, from [t0] on. *)
Fixpoint ascending (t0 : R) (times : list R) : Prop :=
  match times with
  | [] => True
  | t :: rest => t0 <= t /\ ascending t rest
  end.

(** The distance of the target's centre from the line through the origin
    along the heading. *)
Definition line_distance (g : Game) : R :=
  let theta := deg2rad (angle g) in
  Rabs (sin theta * (target_x g - origin_x g)
        - cos theta * (target_y g - SURFACE_Y_WORLD)).

(** In [lose] the tip is out of the bounds. *)
Definition lost_out (g : Game) : Prop :=
  state g = lose -> out_of_bounds (drill_tip g) = true.

(** Outside [aim] the tip is on the line from the origin along the
    heading, no further from the origin than the path is long. *)
Definition on_ray (g : Game) : Prop :=
  state g <> aim ->
  exists d, Rabs d <= drill_path_length g
            /\ drill_tip g
               = (origin_x g + cos (deg2rad (angle g)) * d,
                  SURFACE_Y_WORLD + sin (deg2rad (angle g)) * d).

(** The draws that are all zero: the smallest round. *)
Definition zero_draws : draws := mkDraws 0 0 0 0.

(** The draws that put the origin at 500 and the smallest target right
    below it, at depth 500. *)
Definition centred_draws : draws := mkDraws (1 / 2) (5 / 13) 0 0.

(** Frames that halve, from a quarter of a second: 1/4 s, 1/8 s, ... *)
Definition shrinking (n : nat) : R := / 2 ^ (n + 2).

(** Frames of one second each. *)
Definition seconds (n : nat) : R := 1.

(** * Properties *)

(** The constants of the world, as numbers. *)
Ltac world :=
  unfold TARGET_Y_MAX, MAX_DEPTH_WORLD, SURFACE_Y_WORLD, ORIGIN_X_MIN,
    ORIGIN_X_MAX, TARGET_Y_MIN, TARGET_RADIUS_MIN, TARGET_RADIUS_MAX,
    TARGET_X_MIN, TARGET_X_MAX, DRILL_COST_PER_METER, ANGLE_MIN, ANGLE_MAX,
    ANGLE_DEFAULT in *.

(** ** The intersection routine *)

Lemma in_unit_Fin (t : jsnum) :
  in_unit t = true <-> exists v, t = Fin v /\ 0 <= v <= 1.
Proof.
  split.
  - destruct t as [v | | |]; simpl; try discriminate.
    destruct (Rle_dec 0 v), (Rle_dec v 1); simpl; try discriminate.
    intros _. exists v. split; [reflexivity | lra].
  - intros (v & -> & H0 & H1). simpl.
    destruct (Rle_dec 0 v), (Rle_dec v 1); simpl; try reflexivity; lra.
Qed.

Lemma jsdiv_Fin (x y v : R) :
  jsdiv x y = Fin v -> y <> 0 /\ v = x / y.
Proof.
  unfold jsdiv. destruct (Req_dec_T y 0).
  - destruct (Rlt_dec 0 x); [discriminate|].
    destruct (Rlt_dec x 0); discriminate.
  - intros [= <-]. split; [assumption | reflexivity].
Qed.

Lemma quad_a_nonneg (p0 p1 : point) : 0 <= quad_a p0 p1.
Proof. unfold quad_a. nra. Qed.

Lemma quad_a_zero (p0 p1 : point) :
  quad_a p0 p1 = 0 -> seg_dx p0 p1 = 0 /\ seg_dy p0 p1 = 0.
Proof. unfold quad_a. intros H. split; nra. Qed.

(** A finite root of the code solves the quadratic it was computed from. *)
Lemma root_solves (a b c s v : R) :
  a <> 0 -> s * s = b * b - 4 * a * c ->
  v = (- b - s) / (2 * a) \/ v = (- b + s) / (2 * a) ->
  a * v * v + b * v + c = 0.
Proof.
  intros Ha Hs [-> | ->].
  - replace (a * ((- b - s) / (2 * a)) * ((- b - s) / (2 * a))
             + b * ((- b - s) / (2 * a)) + c)
      with ((s * s - (b * b - 4 * a * c)) / (4 * a)) by (field; assumption).
    rewrite Hs. field. assumption.
  - replace (a * ((- b + s) / (2 * a)) * ((- b + s) / (2 * a))
             + b * ((- b + s) / (2 * a)) + c)
      with ((s * s - (b * b - 4 * a * c)) / (4 * a)) by (field; assumption).
    rewrite Hs. field. assumption.
Qed.

(** The left side of the quadratic at [v] is the squared distance of the
    segment's point at [v] from the centre, less the squared radius. *)
Lemma quad_is_distance (p0 p1 c : point) (r v : R) :
  let q := point_at p0 p1 (Fin v) in
  (fst q - fst c) * (fst q - fst c) + (snd q - snd c) * (snd q - snd c)
  = quad_a p0 p1 * v * v + quad_b p0 p1 c * v + quad_c p0 c r + r * r.
Proof.
  unfold point_at, quad_a, quad_b, quad_c, seg_dx, seg_dy, seg_fx, seg_fy.
  simpl. ring.
Qed.

Lemma sqrt_scaled (v dx dy : R) :
  0 <= v ->
  sqrt (v * dx * (v * dx) + v * dy * (v * dy)) = v * sqrt (dx * dx + dy * dy).
Proof.
  intros Hv.
  replace (v * dx * (v * dx) + v * dy * (v * dy))
    with (v * v * (dx * dx + dy * dy)) by ring.
  rewrite sqrt_mult by nra.
  rewrite sqrt_square by assumption. reflexivity.
Qed.

(** The distance from [p0] to the segment's point at [v >= 0] is [v] times
    the length of the segment. *)
Lemma seg_len_point_at (p0 p1 : point) (v : R) :
  0 <= v -> seg_len p0 (point_at p0 p1 (Fin v)) = v * seg_len p0 p1.
Proof.
  intros Hv. unfold seg_len, point_at, seg_dx, seg_dy. simpl.
  replace (fst p0 + v * (fst p1 - fst p0) - fst p0)
    with (v * (fst p1 - fst p0)) by ring.
  replace (snd p0 + v * (snd p1 - snd p0) - snd p0)
    with (v * (snd p1 - snd p0)) by ring.
  apply sqrt_scaled. assumption.
Qed.

Lemma roots_ordered (p0 p1 c : point) (r v1 v2 : R) :
  root_t1 p0 p1 c r = Fin v1 -> root_t2 p0 p1 c r = Fin v2 -> v1 <= v2.
Proof.
  unfold root_t1, root_t2. intros H1 H2.
  apply jsdiv_Fin in H1 as [Ha ->]. apply jsdiv_Fin in H2 as [_ ->].
  pose proof (quad_a_nonneg p0 p1) as Hn.
  pose proof (sqrt_pos (quad_disc p0 p1 c r)) as Hs.
  unfold Rdiv. apply Rmult_le_compat_r.
  - left. apply Rinv_0_lt_compat. lra.
  - lra.
Qed.

(** ** [resetRound] *)

Lemma zero_draws_valid : valid_draws zero_draws.
Proof. unfold valid_draws, unit_draw, zero_draws. simpl. lra. Qed.

Lemma clamp_in_range (v : R) :
  ANGLE_MIN <= v <= ANGLE_MAX -> clamp v ANGLE_MIN ANGLE_MAX = v.
Proof.
  unfold clamp, ANGLE_MIN, ANGLE_MAX. intros [Hlo Hhi].
  rewrite Rmin_right by lra. rewrite Rmax_right by lra. reflexivity.
Qed.

Lemma clamp_bounds (v : R) :
  ANGLE_MIN <= clamp v ANGLE_MIN ANGLE_MAX <= ANGLE_MAX.
Proof.
  unfold clamp, ANGLE_MIN, ANGLE_MAX. split.
  - apply Rmax_l.
  - apply Rmax_lub; [lra | apply Rmin_l].
Qed.

(** C5, as stated, fails: a round reset does not reset the angle.  After
    one press of the right arrow key the angle is -89, and it still is
    after a new round, where a fresh game has -90. *)
Lemma resetRound_keeps_angle :
  let g := exec [(KeyDown "ArrowRight" false, zero_draws);
                 (NewRoundClick, zero_draws)] (newGame zero_draws) in
  reachable g
  /\ g = resetRound zero_draws
           (handle (KeyDown "ArrowRight" false) zero_draws (newGame zero_draws))
  /\ angle g = -89
  /\ angle g <> ANGLE_DEFAULT
  /\ angle g <> angle (newGame zero_draws).
Proof.
  cbv zeta.
  assert (E : angle (handle (KeyDown "ArrowRight" false) zero_draws
                            (newGame zero_draws)) = -89).
  { simpl. rewrite clamp_in_range; world; lra. }
  repeat split.
  - apply (reach_handle NewRoundClick); [|apply zero_draws_valid].
    apply (reach_handle (KeyDown "ArrowRight" false));
      [|apply zero_draws_valid].
    apply reach_new, zero_draws_valid.
  - exact E.
  - change (angle (exec _ _)) with
      (angle (handle (KeyDown "ArrowRight" false) zero_draws
                     (newGame zero_draws))).
    rewrite E. world. lra.
  - change (angle (exec _ _)) with
      (angle (handle (KeyDown "ArrowRight" false) zero_draws
                     (newGame zero_draws))).
    rewrite E. simpl. world. lra.
Qed.

(** C5, amended.  [resetRound] keeps the angle and assigns every other
    field from the draws alone: the round (origin, target centre and
    radius), the session (three tries, no accumulated and no last cost) and
    the rest of the attempt (state [aim], tip at the new origin on the
    surface, path length 0, no result point).  So the state after it
    depends on the state before it through the angle only. *)
Theorem resetRound_replaces_all_but_angle (u : draws) (g : Game) :
  let g' := resetRound u g in
  angle g' = angle g
  /\ origin_x g' = u_ox u * (ORIGIN_X_MAX - ORIGIN_X_MIN) + ORIGIN_X_MIN
  /\ target_x g' = u_tx u * (TARGET_X_MAX - TARGET_X_MIN) + TARGET_X_MIN
  /\ target_y g' = u_ty u * (TARGET_Y_MAX - TARGET_Y_MIN) + TARGET_Y_MIN
  /\ target_radius g'
     = u_tr u * (TARGET_RADIUS_MAX - TARGET_RADIUS_MIN) + TARGET_RADIUS_MIN
  /\ tries_remaining g' = 3%Z
  /\ accumulated_cost g' = 0
  /\ total_cost g' = 0
  /\ state g' = aim
  /\ drill_tip g' = (origin_x g', SURFACE_Y_WORLD)
  /\ drill_path_length g' = 0
  /\ result_point g' = None
  /\ g' = resetRound u (set_angle (angle g) blank).
Proof. cbv zeta. repeat split. Qed.

(** ** Commands outside their state *)

Lemma update_not_drilling (dt : R) (g : Game) :
  state g <> drilling -> update dt g = g.
Proof. unfold update. destruct (state g); congruence. Qed.

Lemma startDrill_not_aim (g : Game) : state g <> aim -> startDrill g = g.
Proof. unfold startDrill. destruct (state g); congruence. Qed.

Lemma keydown_arrows_not_aim (key : string) (g : Game) :
  state g <> aim -> keydown_arrows key g = g.
Proof. unfold keydown_arrows. destruct (state g); congruence. Qed.

Lemma drill_or_resume_spent (g : Game) :
  state g = lose -> (tries_remaining g <= 0)%Z -> drill_or_resume g = g.
Proof.
  unfold drill_or_resume. intros -> Ht.
  destruct (Z.ltb_spec 0 (tries_remaining g)); [lia | reflexivity].
Qed.

(** What [keydown] does in a state other than [aim]. *)
Lemma keydown_not_aim (key : string) (help : bool) (u : draws) (g : Game) :
  state g <> aim ->
  keydown key help u g = g
  \/ (key = " "%string /\ keydown key help u g = drill_or_resume g)
  \/ ((key = "n"%string \/ key = "N"%string)
      /\ keydown key help u g = new_round u g).
Proof.
  intros Hs. unfold keydown.
  destruct (String.eqb_spec key "Escape") as [-> | _].
  - destruct help; left; reflexivity.
  - rewrite keydown_arrows_not_aim by assumption. unfold keydown_commands.
    destruct (String.eqb_spec key " ") as [-> | _].
    + right; left. split; reflexivity.
    + destruct (String.eqb_spec key "n") as [-> | _].
      * right; right. split; [left|]; reflexivity.
      * destruct (String.eqb_spec key "N") as [-> | _].
        -- right; right. split; [right|]; reflexivity.
        -- left. reflexivity.
Qed.

(** C8. A command given outside its state changes nothing and nothing
    fails: [startDrill] and the arrow keys outside [aim], a frame outside
    [drilling], a new round while [drilling], the drill command while
    [drilling] or in [win]; and in [lose] with no try left the resume
    command changes nothing, so that every event there either changes
    nothing or is a round reset. *)
Theorem invalid_commands_are_noops (g : Game) (u : draws) :
  (state g <> aim ->
     startDrill g = g
     /\ forall help, keydown "ArrowLeft" help u g = g
                     /\ keydown "ArrowRight" help u g = g)
  /\ (state g <> drilling -> forall dt, handle (Tick dt) u g = g)
  /\ (state g = drilling ->
        handle NewRoundClick u g = g
        /\ forall help, keydown "n" help u g = g /\ keydown "N" help u g = g)
  /\ (state g = drilling \/ state g = win ->
        handle DrillClick u g = g /\ forall help, keydown " " help u g = g)
  /\ (state g = lose -> (tries_remaining g <= 0)%Z ->
        handle DrillClick u g = g
        /\ (forall help, keydown " " help u g = g)
        /\ state (drill_or_resume g) <> aim
        /\ forall e, handle e u g = g
                     \/ (resets e g = true /\ handle e u g = resetRound u g)).
Proof.
  split; [intros Hs | split; [intros Hs | split; [intros Hs |
    split; [intros Hs | intros Hs Ht]]]].
  - split; [apply startDrill_not_aim; assumption|].
    intros help. unfold keydown, keydown_commands. simpl.
    split; apply keydown_arrows_not_aim; assumption.
  - intros dt. simpl. apply update_not_drilling; assumption.
  - split.
    + simpl. unfold new_round. rewrite Hs. reflexivity.
    + intros help. unfold keydown, keydown_commands. simpl.
      rewrite !keydown_arrows_not_aim by congruence.
      unfold new_round. rewrite Hs. split; reflexivity.
  - split.
    + simpl. unfold drill_or_resume. destruct Hs as [-> | ->]; reflexivity.
    + intros help. unfold keydown, keydown_commands. simpl.
      rewrite keydown_arrows_not_aim by (destruct Hs; congruence).
      unfold drill_or_resume. destruct Hs as [-> | ->]; reflexivity.
  - split; [simpl; apply drill_or_resume_spent; assumption|].
    split; [|split].
    + intros help. unfold keydown, keydown_commands. simpl.
      rewrite keydown_arrows_not_aim by congruence.
      apply drill_or_resume_spent; assumption.
    + rewrite drill_or_resume_spent by assumption. congruence.
    + intros e. destruct e as [dt | | | key help]; simpl.
      * left. apply update_not_drilling. congruence.
      * left. apply drill_or_resume_spent; assumption.
      * right. unfold new_round. rewrite Hs. split; reflexivity.
      * destruct (keydown_not_aim key help u g) as [E | [[-> E] | [Hk E]]];
          [congruence | left; exact E | | ].
        -- left. rewrite E. apply drill_or_resume_spent; assumption.
        -- right. rewrite E. unfold new_round. rewrite Hs.
           split; [|reflexivity].
           destruct Hk as [-> | ->]; reflexivity.
Qed.

(** ** One frame *)

Lemma cos_default : cos (deg2rad ANGLE_DEFAULT) = 0.
Proof.
  unfold deg2rad, ANGLE_DEFAULT.
  replace (-90 * PI / 180) with (- (PI / 2)) by field.
  rewrite cos_neg. apply cos_PI2.
Qed.

Lemma sin_default : sin (deg2rad ANGLE_DEFAULT) = -1.
Proof.
  unfold deg2rad, ANGLE_DEFAULT.
  replace (-90 * PI / 180) with (- (PI / 2)) by field.
  rewrite sin_neg, sin_PI2. reflexivity.
Qed.

(** Straight down, the candidate tip is below the tip. *)
Lemma next_tip_default (dt : R) (g : Game) :
  angle g = ANGLE_DEFAULT ->
  next_tip dt g
  = (fst (drill_tip g), snd (drill_tip g) - drill_speed_mps g * dt).
Proof.
  intros Ha. unfold next_tip. rewrite Ha, cos_default, sin_default.
  f_equal; ring.
Qed.

Lemma seg_len_nonneg (p q : point) : 0 <= seg_len p q.
Proof. unfold seg_len. apply sqrt_pos. Qed.

Lemma seg_len_same (p : point) : seg_len p p = 0.
Proof.
  unfold seg_len. cbv zeta.
  replace (fst p - fst p) with 0 by ring.
  replace (snd p - snd p) with 0 by ring.
  rewrite Rmult_0_l, Rplus_0_l. apply sqrt_0.
Qed.

Lemma seg_len_zero (p q : point) : seg_len p q = 0 -> q = p.
Proof.
  unfold seg_len. cbv zeta. destruct p as [px py], q as [qx qy]. simpl.
  intros H.
  assert (Hz : (qx - px) * (qx - px) + (qy - py) * (qy - py) = 0).
  { apply sqrt_eq_0; [|exact H].
    pose proof (Rle_0_sqr (qx - px)). pose proof (Rle_0_sqr (qy - py)).
    unfold Rsqr in *. lra. }
  destruct (Rplus_sqr_eq_0 (qx - px) (qy - py) Hz) as [Hx Hy].
  f_equal; lra.
Qed.

(** What the code computes for a segment is its Euclidean length. *)
Lemma seg_len_euclidean (p q : point) : seg_len p q = euclidean p q.
Proof.
  unfold seg_len, euclidean, Rsqr. cbv zeta. f_equal. ring.
Qed.

(** A step of [d] along a heading has length [|d|]. *)
Lemma seg_len_polar_abs (p : point) (x d : R) :
  seg_len p (fst p + cos x * d, snd p + sin x * d) = Rabs d.
Proof.
  unfold seg_len. simpl.
  replace ((fst p + cos x * d - fst p) * (fst p + cos x * d - fst p)
           + (snd p + sin x * d - snd p) * (snd p + sin x * d - snd p))
    with (Rsqr d * (Rsqr (sin x) + Rsqr (cos x))) by (unfold Rsqr; ring).
  rewrite sin2_cos2, Rmult_1_r. apply sqrt_Rsqr_abs.
Qed.

(** A segment of length zero is never a hit: both roots are [NaN]. *)
Lemma degenerate_roots (p0 p1 c : point) (r : R) :
  quad_a p0 p1 = 0 ->
  quad_disc p0 p1 c r = 0
  /\ root_t1 p0 p1 c r = NaN /\ root_t2 p0 p1 c r = NaN
  /\ lineCircleIntersection p0 p1 c r = None.
Proof.
  intros Ha. destruct (quad_a_zero _ _ Ha) as [Hx Hy].
  assert (Hb : quad_b p0 p1 c = 0) by (unfold quad_b; rewrite Hx, Hy; ring).
  assert (Hd : quad_disc p0 p1 c r = 0)
    by (unfold quad_disc; rewrite Ha, Hb; ring).
  assert (Hj : forall x y, x = 0 -> y = 0 -> jsdiv x y = NaN).
  { intros x y -> ->. unfold jsdiv.
    destruct (Req_dec_T 0 0) as [_ | N]; [|congruence].
    destruct (Rlt_dec 0 0); [lra | reflexivity]. }
  assert (H1 : root_t1 p0 p1 c r = NaN).
  { unfold root_t1. apply Hj; rewrite ?Hd, ?Hb, ?Ha, ?sqrt_0; ring. }
  assert (H2 : root_t2 p0 p1 c r = NaN).
  { unfold root_t2. apply Hj; rewrite ?Hd, ?Hb, ?Ha, ?sqrt_0; ring. }
  repeat split; try assumption.
  unfold lineCircleIntersection. rewrite Hd.
  destruct (Rlt_dec 0 0); [lra|]. simpl. rewrite H1, H2. reflexivity.
Qed.

(** A vertical segment whose line passes beside the circle is no hit. *)
Lemma vertical_miss (p0 p1 c : point) (r : R) :
  fst p1 = fst p0 ->
  r * r < (fst p0 - fst c) * (fst p0 - fst c) ->
  lineCircleIntersection p0 p1 c r = None.
Proof.
  intros Hx Hr.
  assert (Hd : quad_disc p0 p1 c r
               = - (4 * (seg_dy p0 p1 * seg_dy p0 p1)
                    * ((fst p0 - fst c) * (fst p0 - fst c) - r * r))).
  { unfold quad_disc, quad_a, quad_b, quad_c, seg_dx, seg_fx, seg_fy.
    rewrite Hx. ring. }
  destruct (Req_dec_T (seg_dy p0 p1) 0) as [Hy | Hy].
  - apply degenerate_roots. unfold quad_a, seg_dx. rewrite Hx, Hy. ring.
  - unfold lineCircleIntersection.
    destruct (Rlt_dec (quad_disc p0 p1 c r) 0) as [_ | N]; [reflexivity|].
    exfalso. apply N. rewrite Hd.
    assert (0 < seg_dy p0 p1 * seg_dy p0 p1) by nra. nra.
Qed.

Lemma out_of_bounds_true (p : point) :
  out_of_bounds p = true <-> snd p <= MAX_DEPTH_WORLD \/ 1100 < fst p.
Proof.
  unfold out_of_bounds.
  destruct (Rle_dec (snd p) MAX_DEPTH_WORLD), (Rlt_dec 1100 (fst p));
    simpl; split; intros H; try reflexivity; try discriminate; tauto.
Qed.

Lemma out_of_bounds_false (p : point) :
  out_of_bounds p = false <-> MAX_DEPTH_WORLD < snd p /\ fst p <= 1100.
Proof.
  unfold out_of_bounds.
  destruct (Rle_dec (snd p) MAX_DEPTH_WORLD), (Rlt_dec 1100 (fst p));
    simpl; split; intros H; try reflexivity; try discriminate; lra.
Qed.

(** The three ways a frame of a drilling game can go. *)
Lemma update_hit (dt : R) (g : Game) (ipt : point) :
  state g = drilling ->
  lineCircleIntersection (drill_tip g) (next_tip dt g)
    (target_x g, target_y g) (target_radius g) = Some ipt ->
  update dt g =
  mkGame (angle g) (origin_x g) (target_x g) (target_y g) (target_radius g)
    win ipt (drill_speed_mps g) (Some ipt) (tries_remaining g)
    (drill_path_length g + seg_len (drill_tip g) ipt)
    ((drill_path_length g + seg_len (drill_tip g) ipt) * DRILL_COST_PER_METER)
    (accumulated_cost g
     + (drill_path_length g + seg_len (drill_tip g) ipt)
       * DRILL_COST_PER_METER).
Proof. intros Hs Hi. unfold update. rewrite Hs, Hi. reflexivity. Qed.

Lemma update_exit (dt : R) (g : Game) :
  state g = drilling ->
  lineCircleIntersection (drill_tip g) (next_tip dt g)
    (target_x g, target_y g) (target_radius g) = None ->
  out_of_bounds (next_tip dt g) = true ->
  update dt g =
  mkGame (angle g) (origin_x g) (target_x g) (target_y g) (target_radius g)
    lose (next_tip dt g) (drill_speed_mps g) None (tries_remaining g - 1)%Z
    (drill_path_length g + seg_len (drill_tip g) (next_tip dt g))
    ((drill_path_length g + seg_len (drill_tip g) (next_tip dt g))
     * DRILL_COST_PER_METER)
    (accumulated_cost g
     + (drill_path_length g + seg_len (drill_tip g) (next_tip dt g))
       * DRILL_COST_PER_METER).
Proof.
  intros Hs Hi Ho. unfold update. rewrite Hs, Hi. cbv zeta.
  change (drill_tip (set_drill_tip (next_tip dt g) _)) with (next_tip dt g).
  rewrite Ho. reflexivity.
Qed.

Lemma update_advance (dt : R) (g : Game) :
  state g = drilling ->
  lineCircleIntersection (drill_tip g) (next_tip dt g)
    (target_x g, target_y g) (target_radius g) = None ->
  out_of_bounds (next_tip dt g) = false ->
  update dt g =
  mkGame (angle g) (origin_x g) (target_x g) (target_y g) (target_radius g)
    drilling (next_tip dt g) (drill_speed_mps g) (result_point g)
    (tries_remaining g)
    (drill_path_length g + seg_len (drill_tip g) (next_tip dt g))
    (total_cost g) (accumulated_cost g).
Proof.
  intros Hs Hi Ho. unfold update. rewrite Hs, Hi. cbv zeta.
  change (drill_tip (set_drill_tip (next_tip dt g) _)) with (next_tip dt g).
  rewrite Ho. unfold set_drill_tip, set_drill_path_length. simpl.
  rewrite Hs. reflexivity.
Qed.

(** The case analysis of [update] on a drilling game. *)
Lemma update_cases (dt : R) (g : Game) :
  state g = drilling ->
  (exists ipt,
      lineCircleIntersection (drill_tip g) (next_tip dt g)
        (target_x g, target_y g) (target_radius g) = Some ipt)
  \/ (lineCircleIntersection (drill_tip g) (next_tip dt g)
        (target_x g, target_y g) (target_radius g) = None
      /\ out_of_bounds (next_tip dt g) = true)
  \/ (lineCircleIntersection (drill_tip g) (next_tip dt g)
        (target_x g, target_y g) (target_radius g) = None
      /\ out_of_bounds (next_tip dt g) = false).
Proof.
  intros _.
  destruct (lineCircleIntersection _ _ _ _) as [ipt|].
  - left. exists ipt. reflexivity.
  - right. destruct (out_of_bounds (next_tip dt g)); [left | right];
      split; reflexivity.
Qed.


(** A fresh game fired straight down for two seconds: the target passes
    150 to the right, and the candidate tip is at depth 1800, far beyond
    the bound of 900. *)
Lemma deep_miss :
  let g := startDrill (newGame zero_draws) in
  state g = drilling
  /\ next_tip 2 g = (100, -1800)
  /\ lineCircleIntersection (drill_tip g) (next_tip 2 g)
       (target_x g, target_y g) (target_radius g) = None
  /\ (snd (next_tip 2 g) <= MAX_DEPTH_WORLD \/ 1100 < fst (next_tip 2 g)).
Proof.
  cbv zeta.
  assert (Hn : next_tip 2 (startDrill (newGame zero_draws)) = (100, -1800)).
  { rewrite next_tip_default by reflexivity. simpl.
    world. f_equal; lra. }
  split; [reflexivity|]. split; [exact Hn|]. split.
  - apply vertical_miss.
    + rewrite Hn. simpl. world. lra.
    + simpl. world. lra.
  - left. rewrite Hn. simpl. world. lra.
Qed.


(** ** Path length *)

(** Each frame adds to the path length the length of the segment the tip
    moved along in that frame. *)
Lemma update_path_step (dt : R) (g : Game) :
  drill_path_length (update dt g)
  = drill_path_length g + seg_len (drill_tip g) (drill_tip (update dt g)).
Proof.
  destruct (state g) eqn:Hs;
    try (rewrite update_not_drilling by congruence;
         rewrite seg_len_same; ring).
  destruct (update_cases dt g Hs) as [[ipt Hi] | [[Hi Ho] | [Hi Ho]]].
  - rewrite (update_hit dt g ipt Hs Hi). reflexivity.
  - rewrite (update_exit dt g Hs Hi Ho). reflexivity.
  - rewrite (update_advance dt g Hs Hi Ho). reflexivity.
Qed.

Lemma update_path_mono (dt : R) (g : Game) :
  drill_path_length g <= drill_path_length (update dt g).
Proof.
  rewrite update_path_step.
  pose proof (seg_len_nonneg (drill_tip g) (drill_tip (update dt g))). lra.
Qed.

Lemma run_updates_path (dts : list R) (g : Game) :
  drill_path_length (run_updates dts g)
  = drill_path_length g + polyline_length (drill_tip g) (tip_trace dts g).
Proof.
  revert g. induction dts as [|dt rest IH]; intros g; simpl.
  - ring.
  - rewrite IH, update_path_step, seg_len_euclidean. ring.
Qed.

Lemma run_updates_path_mono (dts : list R) (g : Game) :
  drill_path_length g <= drill_path_length (run_updates dts g).
Proof.
  revert g. induction dts as [|dt rest IH]; intros g; simpl.
  - lra.
  - apply Rle_trans with (drill_path_length (update dt g));
      [apply update_path_mono | apply IH].
Qed.

Lemma run_updates_app (dts dts' : list R) (g : Game) :
  run_updates (dts ++ dts') g = run_updates dts' (run_updates dts g).
Proof.
  revert g. induction dts as [|dt rest IH]; intros g; simpl;
    [reflexivity | apply IH].
Qed.

(** A frame changes neither the angle, nor the round, nor the speed. *)
Lemma update_frame (dt : R) (g : Game) :
  angle (update dt g) = angle g
  /\ origin_x (update dt g) = origin_x g
  /\ target_x (update dt g) = target_x g
  /\ target_y (update dt g) = target_y g
  /\ target_radius (update dt g) = target_radius g
  /\ drill_speed_mps (update dt g) = drill_speed_mps g.
Proof.
  destruct (state g) eqn:Hs;
    try (rewrite update_not_drilling by congruence; repeat split).
  destruct (update_cases dt g Hs) as [[ipt Hi] | [[Hi Ho] | [Hi Ho]]].
  - rewrite (update_hit dt g ipt Hs Hi). repeat split.
  - rewrite (update_exit dt g Hs Hi Ho). repeat split.
  - rewrite (update_advance dt g Hs Hi Ho). repeat split.
Qed.

Lemma run_updates_frame (dts : list R) (g : Game) :
  angle (run_updates dts g) = angle g
  /\ origin_x (run_updates dts g) = origin_x g
  /\ target_x (run_updates dts g) = target_x g
  /\ target_y (run_updates dts g) = target_y g
  /\ target_radius (run_updates dts g) = target_radius g
  /\ drill_speed_mps (run_updates dts g) = drill_speed_mps g.
Proof.
  revert g. induction dts as [|dt rest IH]; intros g; simpl.
  - repeat split.
  - destruct (IH (update dt g)) as (-> & -> & -> & -> & -> & ->).
    apply update_frame.
Qed.

(** C6.  Over the frames of one attempt, started from [aim] at any angle
    and with any deltas, the path length is the length of the polyline
    from the origin through the positions of the tip after each frame: the
    sum of the Euclidean lengths of the segments the tip actually moved
    along.  It never decreases from one frame to a later one.  A frame that
    finds a hit ends the polyline at the intersection point: the attempt
    is won there, and the Euclidean distance from the tip to that point
    is what the frame adds. *)
Theorem path_length_is_polyline (g : Game) (dts : list R) :
  state g = aim ->
  let g0 := startDrill g in
  drill_tip g0 = (origin_x g, 0)
  /\ drill_path_length (run_updates dts g0)
     = polyline_length (origin_x g, 0) (tip_trace dts g0)
  /\ (forall dts',
        drill_path_length (run_updates dts g0)
        <= drill_path_length (run_updates (dts ++ dts') g0))
  /\ (forall dt ipt,
        state (run_updates dts g0) = drilling ->
        lineCircleIntersection (drill_tip (run_updates dts g0))
          (next_tip dt (run_updates dts g0))
          (target_x g, target_y g) (target_radius g) = Some ipt ->
        state (run_updates (dts ++ [dt]) g0) = win
        /\ drill_tip (run_updates (dts ++ [dt]) g0) = ipt
        /\ drill_path_length (run_updates (dts ++ [dt]) g0)
           = drill_path_length (run_updates dts g0)
             + sqrt (Rsqr (fst (drill_tip (run_updates dts g0)) - fst ipt)
                     + Rsqr (snd (drill_tip (run_updates dts g0)) - snd ipt))).
Proof.
  intros Hs. cbv zeta.
  assert (Ht : drill_tip (startDrill g) = (origin_x g, 0))
    by (unfold startDrill; rewrite Hs; reflexivity).
  assert (Hp : drill_path_length (startDrill g) = 0)
    by (unfold startDrill; rewrite Hs; reflexivity).
  split; [exact Ht|]. split; [|split].
  - rewrite run_updates_path, Hp, Ht. ring.
  - intros dts'. rewrite run_updates_app. apply run_updates_path_mono.
  - intros dt ipt Hd Hi. rewrite run_updates_app. simpl.
    destruct (run_updates_frame dts (startDrill g))
      as (_ & _ & Hx & Hy & Hr & _).
    assert (Hg : target_x (startDrill g) = target_x g
                 /\ target_y (startDrill g) = target_y g
                 /\ target_radius (startDrill g) = target_radius g)
      by (unfold startDrill; rewrite Hs; repeat split).
    destruct Hg as (Hx' & Hy' & Hr').
    rewrite (update_hit dt _ ipt Hd);
      [|rewrite Hx, Hy, Hr, Hx', Hy', Hr'; exact Hi].
    split; [reflexivity|]. split; [reflexivity|]. simpl.
    rewrite seg_len_euclidean. reflexivity.
Qed.

(** ** Invariants of a run *)

(** A hit is the point of the segment at a parameter of [0,1] that solves
    the quadratic, on a segment of non-zero length. *)
Lemma hit_inversion (p0 p1 c : point) (r : R) (ipt : point) :
  lineCircleIntersection p0 p1 c r = Some ipt ->
  exists v, 0 <= v <= 1
            /\ ipt = point_at p0 p1 (Fin v)
            /\ quad_a p0 p1 <> 0
            /\ quad_a p0 p1 * v * v + quad_b p0 p1 c * v + quad_c p0 c r = 0.
Proof.
  unfold lineCircleIntersection.
  destruct (Rlt_dec (quad_disc p0 p1 c r) 0) as [|Hd]; [discriminate|].
  assert (Hs : sqrt (quad_disc p0 p1 c r) * sqrt (quad_disc p0 p1 c r)
               = quad_b p0 p1 c * quad_b p0 p1 c
                 - 4 * quad_a p0 p1 * quad_c p0 c r).
  { rewrite sqrt_sqrt by lra. reflexivity. }
  simpl.
  destruct (in_unit (root_t1 p0 p1 c r)) eqn:H1.
  - intros [= <-]. apply in_unit_Fin in H1 as (v & E & Hv).
    exists v. rewrite E. split; [exact Hv|]. split; [reflexivity|].
    unfold root_t1 in E. apply jsdiv_Fin in E as [Ha Ev].
    assert (Ha' : quad_a p0 p1 <> 0) by lra.
    split; [exact Ha'|].
    apply (root_solves _ _ _ _ _ Ha' Hs). left. exact Ev.
  - destruct (in_unit (root_t2 p0 p1 c r)) eqn:H2; [|discriminate].
    intros [= <-]. apply in_unit_Fin in H2 as (v & E & Hv).
    exists v. rewrite E. split; [exact Hv|]. split; [reflexivity|].
    unfold root_t2 in E. apply jsdiv_Fin in E as [Ha Ev].
    assert (Ha' : quad_a p0 p1 <> 0) by lra.
    split; [exact Ha'|].
    apply (root_solves _ _ _ _ _ Ha' Hs). right. exact Ev.
Qed.

(** A hit lies on the circle. *)
Lemma hit_on_circle (p0 p1 c : point) (r : R) (ipt : point) :
  lineCircleIntersection p0 p1 c r = Some ipt -> sqdist c ipt = r * r.
Proof.
  intros H. apply hit_inversion in H as (v & _ & -> & _ & Hq).
  unfold sqdist. rewrite (quad_is_distance p0 p1 c r v). lra.
Qed.

Lemma seg_len_sqdist (p q : point) : seg_len p q = sqrt (sqdist p q).
Proof. reflexivity. Qed.

Lemma session_inv_resetRound (u : draws) (g : Game) :
  session_inv (resetRound u g).
Proof.
  unfold session_inv. simpl. repeat split; try lia; try lra;
    try congruence; try discriminate.
Qed.

Lemma no_result_unless_win (g : Game) :
  session_inv g -> state g <> win -> result_point g = None.
Proof.
  intros (_ & _ & _ & Hr & _) Hs.
  destruct (result_point g) eqn:E; [|reflexivity].
  exfalso. apply Hs, Hr. discriminate.
Qed.

Lemma session_inv_update (dt : R) (g : Game) :
  session_inv g -> session_inv (update dt g).
Proof.
  intros I. destruct (state g) eqn:Hs;
    try (rewrite update_not_drilling by congruence; exact I).
  assert (Hn : result_point g = None)
    by (apply no_result_unless_win; [exact I | congruence]).
  destruct I as (Ht & Ht1 & Hp & Hr & Hw).
  specialize (Ht1 (or_intror Hs)).
  destruct (update_cases dt g Hs) as [[ipt Hi] | [[Hi Ho] | [Hi Ho]]].
  - rewrite (update_hit dt g ipt Hs Hi). unfold session_inv. simpl.
    pose proof (seg_len_nonneg (drill_tip g) ipt).
    repeat split; try lia; try lra; try congruence; try discriminate.
    apply (hit_on_circle _ _ _ _ _ Hi).
  - rewrite (update_exit dt g Hs Hi Ho). unfold session_inv. simpl.
    pose proof (seg_len_nonneg (drill_tip g) (next_tip dt g)).
    repeat split; try lia; try lra; try congruence; try discriminate.
    intros [|]; discriminate.
  - rewrite (update_advance dt g Hs Hi Ho). unfold session_inv. simpl.
    pose proof (seg_len_nonneg (drill_tip g) (next_tip dt g)).
    rewrite Hn.
    repeat split; try lia; try lra; try congruence; try discriminate.
Qed.

Lemma session_inv_drill_or_resume (g : Game) :
  session_inv g -> session_inv (drill_or_resume g).
Proof.
  intros I. pose proof I as (Ht & Ht1 & Hp & Hr & Hw).
  pose proof (no_result_unless_win g I) as Hn.
  unfold drill_or_resume. destruct (state g) eqn:Hs; try exact I.
  - unfold startDrill. rewrite Hs. unfold session_inv. simpl.
    specialize (Ht1 (or_introl eq_refl)).
    repeat split; try lia; try lra; try congruence; try discriminate.
  - destruct (Z.ltb_spec 0 (tries_remaining g)); [|exact I].
    unfold session_inv. simpl. rewrite Hn by discriminate.
    repeat split; try lia; try lra; try congruence; try discriminate.
Qed.

Lemma session_inv_new_round (u : draws) (g : Game) :
  session_inv g -> session_inv (new_round u g).
Proof.
  intros I. unfold new_round.
  destruct (state g); try apply session_inv_resetRound. exact I.
Qed.

Lemma session_inv_keydown_arrows (key : string) (g : Game) :
  session_inv g -> session_inv (keydown_arrows key g).
Proof.
  intros I. unfold keydown_arrows. destruct (state g); try exact I.
  destruct (String.eqb key "ArrowLeft"); [exact I|].
  destruct (String.eqb key "ArrowRight"); exact I.
Qed.

Lemma session_inv_keydown_commands (key : string) (u : draws) (g : Game) :
  session_inv g -> session_inv (keydown_commands key u g).
Proof.
  intros I. unfold keydown_commands.
  destruct (String.eqb key " "); [apply session_inv_drill_or_resume, I|].
  destruct (String.eqb key "n" || String.eqb key "N");
    [apply session_inv_new_round, I | exact I].
Qed.

Lemma session_inv_handle (e : event) (u : draws) (g : Game) :
  session_inv g -> session_inv (handle e u g).
Proof.
  intros I. destruct e as [dt | | | key help]; simpl.
  - apply session_inv_update, I.
  - apply session_inv_drill_or_resume, I.
  - apply session_inv_new_round, I.
  - unfold keydown. destruct (String.eqb key "Escape").
    + destruct help; [exact I | apply session_inv_keydown_commands, I].
    + apply session_inv_keydown_commands, session_inv_keydown_arrows, I.
Qed.

Lemma session_inv_exec (tr : trace) (g : Game) :
  session_inv g -> session_inv (exec tr g).
Proof.
  revert g. induction tr as [|[e u] rest IH]; intros g I; simpl.
  - exact I.
  - apply IH, session_inv_handle, I.
Qed.

Lemma session_inv_reachable (g : Game) : reachable g -> session_inv g.
Proof.
  induction 1 as [u Hu | e u g Hg IH Hu].
  - apply session_inv_resetRound.
  - apply session_inv_handle, IH.
Qed.

Lemma round_inv_resetRound (u : draws) (g : Game) :
  valid_draws u -> ANGLE_MIN <= angle g <= ANGLE_MAX ->
  round_inv (resetRound u g).
Proof.
  intros (Ho & Hx & Hy & Hr) Ha. unfold unit_draw in *.
  unfold round_inv. simpl.
  world.
  repeat split; try lra; try exact (proj1 Ha); try exact (proj2 Ha);
    congruence.
Qed.

Lemma round_inv_update (dt : R) (g : Game) :
  session_inv g -> round_inv g -> round_inv (update dt g).
Proof.
  intros I R. destruct (state g) eqn:Hs;
    try (rewrite update_not_drilling by congruence; exact R).
  destruct R as (Ho & Hx & Hy & Hr & Hv & Ha & Hb).
  destruct (update_cases dt g Hs) as [[ipt Hi] | [[Hi Hout] | [Hi Hout]]].
  - rewrite (update_hit dt g ipt Hs Hi). unfold round_inv. simpl.
    repeat split; try lra; congruence.
  - rewrite (update_exit dt g Hs Hi Hout). unfold round_inv. simpl.
    repeat split; try lra; congruence.
  - rewrite (update_advance dt g Hs Hi Hout). unfold round_inv. simpl.
    split; [lra|]. split; [lra|]. split; [lra|]. split; [lra|].
    split; [lra|]. split; [lra|]. intros _. split; [exact Hout|].
    destruct (Hb Hs) as [_ [Hp | Hy0]]; [left|].
    + pose proof (seg_len_nonneg (drill_tip g) (next_tip dt g)). lra.
    + pose proof (seg_len_nonneg (drill_tip g) (next_tip dt g)) as Hn.
      destruct (Req_dec_T (seg_len (drill_tip g) (next_tip dt g)) 0)
        as [Hz | Hz].
      * right. change (snd (next_tip dt g) = SURFACE_Y_WORLD).
        rewrite (seg_len_zero _ _ Hz). exact Hy0.
      * left. destruct I as (_ & _ & Hp0 & _). lra.
Qed.

Lemma round_inv_drill_or_resume (g : Game) :
  round_inv g -> round_inv (drill_or_resume g).
Proof.
  intros I. pose proof I as (Ho & Hx & Hy & Hr & Hv & Ha & Hb).
  unfold drill_or_resume. destruct (state g) eqn:Hs; try exact I.
  - unfold startDrill. rewrite Hs. unfold round_inv. simpl.
    split; [lra|]. split; [lra|]. split; [lra|]. split; [lra|].
    split; [lra|]. split; [lra|]. intros _. split; [|right; reflexivity].
    apply out_of_bounds_false. simpl.
    world. lra.
  - destruct (0 <? tries_remaining g)%Z; [|exact I].
    unfold round_inv. simpl. repeat split; try lra; congruence.
Qed.

Lemma round_inv_new_round (u : draws) (g : Game) :
  valid_draws u -> round_inv g -> round_inv (new_round u g).
Proof.
  intros Hu I. pose proof I as (_ & _ & _ & _ & _ & Ha & _).
  unfold new_round.
  destruct (state g); try (apply round_inv_resetRound; assumption). exact I.
Qed.

Lemma round_inv_keydown_arrows (key : string) (g : Game) :
  round_inv g -> round_inv (keydown_arrows key g).
Proof.
  intros I. pose proof I as (Ho & Hx & Hy & Hr & Hv & Ha & Hb).
  unfold keydown_arrows. destruct (state g) eqn:Hs; try exact I.
  destruct (String.eqb key "ArrowLeft").
  - unfold round_inv. simpl. rewrite Hs.
    pose proof (clamp_bounds (angle g - 1)).
    repeat split; try lra; congruence.
  - destruct (String.eqb key "ArrowRight"); [|exact I].
    unfold round_inv. simpl. rewrite Hs.
    pose proof (clamp_bounds (angle g + 1)).
    repeat split; try lra; congruence.
Qed.

Lemma round_inv_keydown_commands (key : string) (u : draws) (g : Game) :
  valid_draws u -> round_inv g -> round_inv (keydown_commands key u g).
Proof.
  intros Hu I. unfold keydown_commands.
  destruct (String.eqb key " "); [apply round_inv_drill_or_resume, I|].
  destruct (String.eqb key "n" || String.eqb key "N");
    [apply round_inv_new_round; assumption | exact I].
Qed.

Lemma round_inv_handle (e : event) (u : draws) (g : Game) :
  valid_draws u -> session_inv g -> round_inv g -> round_inv (handle e u g).
Proof.
  intros Hu S I. destruct e as [dt | | | key help]; simpl.
  - apply round_inv_update; assumption.
  - apply round_inv_drill_or_resume, I.
  - apply round_inv_new_round; assumption.
  - unfold keydown. destruct (String.eqb key "Escape").
    + destruct help; [exact I | apply round_inv_keydown_commands; assumption].
    + apply round_inv_keydown_commands; [assumption|].
      apply round_inv_keydown_arrows, I.
Qed.

Lemma round_inv_reachable (g : Game) : reachable g -> round_inv g.
Proof.
  induction 1 as [u Hu | e u g Hg IH Hu].
  - apply round_inv_resetRound; [exact Hu|].
    simpl. world. lra.
  - apply round_inv_handle;
      [assumption | apply session_inv_reachable | ]; assumption.
Qed.

(** ** Steps of a run *)

Lemma quiet_refl (g : Game) : quiet g g.
Proof. unfold quiet. repeat split. Qed.

Lemma quiet_drill_or_resume (g : Game) : quiet g (drill_or_resume g).
Proof.
  unfold drill_or_resume. destruct (state g) eqn:Hs; try apply quiet_refl.
  - unfold startDrill. rewrite Hs. unfold quiet. simpl.
    repeat split. intros [|]; discriminate.
  - destruct (0 <? tries_remaining g)%Z; [|apply quiet_refl].
    unfold quiet. simpl. repeat split. intros [|]; discriminate.
Qed.

Lemma quiet_keydown_arrows (key : string) (g : Game) :
  quiet g (keydown_arrows key g) /\ state (keydown_arrows key g) = state g.
Proof.
  unfold keydown_arrows. destruct (state g) eqn:Hs;
    try (split; [apply quiet_refl | assumption]).
  destruct (String.eqb key "ArrowLeft").
  - unfold quiet. simpl. repeat split; congruence.
  - destruct (String.eqb key "ArrowRight").
    + unfold quiet. simpl. repeat split; congruence.
    + split; [apply quiet_refl | assumption].
Qed.

Lemma arrows_ignore_n (key : string) (g : Game) :
  key = "n"%string \/ key = "N"%string -> keydown_arrows key g = g.
Proof.
  intros [-> | ->]; unfold keydown_arrows; destruct (state g); reflexivity.
Qed.

(** Every event is a round reset, a frame of a drilling game, or quiet. *)
Lemma handle_classify (e : event) (u : draws) (g : Game) :
  (resets e g = true /\ handle e u g = resetRound u g)
  \/ (resets e g = false /\ state g = drilling
      /\ exists dt, e = Tick dt)
  \/ (resets e g = false /\ quiet g (handle e u g)).
Proof.
  destruct e as [dt | | | key help]; simpl.
  - destruct (state g) eqn:Hs;
      try (right; right; split; [reflexivity|];
           rewrite update_not_drilling by congruence; apply quiet_refl).
    right; left. split; [reflexivity|]. split; [reflexivity|].
    exists dt. reflexivity.
  - right; right. split; [reflexivity | apply quiet_drill_or_resume].
  - unfold new_round. destruct (state g);
      try (left; split; reflexivity).
    right; right. split; [reflexivity | apply quiet_refl].
  - unfold keydown.
    destruct (String.eqb_spec key "Escape") as [-> | _].
    + right; right. split; [reflexivity|].
      destruct help; [apply quiet_refl|]. apply quiet_refl.
    + unfold keydown_commands.
      destruct (String.eqb_spec key " ") as [-> | _].
      * right; right. split; [reflexivity|].
        destruct (quiet_keydown_arrows " " g) as [(Q1 & Q2 & Q3) Qs].
        destruct (quiet_drill_or_resume (keydown_arrows " " g))
          as (D1 & D2 & D3).
        unfold quiet. rewrite D1, D2, Q1, Q2.
        split; [reflexivity|]. split; [reflexivity|].
        intros H. rewrite (D3 H). exact Qs.
      * destruct (String.eqb key "n" || String.eqb key "N") eqn:Hn.
        -- assert (Hk : key = "n"%string \/ key = "N"%string).
           { apply orb_true_iff in Hn as [H | H];
               apply String.eqb_eq in H; [left | right]; exact H. }
           rewrite (arrows_ignore_n key g Hk).
           unfold new_round. destruct (state g);
             try (left; split; reflexivity).
           right; right. split; [reflexivity | apply quiet_refl].
        -- right; right. split; [reflexivity|].
           apply quiet_keydown_arrows.
Qed.

(** The three outcomes of a frame of a drilling game, as the session sees
    them. *)
Lemma update_session (dt : R) (g : Game) :
  state g = drilling ->
  let g' := update dt g in
  (state g' = win /\ tries_remaining g' = tries_remaining g
   /\ accumulated_cost g'
      = accumulated_cost g + drill_path_length g' * DRILL_COST_PER_METER)
  \/ (state g' = lose /\ tries_remaining g' = (tries_remaining g - 1)%Z
      /\ accumulated_cost g'
         = accumulated_cost g + drill_path_length g' * DRILL_COST_PER_METER)
  \/ (state g' = drilling /\ tries_remaining g' = tries_remaining g
      /\ accumulated_cost g' = accumulated_cost g).
Proof.
  intros Hs. cbv zeta.
  destruct (update_cases dt g Hs) as [[ipt Hi] | [[Hi Ho] | [Hi Ho]]].
  - left. rewrite (update_hit dt g ipt Hs Hi). repeat split.
  - right; left. rewrite (update_exit dt g Hs Hi Ho). repeat split.
  - right; right. rewrite (update_advance dt g Hs Hi Ho). repeat split.
Qed.

(** ** Tries *)

(** C2. In a reachable state the tries remaining are between 0 and 3, and
    a fresh round has 3.  Over any one event they go down only on a step
    into [lose], and then by exactly 1; a step into [win] leaves them as
    they are.  The resume command returns to [aim] only with a try left,
    and a frame outside [drilling] changes nothing. *)
Theorem tries_remaining_accounting (g : Game) (e : event) (u : draws) :
  reachable g ->
  let g' := handle e u g in
  (forall u0 g0, tries_remaining (newGame u0) = 3%Z
                 /\ tries_remaining (resetRound u0 g0) = 3%Z)
  /\ (0 <= tries_remaining g <= 3)%Z
  /\ (0 <= tries_remaining g' <= 3)%Z
  /\ (enters_lose g g' = true ->
      tries_remaining g' = (tries_remaining g - 1)%Z)
  /\ ((tries_remaining g' < tries_remaining g)%Z -> enters_lose g g' = true)
  /\ (enters_win g g' = true -> tries_remaining g' = tries_remaining g)
  /\ (state g = lose -> state (drill_or_resume g) = aim ->
      (0 < tries_remaining g)%Z)
  /\ (forall dt, state g <> drilling -> update dt g = g).
Proof.
  intros Hr. cbv zeta.
  pose proof (session_inv_reachable g Hr) as I.
  pose proof (session_inv_handle e u g I) as I'.
  destruct I as (Ht & _). destruct I' as (Ht' & _).
  split; [intros u0 g0; split; reflexivity|].
  split; [exact Ht|]. split; [exact Ht'|].
  assert (Hstep :
    (enters_lose g (handle e u g) = true ->
     tries_remaining (handle e u g) = (tries_remaining g - 1)%Z)
    /\ ((tries_remaining (handle e u g) < tries_remaining g)%Z ->
        enters_lose g (handle e u g) = true)
    /\ (enters_win g (handle e u g) = true ->
        tries_remaining (handle e u g) = tries_remaining g)).
  { destruct (handle_classify e u g)
      as [[_ E] | [(_ & Hs & dt & ->) | (_ & Q1 & _ & Q3)]].
    - rewrite E. unfold enters_lose, enters_win. simpl.
      repeat split; try lia; destruct (state g); discriminate.
    - simpl. unfold enters_lose, enters_win. rewrite Hs.
      destruct (update_session dt g Hs)
        as [(-> & -> & _) | [(-> & -> & _) | (-> & -> & _)]];
        repeat split; try lia; try discriminate.
    - unfold enters_lose, enters_win. rewrite Q1.
      repeat split; try lia.
      destruct (state g) eqn:Hs, (state (handle e u g)) eqn:Hs';
        intros Hel; try discriminate Hel;
        specialize (Q3 (or_intror eq_refl)); discriminate Q3. }
  destruct Hstep as (H1 & H2 & H3).
  split; [exact H1|]. split; [exact H2|]. split; [exact H3|].
  split.
  - intros Hs. unfold drill_or_resume. rewrite Hs.
    destruct (Z.ltb_spec 0 (tries_remaining g)); [intros _; assumption|].
    rewrite Hs. discriminate.
  - intros dt. apply update_not_drilling.
Qed.

Lemma reachable_startDrill_fresh :
  reachable (startDrill (newGame zero_draws)).
Proof.
  apply (reach_handle DrillClick zero_draws (newGame zero_draws));
    [|apply zero_draws_valid].
  apply reach_new, zero_draws_valid.
Qed.

(** The first attempt of a fresh game, fired straight down for two
    seconds, is lost and leaves two tries. *)
Lemma tries_remaining_witness :
  let g := startDrill (newGame zero_draws) in
  reachable g
  /\ enters_lose g (handle (Tick 2) zero_draws g) = true
  /\ tries_remaining (handle (Tick 2) zero_draws g) = 2%Z.
Proof.
  cbv zeta. destruct deep_miss as (Hs & Hn & Hi & Ho).
  apply out_of_bounds_true in Ho.
  assert (Hl : enters_lose (startDrill (newGame zero_draws))
                 (handle (Tick 2) zero_draws (startDrill (newGame zero_draws)))
               = true).
  { simpl handle. rewrite (update_exit 2 _ Hs Hi Ho). reflexivity. }
  split; [apply reachable_startDrill_fresh|]. split; [exact Hl|].
  destruct (tries_remaining_accounting (startDrill (newGame zero_draws))
              (Tick 2) zero_draws reachable_startDrill_fresh)
    as (_ & _ & _ & Hdec & _).
  rewrite (Hdec Hl). reflexivity.
Defined.

(** ** Accumulated cost *)

Lemma ledger_cost_app (ls : list R) (l : R) :
  ledger_cost (ls ++ [l]) = ledger_cost ls + l * DRILL_COST_PER_METER.
Proof.
  induction ls as [|x rest IH]; simpl; [ring | rewrite IH; ring].
Qed.

(** What one event does to the accumulated cost. *)
Lemma handle_cost (e : event) (u : draws) (g : Game) :
  let g' := handle e u g in
  (resets e g = true -> accumulated_cost g' = 0)
  /\ (resets e g = false -> concludes g g' = true ->
      accumulated_cost g'
      = accumulated_cost g + drill_path_length g' * DRILL_COST_PER_METER)
  /\ (resets e g = false -> concludes g g' = false ->
      accumulated_cost g' = accumulated_cost g).
Proof.
  cbv zeta.
  destruct (handle_classify e u g)
    as [[Hr E] | [(Hr & Hs & dt & ->) | (Hr & _ & Q2 & Q3)]].
  - rewrite Hr, E. repeat split; try discriminate.
  - simpl. unfold concludes. rewrite Hs.
    destruct (update_session dt g Hs)
      as [(-> & _ & Ha) | [(-> & _ & Ha) | (-> & _ & Ha)]];
      repeat split; try discriminate; intros; exact Ha.
  - rewrite Hr. split; [discriminate|]. split; [|intros; exact Q2].
    intros _. unfold concludes.
    destruct (state g) eqn:Hs, (state (handle e u g)) eqn:Hs';
      intros Hc; try discriminate Hc;
      [specialize (Q3 (or_introl eq_refl)) | specialize (Q3 (or_intror eq_refl))];
      discriminate Q3.
Qed.

Lemma exec_ledger (tr : trace) (g : Game) (acc : list R) :
  accumulated_cost g = ledger_cost acc ->
  accumulated_cost (exec tr g) = ledger_cost (ledger tr g acc).
Proof.
  revert g acc. induction tr as [|[e u] rest IH]; intros g acc Hacc; simpl.
  - exact Hacc.
  - apply IH. destruct (handle_cost e u g) as (H1 & H2 & H3).
    destruct (resets e g).
    + rewrite H1 by reflexivity. reflexivity.
    + destruct (concludes g (handle e u g)).
      * rewrite H2 by reflexivity. rewrite ledger_cost_app, Hacc. reflexivity.
      * rewrite H3 by reflexivity. exact Hacc.
Qed.

Lemma exec_reachable (tr : trace) (g : Game) :
  reachable g -> Forall (fun eu => valid_draws (snd eu)) tr ->
  reachable (exec tr g).
Proof.
  revert g. induction tr as [|[e u] rest IH]; intros g Hg Hv; simpl.
  - exact Hg.
  - inversion Hv as [|x l Hu Hrest]; subst. simpl in Hu.
    apply IH; [|exact Hrest]. apply reach_handle; assumption.
Qed.

(** When a frame concludes an attempt, the tip has moved: the final path
    length is positive. *)
Lemma concluding_path_positive (dt : R) (g : Game) :
  reachable g -> state g = drilling -> state (update dt g) <> drilling ->
  0 < drill_path_length (update dt g).
Proof.
  intros Hr Hs Hc.
  destruct (session_inv_reachable g Hr) as (_ & _ & Hp & _).
  destruct (round_inv_reachable g Hr) as (_ & _ & Hy & Hrad & _ & _ & Hb).
  destruct (Hb Hs) as [Hin Hmoved].
  destruct (update_cases dt g Hs) as [[ipt Hi] | [[Hi Ho] | [Hi Ho]]].
  - rewrite (update_hit dt g ipt Hs Hi). simpl.
    pose proof (seg_len_nonneg (drill_tip g) ipt) as Hn.
    destruct Hmoved as [Hpos | Hy0]; [lra|].
    destruct (Req_dec_T (seg_len (drill_tip g) ipt) 0) as [Hz | Hz]; [|lra].
    exfalso. apply seg_len_zero in Hz.
    apply hit_on_circle in Hi. unfold sqdist in Hi. simpl in Hi.
    rewrite Hz, Hy0 in Hi.
    world.
    assert (250000 <= target_y g * target_y g) by nra.
    assert (target_radius g * target_radius g <= 400) by nra.
    pose proof (Rle_0_sqr (fst (drill_tip g) - target_x g)) as Hsq.
    unfold Rsqr in Hsq. lra.
  - rewrite (update_exit dt g Hs Hi Ho). simpl.
    pose proof (seg_len_nonneg (drill_tip g) (next_tip dt g)) as Hn.
    destruct (Req_dec_T (seg_len (drill_tip g) (next_tip dt g)) 0)
      as [Hz | Hz]; [|lra].
    exfalso. apply seg_len_zero in Hz. congruence.
  - exfalso. apply Hc. rewrite (update_advance dt g Hs Hi Ho). reflexivity.
Qed.

(** C3. Along any run of a fresh game, the accumulated cost is the sum,
    over the attempts concluded in the current round, of the attempt's
    final path length times the cost per meter.  An event that concludes an
    attempt adds that attempt's cost, once, and so increases the
    accumulated cost; a round reset sets it to 0; every other event leaves
    it as it is; and no event but a round reset lowers it. *)
Theorem accumulated_cost_is_ledger_sum (u0 : draws) (tr : trace) :
  valid_draws u0 -> Forall (fun eu => valid_draws (snd eu)) tr ->
  let g := exec tr (newGame u0) in
  accumulated_cost g = ledger_cost (ledger tr (newGame u0) [])
  /\ (forall u1 g1, accumulated_cost (resetRound u1 g1) = 0)
  /\ forall e u,
       let g' := handle e u g in
       (resets e g = true -> g' = resetRound u g /\ accumulated_cost g' = 0)
       /\ (resets e g = false -> concludes g g' = true ->
           accumulated_cost g'
           = accumulated_cost g
             + drill_path_length g' * DRILL_COST_PER_METER
           /\ accumulated_cost g < accumulated_cost g')
       /\ (resets e g = false -> concludes g g' = false ->
           accumulated_cost g' = accumulated_cost g)
       /\ (resets e g = false -> accumulated_cost g <= accumulated_cost g').
Proof.
  intros Hu0 Hv. cbv zeta. split; [apply exec_ledger; reflexivity|].
  split; [reflexivity|].
  intros e u.
  assert (Hr : reachable (exec tr (newGame u0)))
    by (apply exec_reachable; [apply reach_new|]; assumption).
  set (g := exec tr (newGame u0)) in *.
  assert (I' : session_inv (handle e u g))
    by (apply session_inv_handle, session_inv_reachable, Hr).
  destruct I' as (_ & _ & Hp & _).
  destruct (handle_cost e u g) as (H1 & H2 & H3).
  assert (Hstrict : resets e g = false -> concludes g (handle e u g) = true ->
                    0 < drill_path_length (handle e u g)).
  { intros Hn Hc.
    destruct (handle_classify e u g)
      as [[Hr' _] | [(_ & Hs & dt & ->) | (_ & _ & _ & Q3)]].
    - congruence.
    - simpl in *. apply concluding_path_positive; [exact Hr | exact Hs |].
      unfold concludes in Hc. rewrite Hs in Hc.
      destruct (state (update dt g)); congruence.
    - exfalso. unfold concludes in Hc.
      destruct (state g) eqn:Hs, (state (handle e u g)) eqn:Hs';
        try discriminate Hc;
        [specialize (Q3 (or_introl eq_refl))
        | specialize (Q3 (or_intror eq_refl))];
        discriminate Q3. }
  split; [|split; [|split; [exact H3|]]].
  - intros Hn. split; [|apply H1, Hn].
    destruct (handle_classify e u g) as [[_ E] | [(Hr' & _) | (Hr' & _)]];
      [exact E | congruence | congruence].
  - intros Hn Hc. split; [exact (H2 Hn Hc)|].
    rewrite (H2 Hn Hc). specialize (Hstrict Hn Hc).
    world. nra.
  - intros Hn. destruct (concludes g (handle e u g)) eqn:Hc.
    + rewrite (H2 Hn eq_refl). world. nra.
    + rewrite (H3 Hn eq_refl). lra.
Qed.

(** A fresh game fired straight down for two seconds: one attempt, lost
    at depth 1800, and an accumulated cost of 1800 * 300. *)
Lemma accumulated_cost_witness :
  let tr := [(DrillClick, zero_draws); (Tick 2, zero_draws)] in
  valid_draws zero_draws
  /\ Forall (fun eu => valid_draws (snd eu)) tr
  /\ ledger tr (newGame zero_draws) [] = [1800]
  /\ accumulated_cost (exec tr (newGame zero_draws)) = 540000.
Proof.
  cbv zeta.
  assert (Hv : Forall (fun eu => valid_draws (snd eu))
                 [(DrillClick, zero_draws); (Tick 2, zero_draws)])
    by (repeat (apply Forall_cons; [apply zero_draws_valid|]);
        apply Forall_nil).
  destruct deep_miss as (Hs & Hn & Hi & Ho).
  apply out_of_bounds_true in Ho.
  assert (Hl : ledger [(DrillClick, zero_draws); (Tick 2, zero_draws)]
                 (newGame zero_draws) [] = [1800]).
  { change (ledger [(DrillClick, zero_draws); (Tick 2, zero_draws)]
              (newGame zero_draws) [])
      with (if concludes (startDrill (newGame zero_draws))
                 (update 2 (startDrill (newGame zero_draws)))
            then [drill_path_length
                    (update 2 (startDrill (newGame zero_draws)))]
            else []).
    rewrite (update_exit 2 _ Hs Hi Ho), Hn.
    change (concludes _ _) with true. cbv iota.
    unfold drill_path_length at 1. f_equal.
    unfold seg_len, startDrill, getOrigin. simpl.
    world.
    rewrite Rplus_0_l.
    match goal with
    | |- sqrt ?x = _ => replace x with (1800 * 1800) by ring
    end.
    apply sqrt_square. lra. }
  split; [apply zero_draws_valid|]. split; [exact Hv|]. split; [exact Hl|].
  destruct (accumulated_cost_is_ledger_sum zero_draws
              [(DrillClick, zero_draws); (Tick 2, zero_draws)]
              zero_draws_valid Hv) as [Hsum _].
  rewrite Hsum, Hl. simpl. world. lra.
Defined.

(** ** Result point *)

(** C9. In a reachable state the result point is present exactly when the
    state is [win]; and then it is the drill tip, and its distance from the
    centre of the target is the radius of the target. *)
Theorem result_point_iff_win (g : Game) :
  reachable g ->
  (result_point g <> None <-> state g = win)
  /\ (state g = win ->
      result_point g = Some (drill_tip g)
      /\ seg_len (target_x g, target_y g) (drill_tip g) = target_radius g).
Proof.
  intros Hr.
  destruct (session_inv_reachable g Hr) as (_ & _ & _ & Hiff & Hw).
  destruct (round_inv_reachable g Hr) as (_ & _ & _ & Hrad & _).
  split; [exact Hiff|].
  intros Hs. destruct (Hw Hs) as [Hp Hd]. split; [exact Hp|].
  rewrite seg_len_sqdist, Hd. apply sqrt_square.
  world. lra.
Qed.

(** ** Frames of no duration *)

Lemma next_tip_zero (g : Game) : next_tip 0 g = drill_tip g.
Proof.
  unfold next_tip. cbv zeta. rewrite Rmult_0_r, !Rmult_0_r, !Rplus_0_r.
  symmetry. apply surjective_pairing.
Qed.

Lemma quad_a_same (p : point) : quad_a p p = 0.
Proof. unfold quad_a, seg_dx, seg_dy. ring. Qed.

(** C10. On a segment of length zero the coefficient [a] is 0, both roots
    are zero over zero, [NaN], and fail the test of [0,1]: no hit is
    reported wherever the point lies, inside or on the circle too.  So a
    frame of no duration leaves a reachable drilling game as it is, the
    path length having 0 added to it. *)
Theorem zero_length_segment_no_hit (g : Game) (p c : point) (r : R) :
  reachable g -> state g = drilling ->
  (quad_a p p = 0
   /\ root_t1 p p c r = NaN /\ root_t2 p p c r = NaN
   /\ in_unit (root_t1 p p c r) = false /\ in_unit (root_t2 p p c r) = false
   /\ lineCircleIntersection p p c r = None)
  /\ next_tip 0 g = drill_tip g
  /\ drill_path_length (update 0 g) = drill_path_length g + 0
  /\ update 0 g = g.
Proof.
  intros Hr Hs.
  destruct (degenerate_roots p p c r (quad_a_same p)) as (_ & H1 & H2 & Hn).
  split.
  { rewrite H1, H2. repeat split; try assumption. apply quad_a_same. }
  pose proof (next_tip_zero g) as Ht.
  destruct (round_inv_reachable g Hr) as (_ & _ & _ & _ & _ & _ & Hb).
  assert (Hi : lineCircleIntersection (drill_tip g) (next_tip 0 g)
                 (target_x g, target_y g) (target_radius g) = None).
  { rewrite Ht. apply degenerate_roots, quad_a_same. }
  assert (Ho : out_of_bounds (next_tip 0 g) = false)
    by (rewrite Ht; apply (Hb Hs)).
  assert (E : update 0 g = g).
  { rewrite (update_advance 0 g Hs Hi Ho), Ht, seg_len_same, Rplus_0_r.
    destruct g; simpl in *; subst; reflexivity. }
  split; [exact Ht|]. split; [|exact E].
  rewrite E. ring.
Qed.

(** A fresh game that has just started drilling, and a point at the centre
    of a circle of radius 1. *)
Lemma zero_length_segment_witness :
  let g := startDrill (newGame zero_draws) in
  reachable g /\ state g = drilling
  /\ lineCircleIntersection (0, 0) (0, 0) (0, 0) 1 = None
  /\ update 0 g = g.
Proof.
  cbv zeta. split; [apply reachable_startDrill_fresh|].
  split; [reflexivity|].
  destruct (zero_length_segment_no_hit (startDrill (newGame zero_draws))
              (0, 0) (0, 0) 1 reachable_startDrill_fresh eq_refl)
    as ((_ & _ & _ & _ & _ & Hn) & _ & _ & E).
  split; [exact Hn | exact E].
Defined.

(** ** A hit *)

(** The hit at the first root, from a square root of the discriminant. *)
Lemma hit_at_t1 (p0 p1 c : point) (r s v : R) :
  quad_a p0 p1 <> 0 -> 0 <= s -> s * s = quad_disc p0 p1 c r ->
  v = (- quad_b p0 p1 c - s) / (2 * quad_a p0 p1) -> 0 <= v <= 1 ->
  lineCircleIntersection p0 p1 c r
  = Some (fst p0 + v * seg_dx p0 p1, snd p0 + v * seg_dy p0 p1).
Proof.
  intros Ha Hs Hd Hv Hr. unfold lineCircleIntersection.
  destruct (Rlt_dec (quad_disc p0 p1 c r) 0) as [Hn|_]; [nra|].
  assert (E : root_t1 p0 p1 c r = Fin v).
  { unfold root_t1, jsdiv.
    destruct (Req_dec_T (2 * quad_a p0 p1) 0) as [Hz|_]; [lra|].
    rewrite <- Hd, sqrt_square by assumption. rewrite Hv. reflexivity. }
  simpl. rewrite E.
  assert (Hu : in_unit (Fin v) = true)
    by (apply in_unit_Fin; exists v; split; [reflexivity | assumption]).
  rewrite Hu. reflexivity.
Qed.

Lemma centred_draws_valid : valid_draws centred_draws.
Proof. unfold valid_draws, unit_draw, centred_draws. simpl. lra. Qed.

(** Fired straight down, the first frame of one second steps from the
    surface to depth 900 and crosses the target: the drill enters it at
    depth 495. *)
Lemma straight_down_hit :
  let g := startDrill (newGame centred_draws) in
  lineCircleIntersection (drill_tip g) (next_tip 1 g)
    (target_x g, target_y g) (target_radius g) = Some (500, -495).
Proof.
  cbv zeta.
  assert (Hn : next_tip 1 (startDrill (newGame centred_draws)) = (500, -900)).
  { rewrite next_tip_default by reflexivity. simpl.
    world. f_equal; lra. }
  rewrite Hn.
  replace (drill_tip (startDrill (newGame centred_draws))) with ((500, 0) : point)
    by (simpl; unfold getOrigin; simpl;
        world; f_equal; lra).
  replace (target_x (startDrill (newGame centred_draws))) with 500
    by (simpl; world; lra).
  replace (target_y (startDrill (newGame centred_draws))) with (-500)
    by (simpl; world; lra).
  replace (target_radius (startDrill (newGame centred_draws))) with 5
    by (simpl; world; lra).
  rewrite (hit_at_t1 (500, 0) (500, -900) (500, -500) 5 9000 (11 / 20)).
  - unfold seg_dx, seg_dy. simpl. f_equal. f_equal; lra.
  - unfold quad_a, seg_dx, seg_dy. simpl. lra.
  - lra.
  - unfold quad_disc, quad_a, quad_b, quad_c, seg_dx, seg_dy, seg_fx, seg_fy.
    simpl. lra.
  - unfold quad_a, quad_b, seg_dx, seg_dy, seg_fx, seg_fy. simpl. lra.
  - lra.
Qed.

(** That frame wins the attempt. *)
Lemma result_point_witness :
  let g := exec [(DrillClick, centred_draws); (Tick 1, centred_draws)]
                (newGame centred_draws) in
  reachable g
  /\ state g = win
  /\ drill_tip g = (500, -495)
  /\ result_point g = Some (drill_tip g)
  /\ seg_len (target_x g, target_y g) (drill_tip g) = target_radius g.
Proof.
  cbv zeta.
  assert (Hr : reachable
                 (exec [(DrillClick, centred_draws); (Tick 1, centred_draws)]
                       (newGame centred_draws))).
  { apply (reach_handle (Tick 1)); [|apply centred_draws_valid].
    apply (reach_handle DrillClick); [|apply centred_draws_valid].
    apply reach_new, centred_draws_valid. }
  assert (E : exec [(DrillClick, centred_draws); (Tick 1, centred_draws)]
                   (newGame centred_draws)
              = update 1 (startDrill (newGame centred_draws)))
    by reflexivity.
  assert (Hs : state (exec [(DrillClick, centred_draws);
                            (Tick 1, centred_draws)]
                           (newGame centred_draws)) = win
               /\ drill_tip (exec [(DrillClick, centred_draws);
                                   (Tick 1, centred_draws)]
                                  (newGame centred_draws)) = (500, -495)).
  { rewrite E.
    rewrite (update_hit 1 (startDrill (newGame centred_draws)) (500, -495)
               eq_refl straight_down_hit).
    split; reflexivity. }
  destruct Hs as [Hs Ht].
  split; [exact Hr|]. split; [exact Hs|]. split; [exact Ht|].
  apply (result_point_iff_win _ Hr). exact Hs.
Defined.

(** ** Frames of one attempt *)

Lemma update_keeps_drilling (dt : R) (g : Game) :
  state g = drilling ->
  lineCircleIntersection (drill_tip g) (next_tip dt g)
    (target_x g, target_y g) (target_radius g) = None ->
  out_of_bounds (next_tip dt g) = false ->
  state (update dt g) = drilling /\ drill_tip (update dt g) = next_tip dt g.
Proof.
  intros Hs Hi Ho. rewrite (update_advance dt g Hs Hi Ho).
  split; reflexivity.
Qed.

(** A frame that leaves the game drilling moved the tip to the candidate
    tip, and that is within the bounds. *)
Lemma update_still_drilling (dt : R) (g : Game) :
  state (update dt g) = drilling ->
  state g = drilling
  /\ drill_tip (update dt g) = next_tip dt g
  /\ out_of_bounds (next_tip dt g) = false.
Proof.
  intros H. destruct (state g) eqn:Hs;
    try (rewrite update_not_drilling in H by congruence; congruence).
  split; [reflexivity|].
  destruct (update_cases dt g Hs) as [[ipt Hi] | [[Hi Ho] | [Hi Ho]]].
  - rewrite (update_hit dt g ipt Hs Hi) in H. discriminate H.
  - rewrite (update_exit dt g Hs Hi Ho) in H. discriminate H.
  - rewrite (update_advance dt g Hs Hi Ho). split; [reflexivity | exact Ho].
Qed.

Lemma update_not_aim (dt : R) (g : Game) :
  state g <> aim -> state (update dt g) <> aim.
Proof.
  intros H. destruct (state g) eqn:Hs;
    try (rewrite update_not_drilling by congruence; congruence).
  destruct (update_session dt g Hs) as [(-> & _) | [(-> & _) | (-> & _)]];
    discriminate.
Qed.

Lemma frames_not_aim (dts : nat -> R) (n : nat) (g : Game) :
  state g <> aim -> state (frames dts n g) <> aim.
Proof.
  intros H. induction n as [|n IH]; simpl;
    [exact H | apply update_not_aim, IH].
Qed.

Lemma frames_frame (dts : nat -> R) (n : nat) (g : Game) :
  angle (frames dts n g) = angle g
  /\ target_x (frames dts n g) = target_x g
  /\ target_y (frames dts n g) = target_y g
  /\ target_radius (frames dts n g) = target_radius g
  /\ drill_speed_mps (frames dts n g) = drill_speed_mps g.
Proof.
  induction n as [|n IH]; simpl.
  - repeat split.
  - destruct (update_frame (dts n) (frames dts n g))
      as (-> & _ & -> & -> & -> & ->).
    exact IH.
Qed.

(** Once an attempt is concluded, further frames change nothing. *)
Lemma frames_stable (dts : nat -> R) (n m : nat) (g : Game) :
  state (frames dts n g) <> drilling -> (n <= m)%nat ->
  frames dts m g = frames dts n g.
Proof.
  intros Hs Hle. induction Hle as [|m Hle IH]; [reflexivity|].
  simpl. rewrite IH. apply update_not_drilling, Hs.
Qed.

(** While the game is drilling the tip is on the ray from where it started
    along the heading, at the distance the speed covers in the time
    elapsed; and after the first frame it is within the bounds. *)
Lemma frames_tip (dts : nat -> R) (n : nat) (g : Game) :
  state (frames dts n g) = drilling ->
  drill_tip (frames dts n g)
  = (fst (drill_tip g)
     + cos (deg2rad (angle g)) * (drill_speed_mps g * elapsed dts n),
     snd (drill_tip g)
     + sin (deg2rad (angle g)) * (drill_speed_mps g * elapsed dts n))
  /\ ((0 < n)%nat -> out_of_bounds (drill_tip (frames dts n g)) = false).
Proof.
  induction n as [|n IH]; simpl.
  - intros _. split; [|lia].
    rewrite !Rmult_0_r, !Rplus_0_r. apply surjective_pairing.
  - intros H. apply update_still_drilling in H as (Hs & Ht & Ho).
    destruct (IH Hs) as [IHt _].
    destruct (frames_frame dts n g) as (Ha & _ & _ & _ & Hv).
    rewrite Ht. split; [|intros _; exact Ho].
    unfold next_tip. rewrite Ha, Hv, IHt. simpl. f_equal; ring.
Qed.

(** If no frame of a drilling game finds a hit or leaves the bounds, the
    game drills for ever. *)
Lemma frames_keep_drilling (dts : nat -> R) (g : Game) :
  state g = drilling ->
  (forall n, state (frames dts n g) = drilling ->
             lineCircleIntersection (drill_tip (frames dts n g))
               (next_tip (dts n) (frames dts n g))
               (target_x g, target_y g) (target_radius g) = None
             /\ out_of_bounds (next_tip (dts n) (frames dts n g)) = false) ->
  forall n, state (frames dts n g) = drilling.
Proof.
  intros Hs Hstep n. induction n as [|n IH]; simpl; [exact Hs|].
  destruct (Hstep n IH) as [Hi Ho].
  destruct (frames_frame dts n g) as (_ & Hx & Hy & Hr & _).
  apply update_keeps_drilling; [exact IH | | exact Ho].
  rewrite Hx, Hy, Hr. exact Hi.
Qed.

Lemma sin_heading_neg (a : R) :
  ANGLE_MIN < a < ANGLE_MAX -> sin (deg2rad a) < 0.
Proof.
  unfold ANGLE_MIN, ANGLE_MAX, deg2rad. intros [Hlo Hhi].
  pose proof PI_RGT_0 as Hpi.
  apply sin_lt_0_var; nra.
Qed.

Lemma heading_right : cos (deg2rad ANGLE_MAX) = 1.
Proof.
  unfold deg2rad, ANGLE_MAX.
  replace (0 * PI / 180) with 0 by field. apply cos_0.
Qed.

(** A drilling game whose tip, while it drills, would have to be out of the
    bounds once the time elapsed exceeds [M], is concluded by then. *)
Lemma frames_conclude (dts : nat -> R) (g : Game) (M : R) :
  state g = drilling -> 0 <= M ->
  (forall n, M < elapsed dts n -> state (frames dts n g) = drilling ->
             out_of_bounds (drill_tip (frames dts n g)) = true) ->
  (forall B, exists n, B < elapsed dts n) ->
  exists n,
    (state (frames dts n g) = win \/ state (frames dts n g) = lose)
    /\ forall m, (n <= m)%nat -> frames dts m g = frames dts n g.
Proof.
  intros Hs HM Hout Hdiv. destruct (Hdiv M) as [n Hn].
  exists n.
  assert (Hc : state (frames dts n g) = win \/ state (frames dts n g) = lose).
  { destruct (state (frames dts n g)) eqn:Hsn.
    - exfalso. apply (frames_not_aim dts n g); congruence.
    - exfalso.
      assert (Hpos : (0 < n)%nat).
      { destruct n; [simpl in Hn; lra | lia]. }
      destruct (frames_tip dts n g Hsn) as [_ Hin].
      rewrite (Hout n Hn Hsn) in Hin. specialize (Hin Hpos). discriminate.
    - left; reflexivity.
    - right; reflexivity. }
  split; [exact Hc|].
  intros m Hle. apply frames_stable; [|exact Hle].
  destruct Hc as [-> | ->]; discriminate.
Qed.

(** From [aim], at an angle above -180 and at most 0 and with the drill
    moving at a positive speed, an attempt is concluded after finitely many
    frames whenever the time elapsed over the frames exceeds every bound. *)
Lemma unbounded_time_concludes (g : Game) (dts : nat -> R) :
  state g = aim ->
  0 < drill_speed_mps g ->
  ANGLE_MIN < angle g <= ANGLE_MAX ->
  (forall B, exists n, B < elapsed dts n) ->
  exists n,
    (state (frames dts n (startDrill g)) = win
     \/ state (frames dts n (startDrill g)) = lose)
    /\ forall m, (n <= m)%nat ->
                 frames dts m (startDrill g) = frames dts n (startDrill g).
Proof.
  intros Hs Hv [Hlo Hhi] Hdiv.
  assert (E : startDrill g
              = set_drill_path_length 0
                  (set_result_point None
                     (set_drill_tip (getOrigin g) (set_state drilling g))))
    by (unfold startDrill; rewrite Hs; reflexivity).
  assert (Hs0 : state (startDrill g) = drilling) by (rewrite E; reflexivity).
  assert (Ha0 : angle (startDrill g) = angle g) by (rewrite E; reflexivity).
  assert (Hv0 : drill_speed_mps (startDrill g) = drill_speed_mps g)
    by (rewrite E; reflexivity).
  assert (Ht0 : drill_tip (startDrill g) = (origin_x g, SURFACE_Y_WORLD))
    by (rewrite E; reflexivity).
  destruct (Rle_lt_or_eq_dec _ _ Hhi) as [Hlt | Heq].
  - (* heading downwards: the depth bound is reached *)
    pose proof (sin_heading_neg (angle g) (conj Hlo Hlt)) as Hsin.
    set (k := - sin (deg2rad (angle g)) * drill_speed_mps g).
    assert (Hk : 0 < k) by (unfold k; nra).
    apply (frames_conclude dts (startDrill g) (900 / k) Hs0).
    + apply Rlt_le, Rdiv_lt_0_compat; lra.
    + intros n Hn Hd. destruct (frames_tip dts n _ Hd) as [Ht _].
      apply out_of_bounds_true. left. rewrite Ht, Ha0, Hv0, Ht0. simpl.
      world.
      assert (H900 : k * (900 / k) = 900) by (field; lra).
      assert (Hke : 900 < k * elapsed dts n) by nra.
      unfold k in Hke. lra.
    + exact Hdiv.
  - (* heading right along the surface: the lateral bound is passed *)
    set (v := drill_speed_mps g) in *.
    apply (frames_conclude dts (startDrill g)
             (Rmax 0 ((1100 - origin_x g) / v)) Hs0).
    + apply Rmax_l.
    + intros n Hn Hd. destruct (frames_tip dts n _ Hd) as [Ht _].
      apply out_of_bounds_true. right. rewrite Ht, Ha0, Hv0, Ht0, Heq.
      rewrite heading_right. simpl. fold v.
      pose proof (Rmax_r 0 ((1100 - origin_x g) / v)) as Hm.
      assert (Hq : v * ((1100 - origin_x g) / v) = 1100 - origin_x g)
        by (field; lra).
      assert (Hve : 1100 - origin_x g < v * elapsed dts n) by nra.
      lra.
    + exact Hdiv.
Qed.


(** Frames of at least [d] each have taken at least [n * d] after [n]. *)
Lemma elapsed_at_least (dts : nat -> R) (d : R) (n : nat) :
  (forall k, d <= dts k) -> INR n * d <= elapsed dts n.
Proof.
  intros H. induction n as [|n IH].
  - simpl. lra.
  - change (elapsed dts (S n)) with (elapsed dts n + dts n).
    rewrite S_INR. pose proof (H n). lra.
Qed.

(** C4, amended.  In a game reached by play, at any angle but -180 and
    with frames of at least a millisecond each, an attempt started from
    [aim] is concluded after finitely many frames: some frame leaves the
    game in [win] or in [lose], and there it stays whatever frames
    follow. *)
Theorem drilling_concludes (g : Game) (dts : nat -> R) :
  reachable g ->
  state g = aim ->
  angle g <> -180 ->
  (forall n, 1 / 1000 <= dts n) ->
  exists n,
    (state (frames dts n (startDrill g)) = win
     \/ state (frames dts n (startDrill g)) = lose)
    /\ forall m, (n <= m)%nat ->
                 frames dts m (startDrill g) = frames dts n (startDrill g).
Proof.
  intros Hr Hs Ha Hd.
  destruct (round_inv_reachable g Hr) as (_ & _ & _ & _ & Hv & Hang & _).
  apply unbounded_time_concludes.
  - exact Hs.
  - rewrite Hv. lra.
  - unfold ANGLE_MIN in *. lra.
  - intros B. destruct (INR_unbounded (B * 1000)) as [n Hn]. exists n.
    pose proof (elapsed_at_least dts (1 / 1000) n Hd). lra.
Qed.

(** A fresh game fired straight down beside the target: the first frame
    of a second ends at depth 900, a loss. *)
Lemma one_second_miss :
  state (update 1 (startDrill (newGame zero_draws))) = lose.
Proof.
  assert (Hn : next_tip 1 (startDrill (newGame zero_draws)) = (100, -900)).
  { rewrite next_tip_default by reflexivity. simpl.
    world. f_equal; lra. }
  rewrite (update_exit 1 (startDrill (newGame zero_draws))).
  - reflexivity.
  - reflexivity.
  - apply vertical_miss.
    + rewrite Hn. simpl. world. lra.
    + simpl. world. lra.
  - apply out_of_bounds_true. left. rewrite Hn. simpl. world. lra.
Qed.

(** With frames of one second each that game is concluded, at the first
    frame. *)
Lemma drilling_concludes_witness :
  (exists n,
      (state (frames seconds n (startDrill (newGame zero_draws))) = win
       \/ state (frames seconds n (startDrill (newGame zero_draws))) = lose)
      /\ forall m, (n <= m)%nat ->
                   frames seconds m (startDrill (newGame zero_draws))
                   = frames seconds n (startDrill (newGame zero_draws)))
  /\ state (frames seconds 1 (startDrill (newGame zero_draws))) = lose.
Proof.
  split; [|exact one_second_miss].
  apply (drilling_concludes (newGame zero_draws) seconds).
  - apply reach_new, zero_draws_valid.
  - reflexivity.
  - simpl. world. lra.
  - intros n. unfold seconds. lra.
Defined.

(** ** Attempts that never conclude *)

Lemma shrinking_pos (n : nat) : 0 < shrinking n.
Proof. unfold shrinking. apply Rinv_0_lt_compat, pow_lt. lra. Qed.

Lemma elapsed_shrinking (n : nat) :
  elapsed shrinking n = 1 / 2 - / 2 ^ (n + 1).
Proof.
  induction n as [|n IH].
  - simpl. field.
  - change (elapsed shrinking (S n))
      with (elapsed shrinking n + / 2 ^ (n + 2)).
    rewrite IH.
    replace (S n + 1)%nat with (S (n + 1)) by lia.
    replace (n + 2)%nat with (S (n + 1)) by lia.
    change (2 ^ S (n + 1)) with (2 * 2 ^ (n + 1)).
    field. apply pow_nonzero. lra.
Qed.

Lemma elapsed_shrinking_bounds (n : nat) :
  0 <= elapsed shrinking n < 1 / 2.
Proof.
  rewrite elapsed_shrinking.
  assert (0 < / 2 ^ (n + 1)) by (apply Rinv_0_lt_compat, pow_lt; lra).
  assert (/ 2 ^ (n + 1) <= / 2).
  { replace (n + 1)%nat with (S n) by lia.
    change (2 ^ S n) with (2 * 2 ^ n).
    assert (1 <= 2 ^ n) by (apply pow_R1_Rle; lra).
    apply Rinv_le_contravar; lra. }
  lra.
Qed.

(** The smallest round: origin at 100, target of radius 5 at (250, -500). *)
Lemma smallest_round (a : R) :
  let g := startDrill (set_angle a (newGame zero_draws)) in
  state g = drilling /\ angle g = a /\ drill_speed_mps g = 900
  /\ drill_tip g = (100, 0)
  /\ target_x g = 250 /\ target_y g = -500 /\ target_radius g = 5.
Proof.
  cbv zeta. unfold startDrill, getOrigin. simpl.
  world.
  repeat split; try lra. f_equal; lra.
Qed.

(** Fired straight down with frames that halve from a quarter of a second,
    the tip approaches depth 450 and never reaches it; a target whose top
    is deeper than that is never met, nor is a bound. *)
Lemma shrinking_frames_drill_on (g : Game) (ox : R) :
  state g = drilling -> angle g = ANGLE_DEFAULT -> drill_speed_mps g = 900 ->
  drill_tip g = (ox, 0) -> ox <= 1100 ->
  0 <= target_radius g -> target_y g + target_radius g < -450 ->
  forall n, state (frames shrinking n g) = drilling.
Proof.
  intros Hs Ha Hv Ht Hox Hr0 Htop.
  apply frames_keep_drilling; [exact Hs|].
  intros n Hd. destruct (frames_tip shrinking n _ Hd) as [Htip _].
  destruct (frames_frame shrinking n g) as (Ha' & _ & _ & _ & Hv').
  rewrite Ha, Hv, Ht, cos_default, sin_default in Htip. simpl in Htip.
  assert (Hn : next_tip (shrinking n) (frames shrinking n g)
               = (ox, -900 * elapsed shrinking (S n))).
  { rewrite next_tip_default by (rewrite Ha'; exact Ha).
    rewrite Htip, Hv', Hv. simpl. f_equal; ring. }
  pose proof (elapsed_shrinking_bounds n) as Hb.
  pose proof (elapsed_shrinking_bounds (S n)) as Hb'.
  set (e := elapsed shrinking n) in *.
  set (e' := elapsed shrinking (S n)) in *.
  clearbody e e'.
  rewrite Hn, Htip. split.
  - destruct (lineCircleIntersection _ _ _ _) as [ipt|] eqn:Hi;
      [exfalso | reflexivity].
    pose proof (hit_on_circle _ _ _ _ _ Hi) as Hon.
    apply hit_inversion in Hi as (v & Hv01 & -> & _).
    unfold sqdist, point_at, seg_dx, seg_dy in Hon. simpl in Hon.
    assert (Hmix : (1 - v) * e + v * e' < 1 / 2).
    { assert (H1 : 0 <= (1 - v) * (1 / 2 - e))
        by (apply Rmult_le_pos; lra).
      assert (H2 : 0 <= v * (1 / 2 - e')) by (apply Rmult_le_pos; lra).
      destruct (Rle_dec v (1 / 2)) as [Hle | Hgt].
      - assert (H3 : 1 / 2 * (1 / 2 - e) <= (1 - v) * (1 / 2 - e))
          by (apply Rmult_le_compat_r; lra).
        lra.
      - assert (H3 : 1 / 2 * (1 / 2 - e') <= v * (1 / 2 - e'))
          by (apply Rmult_le_compat_r; lra).
        lra. }
    set (Y := 0 + -1 * (900 * e)
              + v * (-900 * e' - (0 + -1 * (900 * e)))) in *.
    assert (HY : -450 < Y) by (unfold Y; lra).
    assert (Hgap : target_radius g < Y - target_y g) by lra.
    assert (Hsq : target_radius g * target_radius g
                  < (Y - target_y g) * (Y - target_y g)) by nra.
    pose proof (Rle_0_sqr (ox + 0 * (900 * e)
                           + v * (ox - (ox + 0 * (900 * e)))
                           - target_x g)) as H0.
    unfold Rsqr in H0. lra.
  - apply out_of_bounds_false. simpl. world. lra.
Qed.

(** C4, as stated, fails.  With positive deltas that halve, 1/4 s, 1/8 s,
    ..., an attempt fired straight down drills for ever: the time elapsed
    stays below half a second and the tip above depth 450, where no target
    reaches and no bound is.  So it is in the round whose target lies
    right below the origin, in the line of fire, and in the round whose
    target lies to the side. *)
Lemma drilling_never_concludes :
  (forall n, 0 < shrinking n)
  /\ (let g := startDrill (newGame centred_draws) in
      ANGLE_MIN <= angle g <= ANGLE_MAX
      /\ state g = drilling
      /\ forall n, state (frames shrinking n g) = drilling)
  /\ (let g := startDrill (newGame zero_draws) in
      ANGLE_MIN <= angle g <= ANGLE_MAX
      /\ state g = drilling
      /\ forall n, state (frames shrinking n g) = drilling).
Proof.
  cbv zeta. split; [exact shrinking_pos|].
  split; (split; [simpl; world; lra|]); (split; [reflexivity|]).
  - apply (shrinking_frames_drill_on _ 500); try reflexivity.
    + simpl. unfold getOrigin. simpl. world. f_equal; lra.
    + lra.
    + simpl. world. lra.
    + simpl. world. lra.
  - apply (shrinking_frames_drill_on _ 100); try reflexivity.
    + simpl. unfold getOrigin. simpl. world. f_equal; lra.
    + lra.
    + simpl. world. lra.
    + simpl. world. lra.
Qed.

(** ** A round played to its end *)

(** In the smallest round, an attempt fired straight down for two seconds
    is lost at depth 1800, for a cost of 540000. *)
Lemma miss_cycle (g : Game) :
  state g = aim -> angle g = ANGLE_DEFAULT -> drill_speed_mps g = 900 ->
  origin_x g = 100 -> target_x g = 250 -> target_radius g = 5 ->
  let g' := update 2 (startDrill g) in
  state g' = lose
  /\ tries_remaining g' = (tries_remaining g - 1)%Z
  /\ accumulated_cost g' = accumulated_cost g + 540000
  /\ result_point g' = None
  /\ angle g' = angle g /\ drill_speed_mps g' = drill_speed_mps g
  /\ origin_x g' = origin_x g /\ target_x g' = target_x g
  /\ target_radius g' = target_radius g.
Proof.
  intros Hs Ha Hv Ho Hx Hr. cbv zeta.
  assert (E : startDrill g
              = set_drill_path_length 0
                  (set_result_point None
                     (set_drill_tip (getOrigin g) (set_state drilling g))))
    by (unfold startDrill; rewrite Hs; reflexivity).
  assert (Hn : next_tip 2 (startDrill g) = (100, -1800)).
  { rewrite next_tip_default by (rewrite E; exact Ha).
    rewrite E. simpl. rewrite Ho, Hv. world.
    f_equal; lra. }
  assert (Hi : lineCircleIntersection (drill_tip (startDrill g))
                 (next_tip 2 (startDrill g))
                 (target_x (startDrill g), target_y (startDrill g))
                 (target_radius (startDrill g)) = None).
  { apply vertical_miss; rewrite ?Hn, E; simpl; rewrite Ho, ?Hx, ?Hr; lra. }
  assert (Hout : out_of_bounds (next_tip 2 (startDrill g)) = true).
  { apply out_of_bounds_true. left. rewrite Hn. simpl.
    world. lra. }
  rewrite (update_exit 2 (startDrill g)); [|rewrite E; reflexivity| |];
    try assumption.
  rewrite Hn. simpl. rewrite E. simpl.
  repeat split.
  unfold seg_len. simpl. rewrite Ho. world.
  replace ((100 - 100) * (100 - 100) + (-1800 - 0) * (-1800 - 0))
    with (1800 * 1800) by ring.
  rewrite sqrt_square by lra. world. lra.
Qed.

Lemma drill_or_resume_aim (g : Game) :
  state g = aim -> drill_or_resume g = startDrill g.
Proof. intros Hs. unfold drill_or_resume. rewrite Hs. reflexivity. Qed.

(** Resuming after a miss with a try left changes the state tag only. *)
Lemma resume_with_tries (g : Game) :
  state g = lose -> (0 < tries_remaining g)%Z ->
  drill_or_resume g = set_state aim g.
Proof.
  intros Hs Ht. unfold drill_or_resume. rewrite Hs.
  destruct (Z.ltb_spec 0 (tries_remaining g)); [reflexivity | lia].
Qed.

Lemma exec_app (tr1 tr2 : trace) (g : Game) :
  exec (tr1 ++ tr2) g = exec tr2 (exec tr1 g).
Proof.
  revert g. induction tr1 as [|[e u] rest IH]; intros g; simpl;
    [reflexivity | apply IH].
Qed.

(** The drill button, a lost attempt of two seconds, and, with a try left
    after it, the drill button again: back in [aim] with one try less. *)
Lemma miss_and_resume (z : draws) (g : Game) :
  state g = aim -> angle g = ANGLE_DEFAULT -> drill_speed_mps g = 900 ->
  origin_x g = 100 -> target_x g = 250 -> target_radius g = 5 ->
  (1 < tries_remaining g)%Z ->
  let g' := exec [(DrillClick, z); (Tick 2, z); (DrillClick, z)] g in
  state g' = aim
  /\ tries_remaining g' = (tries_remaining g - 1)%Z
  /\ accumulated_cost g' = accumulated_cost g + 540000
  /\ angle g' = ANGLE_DEFAULT /\ drill_speed_mps g' = 900
  /\ origin_x g' = 100 /\ target_x g' = 250 /\ target_radius g' = 5.
Proof.
  intros Hs Ha Hv Ho Hx Hr Ht. cbv zeta. cbn [exec handle].
  rewrite (drill_or_resume_aim g Hs).
  destruct (miss_cycle g Hs Ha Hv Ho Hx Hr)
    as (S1 & T1 & C1 & _ & A1 & V1 & O1 & X1 & R1).
  remember (update 2 (startDrill g)) as g1 eqn:E1. clear E1.
  rewrite (resume_with_tries g1 S1) by lia. simpl.
  repeat split; congruence.
Qed.

(** Three misses in the smallest round, the drill button pressed after
    each. *)
Lemma three_misses_from (z : draws) (g0 : Game) :
  state g0 = aim -> angle g0 = ANGLE_DEFAULT -> drill_speed_mps g0 = 900 ->
  origin_x g0 = 100 -> target_x g0 = 250 -> target_radius g0 = 5 ->
  tries_remaining g0 = 3%Z ->
  let g := exec [(DrillClick, z); (Tick 2, z); (DrillClick, z);
                 (DrillClick, z); (Tick 2, z); (DrillClick, z);
                 (DrillClick, z); (Tick 2, z)] g0 in
  state g = lose
  /\ tries_remaining g = 0%Z
  /\ accumulated_cost g = accumulated_cost g0 + 3 * 540000.
Proof.
  intros S0 A0 V0 O0 X0 R0 T0. cbv zeta.
  change [(DrillClick, z); (Tick 2, z); (DrillClick, z);
          (DrillClick, z); (Tick 2, z); (DrillClick, z);
          (DrillClick, z); (Tick 2, z)]
    with ([(DrillClick, z); (Tick 2, z); (DrillClick, z)]
          ++ [(DrillClick, z); (Tick 2, z); (DrillClick, z)]
          ++ [(DrillClick, z); (Tick 2, z)]).
  rewrite !exec_app.
  destruct (miss_and_resume z g0 S0 A0 V0 O0 X0 R0 ltac:(lia))
    as (S1 & T1 & C1 & A1 & V1 & O1 & X1 & R1).
  remember (exec [(DrillClick, z); (Tick 2, z); (DrillClick, z)] g0)
    as g1 eqn:E1. clear E1.
  destruct (miss_and_resume z g1 S1 A1 V1 O1 X1 R1 ltac:(lia))
    as (S2 & T2 & C2 & A2 & V2 & O2 & X2 & R2).
  remember (exec [(DrillClick, z); (Tick 2, z); (DrillClick, z)] g1)
    as g2 eqn:E2. clear E2.
  cbn [exec handle]. rewrite (drill_or_resume_aim g2 S2).
  destruct (miss_cycle g2 S2 A2 V2 O2 X2 R2) as (S3 & T3 & C3 & _).
  split; [exact S3|]. split; [lia | lra].
Qed.

(** In a fresh game: no try is left, the three attempts are all charged,
    and the drill button no longer leads back to [aim]. *)
Lemma three_misses :
  let z := zero_draws in
  let g := exec [(DrillClick, z); (Tick 2, z); (DrillClick, z);
                 (DrillClick, z); (Tick 2, z); (DrillClick, z);
                 (DrillClick, z); (Tick 2, z)] (newGame z) in
  reachable g
  /\ state g = lose
  /\ tries_remaining g = 0%Z
  /\ accumulated_cost g = 3 * 540000
  /\ handle DrillClick z g = g.
Proof.
  cbv zeta.
  destruct (smallest_round ANGLE_DEFAULT) as (_ & _ & _ & _ & Hx & _ & Hr).
  assert (Ho : origin_x (newGame zero_draws) = 100).
  { simpl. world. lra. }
  destruct (three_misses_from zero_draws (newGame zero_draws)
              eq_refl eq_refl eq_refl Ho Hx Hr eq_refl) as (Hs & Ht & Hc).
  split.
  { apply exec_reachable; [apply reach_new, zero_draws_valid|].
    repeat (apply Forall_cons; [apply zero_draws_valid|]). apply Forall_nil. }
  split; [exact Hs|]. split; [exact Ht|]. split.
  - rewrite Hc. simpl. lra.
  - unfold handle.
    apply drill_or_resume_spent; [exact Hs | rewrite Ht; apply Z.le_refl].
Qed.

(** There, out of tries, the drill button and the space key do nothing. *)
Lemma invalid_commands_witness :
  let z := zero_draws in
  let g := exec [(DrillClick, z); (Tick 2, z); (DrillClick, z);
                 (DrillClick, z); (Tick 2, z); (DrillClick, z);
                 (DrillClick, z); (Tick 2, z)] (newGame z) in
  state g = lose
  /\ (tries_remaining g <= 0)%Z
  /\ handle DrillClick z g = g
  /\ (forall help, keydown " " help z g = g)
  /\ forall e, handle e z g = g
               \/ (resets e g = true /\ handle e z g = resetRound z g).
Proof.
  cbv zeta. destruct three_misses as (_ & Hs & Ht & _).
  cbv zeta in Hs, Ht.
  assert (Ht' : (tries_remaining
                   (exec [(DrillClick, zero_draws); (Tick 2, zero_draws);
                          (DrillClick, zero_draws); (DrillClick, zero_draws);
                          (Tick 2, zero_draws); (DrillClick, zero_draws);
                          (DrillClick, zero_draws); (Tick 2, zero_draws)]
                         (newGame zero_draws)) <= 0)%Z)
    by (rewrite Ht; apply Z.le_refl).
  split; [exact Hs|]. split; [exact Ht'|].
  destruct (invalid_commands_are_noops
              (exec [(DrillClick, zero_draws); (Tick 2, zero_draws);
                     (DrillClick, zero_draws); (DrillClick, zero_draws);
                     (Tick 2, zero_draws); (DrillClick, zero_draws);
                     (DrillClick, zero_draws); (Tick 2, zero_draws)]
                    (newGame zero_draws)) zero_draws)
    as (_ & _ & _ & _ & Hspent).
  destruct (Hspent Hs Ht') as (H1 & H2 & _ & H4).
  split; [exact H1|]. split; [exact H2 | exact H4].
Defined.

(** ** The two roots of a crossing *)

Lemma roots_value (p0 p1 c : point) (r s : R) :
  quad_a p0 p1 <> 0 -> 0 <= s -> s * s = quad_disc p0 p1 c r ->
  root_t1 p0 p1 c r = Fin ((- quad_b p0 p1 c - s) / (2 * quad_a p0 p1))
  /\ root_t2 p0 p1 c r = Fin ((- quad_b p0 p1 c + s) / (2 * quad_a p0 p1)).
Proof.
  intros Ha Hs Hd. unfold root_t1, root_t2, jsdiv.
  destruct (Req_dec_T (2 * quad_a p0 p1) 0) as [Hz|_]; [lra|].
  rewrite <- Hd, sqrt_square by assumption. split; reflexivity.
Qed.

Lemma in_unit_false (v : R) :
  in_unit (Fin v) = false <-> v < 0 \/ 1 < v.
Proof.
  simpl. destruct (Rle_dec 0 v), (Rle_dec v 1); simpl; split; intros H;
    try reflexivity; try discriminate; lra.
Qed.

(** The routine on a segment with two ends, from a square root [s] of the
    discriminant: the first of the two parameters that is in [0,1]. *)
Lemma intersection_by_roots (p0 p1 c : point) (r s : R) :
  0 < quad_a p0 p1 -> 0 <= s -> s * s = quad_disc p0 p1 c r ->
  let v1 := (- quad_b p0 p1 c - s) / (2 * quad_a p0 p1) in
  let v2 := (- quad_b p0 p1 c + s) / (2 * quad_a p0 p1) in
  lineCircleIntersection p0 p1 c r
  = if in_unit (Fin v1) then Some (point_at p0 p1 (Fin v1))
    else if in_unit (Fin v2) then Some (point_at p0 p1 (Fin v2))
    else None.
Proof.
  intros Ha Hs Hd. cbv zeta.
  destruct (roots_value p0 p1 c r s ltac:(lra) Hs Hd) as [E1 E2].
  unfold lineCircleIntersection.
  destruct (Rlt_dec (quad_disc p0 p1 c r) 0) as [Hn|_]; [nra|].
  cbn [first_root]. rewrite E1, E2. reflexivity.
Qed.





(** ** An attempt in two frames *)

Lemma euclidean_vertical (x y1 y2 : R) :
  y2 <= y1 -> euclidean (x, y1) (x, y2) = y1 - y2.
Proof.
  intros H. unfold euclidean. simpl.
  replace (Rsqr (x - x) + Rsqr (y1 - y2)) with ((y1 - y2) * (y1 - y2))
    by (unfold Rsqr; ring).
  apply sqrt_square. lra.
Qed.

(** Straight down with the target right below, at depth 500: a frame of a
    quarter of a second stops at depth 225, short of the target, and the
    next frame, of half a second, steps to depth 675 and is stopped where
    it enters the target, at depth 495. *)
Lemma above_target_two_frames (g : Game) :
  state g = drilling -> angle g = ANGLE_DEFAULT -> drill_speed_mps g = 900 ->
  drill_tip g = (500, 0) ->
  target_x g = 500 -> target_y g = -500 -> target_radius g = 5 ->
  state (update (1 / 4) g) = drilling
  /\ drill_tip (update (1 / 4) g) = (500, -225)
  /\ state (update (1 / 2) (update (1 / 4) g)) = win
  /\ drill_tip (update (1 / 2) (update (1 / 4) g)) = (500, -495).
Proof.
  intros Hs Ha Hv Ht Hx Hy Hr.
  assert (Hn : next_tip (1 / 4) g = (500, -225)).
  { rewrite next_tip_default by exact Ha. rewrite Ht, Hv. simpl.
    f_equal; lra. }
  assert (Hi : lineCircleIntersection (drill_tip g) (next_tip (1 / 4) g)
                 (target_x g, target_y g) (target_radius g) = None).
  { rewrite Hn, Ht, Hx, Hy, Hr.
    rewrite (intersection_by_roots (500, 0) (500, -225) (500, -500) 5 2250).
    - assert (U1 : in_unit (Fin ((- quad_b (500, 0) (500, -225) (500, -500)
                                   - 2250)
                                  / (2 * quad_a (500, 0) (500, -225))))
                   = false).
      { apply in_unit_false. right.
        unfold quad_a, quad_b, seg_dx, seg_dy, seg_fx, seg_fy. simpl. lra. }
      assert (U2 : in_unit (Fin ((- quad_b (500, 0) (500, -225) (500, -500)
                                   + 2250)
                                  / (2 * quad_a (500, 0) (500, -225))))
                   = false).
      { apply in_unit_false. right.
        unfold quad_a, quad_b, seg_dx, seg_dy, seg_fx, seg_fy. simpl. lra. }
      rewrite U1, U2. reflexivity.
    - unfold quad_a, seg_dx, seg_dy. simpl. lra.
    - lra.
    - unfold quad_disc, quad_a, quad_b, quad_c, seg_dx, seg_dy, seg_fx,
        seg_fy. simpl. lra. }
  assert (Ho : out_of_bounds (next_tip (1 / 4) g) = false).
  { apply out_of_bounds_false. rewrite Hn. simpl. world. lra. }
  destruct (update_keeps_drilling (1 / 4) g Hs Hi Ho) as [Hs1 Ht1].
  rewrite Hn in Ht1.
  destruct (update_frame (1 / 4) g) as (Ha1 & _ & Hx1 & Hy1 & Hr1 & Hv1).
  remember (update (1 / 4) g) as g1 eqn:E1. clear E1.
  split; [exact Hs1|]. split; [exact Ht1|].
  assert (Hn1 : next_tip (1 / 2) g1 = (500, -675)).
  { rewrite next_tip_default by (rewrite Ha1; exact Ha).
    rewrite Ht1, Hv1, Hv. simpl. f_equal; lra. }
  assert (Hi1 : lineCircleIntersection (drill_tip g1) (next_tip (1 / 2) g1)
                  (target_x g1, target_y g1) (target_radius g1)
                = Some (500, -495)).
  { rewrite Hn1, Ht1, Hx1, Hy1, Hr1, Hx, Hy, Hr.
    rewrite (hit_at_t1 (500, -225) (500, -675) (500, -500) 5 4500 (3 / 5)).
    - unfold seg_dx, seg_dy. simpl. f_equal. f_equal; lra.
    - unfold quad_a, seg_dx, seg_dy. simpl. lra.
    - lra.
    - unfold quad_disc, quad_a, quad_b, quad_c, seg_dx, seg_dy, seg_fx,
        seg_fy. simpl. lra.
    - unfold quad_a, quad_b, seg_dx, seg_dy, seg_fx, seg_fy. simpl. lra.
    - lra. }
  rewrite (update_hit (1 / 2) g1 (500, -495) Hs1 Hi1). split; reflexivity.
Qed.

(** In the round with the origin at 500 and the target right below it, an
    attempt fired straight down in frames of 1/4 s and 1/2 s: the tip is at
    depth 225 and then at the intersection point at depth 495, the path
    length is 225 and then 495, not the 675 of the two whole steps. *)
Lemma path_length_witness :
  let g0 := startDrill (newGame centred_draws) in
  state (newGame centred_draws) = aim
  /\ tip_trace [1 / 4; 1 / 2] g0 = [(500, -225); (500, -495)]
  /\ state (run_updates [1 / 4; 1 / 2] g0) = win
  /\ drill_path_length (run_updates [1 / 4] g0) = 225
  /\ drill_path_length (run_updates [1 / 4; 1 / 2] g0) = 495.
Proof.
  cbv zeta.
  assert (Hs : state (newGame centred_draws) = aim) by reflexivity.
  assert (Hox : origin_x (newGame centred_draws) = 500)
    by (simpl; world; lra).
  assert (Hx : target_x (newGame centred_draws) = 500)
    by (simpl; world; lra).
  assert (Hy : target_y (newGame centred_draws) = -500)
    by (simpl; world; lra).
  assert (Hr : target_radius (newGame centred_draws) = 5)
    by (simpl; world; lra).
  assert (Ha : angle (newGame centred_draws) = ANGLE_DEFAULT) by reflexivity.
  assert (Hv : drill_speed_mps (newGame centred_draws) = 900)
    by reflexivity.
  split; [exact Hs|].
  remember (newGame centred_draws) as g eqn:E. clear E.
  assert (E : startDrill g
              = set_drill_path_length 0
                  (set_result_point None
                     (set_drill_tip (getOrigin g) (set_state drilling g))))
    by (unfold startDrill; rewrite Hs; reflexivity).
  destruct (above_target_two_frames (startDrill g))
    as (Hs1 & Ht1 & Hs2 & Ht2);
    try (rewrite E; simpl; assumption);
    try (rewrite E; reflexivity).
  { rewrite E. simpl. unfold getOrigin. rewrite Hox. reflexivity. }
  assert (Htr : tip_trace [1 / 4; 1 / 2] (startDrill g)
                = [(500, -225); (500, -495)]).
  { cbn [tip_trace]. rewrite Ht1, Ht2. reflexivity. }
  assert (Htr1 : tip_trace [1 / 4] (startDrill g) = [(500, -225)]).
  { cbn [tip_trace]. rewrite Ht1. reflexivity. }
  split; [exact Htr|]. split; [exact Hs2|].
  destruct (path_length_is_polyline g [1 / 4] Hs) as (_ & Hp1 & _).
  destruct (path_length_is_polyline g [1 / 4; 1 / 2] Hs) as (_ & Hp2 & _).
  rewrite Htr1, Hox in Hp1. rewrite Htr, Hox in Hp2.
  cbn [polyline_length] in Hp1, Hp2.
  rewrite euclidean_vertical in Hp1 by lra.
  rewrite !euclidean_vertical in Hp2 by lra.
  split; lra.
Defined.

(** * Further properties *)

(** ** The intersection routine, soundness and completeness *)

Lemma sqdist_point_at (p0 p1 c : point) (r v : R) :
  sqdist c (point_at p0 p1 (Fin v))
  = quad_a p0 p1 * v * v + quad_b p0 p1 c * v + quad_c p0 c r + r * r.
Proof. unfold sqdist. apply (quad_is_distance p0 p1 c r v). Qed.

Lemma quad_c_start (p0 c : point) (r : R) :
  quad_c p0 c r = sqdist c p0 - r * r.
Proof. reflexivity. Qed.

Lemma point_at_end (p0 p1 : point) : point_at p0 p1 (Fin 1) = p1.
Proof.
  unfold point_at, seg_dx, seg_dy. destruct p0, p1. simpl. f_equal; ring.
Qed.

Lemma point_at_start (p0 p1 : point) : point_at p0 p1 (Fin 0) = p0.
Proof.
  unfold point_at, seg_dx, seg_dy. destruct p0, p1. simpl. f_equal; ring.
Qed.

(** X1. A hit that [lineCircleIntersection] reports is a point of the
    segment, at a parameter of [0,1], and lies on the circle; and the
    segment then has two different ends. *)
Theorem hit_is_on_segment_and_circle (p0 p1 c : point) (r : R) (ipt : point) :
  lineCircleIntersection p0 p1 c r = Some ipt ->
  p0 <> p1
  /\ sqdist c ipt = r * r
  /\ exists v, 0 <= v <= 1 /\ ipt = point_at p0 p1 (Fin v).
Proof.
  intros H. pose proof (hit_on_circle _ _ _ _ _ H) as Hc.
  apply hit_inversion in H as (v & Hv & -> & Ha & _).
  split; [|split; [exact Hc | exists v; split; [exact Hv | reflexivity]]].
  intros ->. apply Ha, quad_a_same.
Qed.

Lemma hit_is_on_segment_and_circle_witness :
  lineCircleIntersection (500, 0) (500, -900) (500, -500) 5
  = Some (500, -495)
  /\ sqdist (500, -500) (500, -495) = 5 * 5.
Proof.
  assert (H : lineCircleIntersection (500, 0) (500, -900) (500, -500) 5
              = Some (500, -495)).
  { rewrite (hit_at_t1 (500, 0) (500, -900) (500, -500) 5 9000 (11 / 20)).
    - unfold seg_dx, seg_dy. simpl. f_equal. f_equal; lra.
    - unfold quad_a, seg_dx, seg_dy. simpl. lra.
    - lra.
    - unfold quad_disc, quad_a, quad_b, quad_c, seg_dx, seg_dy, seg_fx,
        seg_fy. simpl. lra.
    - unfold quad_a, quad_b, seg_dx, seg_dy, seg_fx, seg_fy. simpl. lra.
    - lra. }
  split; [exact H|].
  apply (hit_is_on_segment_and_circle _ _ _ _ _ H).
Defined.

(** The first contact of a segment that starts outside the circle and
    has a point in it. *)
Lemma first_contact (p0 p1 c : point) (r t : R) :
  r * r < sqdist c p0 -> 0 <= t <= 1 ->
  sqdist c (point_at p0 p1 (Fin t)) <= r * r ->
  exists v, 0 < v <= t
            /\ lineCircleIntersection p0 p1 c r
               = Some (point_at p0 p1 (Fin v))
            /\ forall s, 0 <= s < v ->
                         r * r < sqdist c (point_at p0 p1 (Fin s)).
Proof.
  intros Hout [Ht0 Ht1] Hin.
  rewrite (sqdist_point_at p0 p1 c r t) in Hin.
  pose proof (quad_c_start p0 c r) as Hc.
  pose proof (quad_a_nonneg p0 p1) as Ha0.
  set (a := quad_a p0 p1) in *. set (b := quad_b p0 p1 c) in *.
  set (k := quad_c p0 c r) in *.
  assert (Hk : 0 < k) by lra.
  assert (Ha : 0 < a).
  { destruct (Req_dec_T a 0) as [Hz|Hz]; [|lra]. exfalso.
    destruct (quad_a_zero p0 p1 Hz) as [Hx Hy].
    assert (b = 0) by (unfold b, quad_b; rewrite Hx, Hy; ring).
    rewrite Hz in Hin. nra. }
  assert (Htpos : 0 < t) by (destruct (Req_dec_T t 0); [subst; nra | lra]).
  assert (Hb : b < 0) by nra.
  assert (Hd : quad_disc p0 p1 c r = b * b - 4 * a * k) by reflexivity.
  assert (Hdt : (2 * a * t + b) * (2 * a * t + b) <= b * b - 4 * a * k)
    by nra.
  assert (Hd0 : 0 <= b * b - 4 * a * k).
  { pose proof (Rle_0_sqr (2 * a * t + b)) as Hsq. unfold Rsqr in Hsq. lra. }
  set (s := sqrt (b * b - 4 * a * k)).
  assert (Hs0 : 0 <= s) by apply sqrt_pos.
  assert (Hss : s * s = b * b - 4 * a * k) by (apply sqrt_sqrt; exact Hd0).
  assert (Hs1 : s < - b) by nra.
  assert (Hs2 : - (2 * a * t + b) <= s) by nra.
  set (v := (- b - s) / (2 * a)).
  assert (Hv : 2 * a * v = - b - s) by (unfold v; field; lra).
  assert (Hv0 : 0 < v) by nra.
  assert (Hvt : v <= t) by nra.
  exists v. split; [lra|]. split.
  - apply (hit_at_t1 p0 p1 c r s v).
    + fold a. lra.
    + exact Hs0.
    + rewrite Hd. exact Hss.
    + reflexivity.
    + lra.
  - intros u [Hu0 Huv].
    rewrite (sqdist_point_at p0 p1 c r u). fold a b k.
    assert (Hlt : 2 * a * u + b < - s) by nra.
    assert (Hsq : s * s < (2 * a * u + b) * (2 * a * u + b)) by nra.
    nra.
Qed.

(** X2. No tunnelling, however long the step.  With coordinates within
    10000 of zero and a radius between 1 and 100, a segment that starts at
    least a millimetre outside the circle and has a point at least a
    millimetre inside it is reported as a hit: at a point of the circle
    before that point of the segment, every earlier point of the segment
    being outside the circle.  The margins keep the statement clear of the
    segments that graze the circle or end on it, where the rounding of the
    source's arithmetic decides. *)
Theorem no_tunnelling (p0 p1 c : point) (r t : R) :
  Rabs (fst p0) <= 10000 -> Rabs (snd p0) <= 10000 ->
  Rabs (fst p1) <= 10000 -> Rabs (snd p1) <= 10000 ->
  Rabs (fst c) <= 10000 -> Rabs (snd c) <= 10000 ->
  1 <= r <= 100 ->
  (r + 1 / 1000) * (r + 1 / 1000) <= sqdist c p0 ->
  0 <= t <= 1 ->
  sqdist c (point_at p0 p1 (Fin t)) <= (r - 1 / 1000) * (r - 1 / 1000) ->
  exists v, 0 < v < t
            /\ lineCircleIntersection p0 p1 c r
               = Some (point_at p0 p1 (Fin v))
            /\ sqdist c (point_at p0 p1 (Fin v)) = r * r
            /\ forall s, 0 <= s < v ->
                         r * r < sqdist c (point_at p0 p1 (Fin s)).
Proof.
  intros _ _ _ _ _ _ Hr Hout Ht Hin.
  assert (Hout' : r * r < sqdist c p0) by nra.
  assert (Hin' : sqdist c (point_at p0 p1 (Fin t)) < r * r) by nra.
  destruct (first_contact p0 p1 c r t Hout' Ht (Rlt_le _ _ Hin'))
    as (v & Hv & Hh & Hfirst).
  pose proof (hit_on_circle _ _ _ _ _ Hh) as Hon.
  exists v. split; [|split; [exact Hh | split; [exact Hon | exact Hfirst]]].
  split; [lra|].
  destruct (Req_dec_T v t) as [E | N]; [|lra].
  exfalso. rewrite E in Hon. lra.
Qed.

(** A step of 900 from the surface through the smallest target right
    below: the end of the step is far beyond the target, and the hit is
    reported, before the centre of the target. *)
Lemma no_tunnelling_witness :
  exists v, 0 < v < 5 / 9
            /\ lineCircleIntersection (500, 0) (500, -900) (500, -500) 5
               = Some (point_at (500, 0) (500, -900) (Fin v))
            /\ sqdist (500, -500) (point_at (500, 0) (500, -900) (Fin v))
               = 5 * 5.
Proof.
  destruct (no_tunnelling (500, 0) (500, -900) (500, -500) 5 (5 / 9))
    as (v & Hv & Hh & Hon & _);
    try (simpl; rewrite Rabs_pos_eq; lra);
    try (simpl; rewrite <- Rabs_Ropp, Rabs_pos_eq; lra);
    try lra.
  - unfold sqdist. simpl. lra.
  - unfold sqdist, point_at, seg_dx, seg_dy. simpl. lra.
  - exists v. split; [exact Hv | split; assumption].
Defined.

(** ** Invariants, in general *)

Section Preservation.
Variable P : Game -> Prop.
Hypothesis P_update :
  forall dt g, reachable g -> P g -> state g = drilling -> P (update dt g).
Hypothesis P_startDrill :
  forall g, reachable g -> P g -> state g = aim -> P (startDrill g).
Hypothesis P_resume :
  forall g, reachable g -> P g -> state g = lose ->
            (0 < tries_remaining g)%Z -> P (set_state aim g).
Hypothesis P_resetRound :
  forall u g, valid_draws u -> reachable g -> P g -> state g <> drilling ->
              P (resetRound u g).
Hypothesis P_left :
  forall g, reachable g -> P g -> state g = aim ->
            P (set_angle (clamp (angle g - 1) ANGLE_MIN ANGLE_MAX) g).
Hypothesis P_right :
  forall g, reachable g -> P g -> state g = aim ->
            P (set_angle (clamp (angle g + 1) ANGLE_MIN ANGLE_MAX) g).

Lemma drill_or_resume_preserves (g : Game) :
  reachable g -> P g -> P (drill_or_resume g).
Proof.
  intros Hr Hp. unfold drill_or_resume. destruct (state g) eqn:Hs;
    try exact Hp.
  - apply P_startDrill; assumption.
  - destruct (Z.ltb_spec 0 (tries_remaining g)); [|exact Hp].
    apply P_resume; assumption.
Qed.

Lemma new_round_preserves (u : draws) (g : Game) :
  valid_draws u -> reachable g -> P g -> P (new_round u g).
Proof.
  intros Hu Hr Hp. unfold new_round. destruct (state g) eqn:Hs;
    try (apply P_resetRound; [assumption | assumption | assumption |];
         rewrite Hs; discriminate).
  exact Hp.
Qed.

Lemma keydown_arrows_reachable (key : string) (g : Game) :
  reachable g -> reachable (keydown_arrows key g).
Proof.
  intros Hr.
  destruct (String.eqb_spec key "Escape") as [-> | Hne].
  - unfold keydown_arrows. destruct (state g); exact Hr.
  - destruct (String.eqb_spec key " ") as [-> | Hsp];
      [unfold keydown_arrows; destruct (state g); exact Hr|].
    destruct (String.eqb_spec key "n") as [-> | Hn];
      [unfold keydown_arrows; destruct (state g); exact Hr|].
    destruct (String.eqb_spec key "N") as [-> | HN];
      [unfold keydown_arrows; destruct (state g); exact Hr|].
    assert (E : handle (KeyDown key false) zero_draws g = keydown_arrows key g).
    { simpl. unfold keydown, keydown_commands.
      apply String.eqb_neq in Hne, Hsp, Hn, HN.
      rewrite Hne, Hsp, Hn, HN. reflexivity. }
    rewrite <- E. apply reach_handle; [exact Hr | apply zero_draws_valid].
Qed.

Lemma keydown_arrows_preserves (key : string) (g : Game) :
  reachable g -> P g -> P (keydown_arrows key g).
Proof.
  intros Hr Hp. unfold keydown_arrows. destruct (state g) eqn:Hs;
    try exact Hp.
  destruct (String.eqb key "ArrowLeft"); [apply P_left; assumption|].
  destruct (String.eqb key "ArrowRight"); [apply P_right; assumption|].
  exact Hp.
Qed.

Lemma keydown_commands_preserves (key : string) (u : draws) (g : Game) :
  valid_draws u -> reachable g -> P g -> P (keydown_commands key u g).
Proof.
  intros Hu Hr Hp. unfold keydown_commands.
  destruct (String.eqb key " "); [apply drill_or_resume_preserves; assumption|].
  destruct (String.eqb key "n" || String.eqb key "N");
    [apply new_round_preserves; assumption | exact Hp].
Qed.

Lemma handle_preserves (e : event) (u : draws) (g : Game) :
  valid_draws u -> reachable g -> P g -> P (handle e u g).
Proof.
  intros Hu Hr Hp. destruct e as [dt | | | key help]; simpl.
  - destruct (state g) eqn:Hs;
      try (rewrite update_not_drilling by congruence; exact Hp).
    apply P_update; assumption.
  - apply drill_or_resume_preserves; assumption.
  - apply new_round_preserves; assumption.
  - unfold keydown. destruct (String.eqb key "Escape").
    + destruct help; [exact Hp|].
      apply keydown_commands_preserves; assumption.
    + apply keydown_commands_preserves;
        [assumption | apply keydown_arrows_reachable; assumption |].
      apply keydown_arrows_preserves; assumption.
Qed.

Lemma reachable_preserves :
  (forall u, valid_draws u -> P (newGame u)) ->
  forall g, reachable g -> P g.
Proof.
  intros Hnew g Hr. induction Hr as [u Hu | e u g Hg IH Hu].
  - apply Hnew, Hu.
  - apply handle_preserves; assumption.
Qed.
End Preservation.

(** ** A step through the target *)

(** X3. A frame that carries the drill through the target wins, however
    long the frame.  In a reachable drilling state with the tip at least a
    millimetre outside the target, and not left of x = -1000, if the step
    of a frame of at most 9 seconds has a point at least a millimetre
    inside the target, the frame ends in [win]: the tip and the result
    point are a point of the target circle that the step reaches before
    that point.  The margins keep the statement clear of the steps that
    graze the target or end on its edge, where the rounding of the
    source's arithmetic decides. *)
Theorem step_through_target_wins (g : Game) (dt t : R) :
  reachable g -> state g = drilling ->
  -1000 <= fst (drill_tip g) -> 0 <= dt <= 9 ->
  let c := (target_x g, target_y g) in
  let r := target_radius g in
  (r + 1 / 1000) * (r + 1 / 1000) <= sqdist c (drill_tip g) ->
  0 <= t <= 1 ->
  sqdist c (point_at (drill_tip g) (next_tip dt g) (Fin t))
  <= (r - 1 / 1000) * (r - 1 / 1000) ->
  let g' := update dt g in
  state g' = win
  /\ result_point g' = Some (drill_tip g')
  /\ sqdist c (drill_tip g') = r * r
  /\ exists v, 0 < v < t
               /\ drill_tip g'
                  = point_at (drill_tip g) (next_tip dt g) (Fin v).
Proof.
  intros Hr Hs _ _. cbv zeta. intros Hout Ht Hin.
  destruct (round_inv_reachable g Hr) as (_ & _ & _ & Hrad & _).
  unfold TARGET_RADIUS_MIN, TARGET_RADIUS_MAX in Hrad.
  assert (Hout' : target_radius g * target_radius g
                  < sqdist (target_x g, target_y g) (drill_tip g)) by nra.
  assert (Hin' : sqdist (target_x g, target_y g)
                   (point_at (drill_tip g) (next_tip dt g) (Fin t))
                 < target_radius g * target_radius g) by nra.
  destruct (first_contact _ _ _ _ t Hout' Ht (Rlt_le _ _ Hin'))
    as (v & Hv & Hh & _).
  pose proof (hit_on_circle _ _ _ _ _ Hh) as Hon.
  rewrite (update_hit dt g _ Hs Hh). simpl.
  split; [reflexivity|]. split; [reflexivity|]. split; [exact Hon|].
  exists v. split; [|reflexivity]. split; [lra|].
  destruct (Req_dec_T v t) as [E | N]; [|lra].
  exfalso. rewrite E in Hon. lra.
Qed.

(** Fired straight down at the target right below, in one frame of a
    second: the step ends at depth 900, far beyond the target, and the
    attempt is won on the target's circle. *)
Lemma step_through_target_wins_witness :
  let g := startDrill (newGame centred_draws) in
  reachable g /\ state g = drilling
  /\ next_tip 1 g = (500, -900)
  /\ state (update 1 g) = win
  /\ sqdist (500, -500) (drill_tip (update 1 g)) = 5 * 5.
Proof.
  cbv zeta.
  assert (Hr : reachable (startDrill (newGame centred_draws))).
  { apply (reach_handle DrillClick centred_draws (newGame centred_draws));
      [apply reach_new|]; apply centred_draws_valid. }
  assert (Hs : state (startDrill (newGame centred_draws)) = drilling)
    by reflexivity.
  assert (Ht : drill_tip (startDrill (newGame centred_draws)) = (500, 0)).
  { simpl. unfold getOrigin. simpl. world. f_equal; lra. }
  assert (Hn : next_tip 1 (startDrill (newGame centred_draws))
               = (500, -900)).
  { rewrite next_tip_default by reflexivity. rewrite Ht. simpl.
    f_equal; lra. }
  assert (Hx : target_x (startDrill (newGame centred_draws)) = 500)
    by (simpl; world; lra).
  assert (Hy : target_y (startDrill (newGame centred_draws)) = -500)
    by (simpl; world; lra).
  assert (Hrad : target_radius (startDrill (newGame centred_draws)) = 5)
    by (simpl; world; lra).
  split; [exact Hr|]. split; [exact Hs|]. split; [exact Hn|].
  remember (startDrill (newGame centred_draws)) as g eqn:E. clear E.
  destruct (step_through_target_wins g 1 (5 / 9) Hr Hs) as (Hw & _ & Hon & _).
  - rewrite Ht. simpl. lra.
  - lra.
  - rewrite Ht, Hx, Hy, Hrad. unfold sqdist. simpl. lra.
  - lra.
  - rewrite Hn, Ht, Hx, Hy, Hrad.
    unfold sqdist, point_at, seg_dx, seg_dy. simpl. lra.
  - split; [exact Hw|]. rewrite Hx, Hy, Hrad in Hon. exact Hon.
Defined.

(** ** The angle *)

Lemma clamp_cases (v a b : R) :
  a <= b ->
  (v < a /\ clamp v a b = a) \/ (a <= v <= b /\ clamp v a b = v)
  \/ (b < v /\ clamp v a b = b).
Proof.
  intros Hab. unfold clamp.
  destruct (Rlt_dec v a) as [Hlo|Hlo].
  - left. split; [exact Hlo|].
    rewrite Rmin_right by lra. apply Rmax_left. lra.
  - destruct (Rle_dec v b) as [Hhi|Hhi].
    + right; left. split; [lra|].
      rewrite Rmin_right by lra. apply Rmax_right. lra.
    + right; right. split; [lra|].
      rewrite Rmin_left by lra. apply Rmax_right. lra.
Qed.

Lemma whole_angle_step (g : Game) (d : Z) :
  whole_angle g ->
  whole_angle (set_angle (clamp (angle g + IZR d) ANGLE_MIN ANGLE_MAX) g).
Proof.
  intros [k Hk]. unfold whole_angle. simpl.
  destruct (clamp_cases (angle g + IZR d) ANGLE_MIN ANGLE_MAX)
    as [[_ ->] | [[_ ->] | [_ ->]]].
  - world. lra.
  - exists (-180)%Z. reflexivity.
  - exists (k + d)%Z. rewrite Hk, plus_IZR. reflexivity.
  - exists 0%Z. reflexivity.
Qed.

Lemma whole_angle_reachable (g : Game) : reachable g -> whole_angle g.
Proof.
  apply reachable_preserves.
  - intros dt g0 _ [k Hk] _. exists k.
    destruct (update_frame dt g0) as (-> & _). exact Hk.
  - intros g0 _ [k Hk] Hs. exists k. unfold startDrill. rewrite Hs. exact Hk.
  - intros g0 _ Hp _ _. exact Hp.
  - intros u g0 _ _ Hp _. exact Hp.
  - intros g0 _ Hp _.
    replace (angle g0 - 1) with (angle g0 + IZR (-1)) by (simpl; ring).
    apply whole_angle_step, Hp.
  - intros g0 _ Hp _.
    replace (angle g0 + 1) with (angle g0 + IZR 1) by (simpl; ring).
    apply whole_angle_step, Hp.
  - intros u _. exists (-90)%Z. reflexivity.
Qed.

(** X4. In every reachable state the angle is a whole number of degrees
    between -180 and 0: it starts at -90 and only the arrow keys change it,
    by one degree and never past a bound. *)
Theorem angle_is_whole_degrees (g : Game) :
  reachable g ->
  exists k : Z, angle g = IZR k /\ (-180 <= k <= 0)%Z.
Proof.
  intros Hr. destruct (whole_angle_reachable g Hr) as [k Hk].
  destruct (round_inv_reachable g Hr) as (_ & _ & _ & _ & _ & Ha & _).
  exists k. split; [exact Hk|]. rewrite Hk in Ha. world.
  split; apply le_IZR; lra.
Qed.

Lemma angle_is_whole_degrees_witness :
  exists k : Z,
    angle (handle (KeyDown "ArrowRight" false) zero_draws
             (newGame zero_draws)) = IZR k
    /\ (-180 <= k <= 0)%Z.
Proof.
  apply angle_is_whole_degrees.
  apply reach_handle; [|apply zero_draws_valid].
  apply reach_new, zero_draws_valid.
Defined.

(** ** What one event can do *)

Lemma drill_or_resume_cases (g : Game) :
  drill_or_resume g = g
  \/ (state g = aim /\ drill_or_resume g = startDrill g)
  \/ (state g = lose /\ (0 < tries_remaining g)%Z
      /\ drill_or_resume g = set_state aim g).
Proof.
  unfold drill_or_resume. destruct (state g) eqn:Hs.
  - right; left. split; reflexivity.
  - left; reflexivity.
  - left; reflexivity.
  - destruct (Z.ltb_spec 0 (tries_remaining g)); [|left; reflexivity].
    right; right. repeat split; assumption.
Qed.

Lemma keydown_aim (key : string) (help : bool) (u : draws) (g : Game) :
  state g = aim ->
  keydown key help u g = g
  \/ (key = "ArrowLeft"%string
      /\ keydown key help u g
         = set_angle (clamp (angle g - 1) ANGLE_MIN ANGLE_MAX) g)
  \/ (key = "ArrowRight"%string
      /\ keydown key help u g
         = set_angle (clamp (angle g + 1) ANGLE_MIN ANGLE_MAX) g)
  \/ (key = " "%string /\ keydown key help u g = startDrill g)
  \/ ((key = "n"%string \/ key = "N"%string)
      /\ keydown key help u g = resetRound u g).
Proof.
  intros Hs. unfold keydown.
  destruct (String.eqb_spec key "Escape") as [-> | _].
  { left. destruct help; reflexivity. }
  destruct (String.eqb_spec key "ArrowLeft") as [-> | HL].
  { right; left. split; [reflexivity|].
    unfold keydown_arrows, keydown_commands. rewrite Hs. reflexivity. }
  destruct (String.eqb_spec key "ArrowRight") as [-> | HR].
  { right; right; left. split; [reflexivity|].
    unfold keydown_arrows, keydown_commands. rewrite Hs. reflexivity. }
  assert (E : keydown_arrows key g = g).
  { unfold keydown_arrows. rewrite Hs.
    apply String.eqb_neq in HL, HR. rewrite HL, HR. reflexivity. }
  rewrite E. unfold keydown_commands.
  destruct (String.eqb_spec key " ") as [-> | _].
  { right; right; right; left. split; [reflexivity|].
    unfold drill_or_resume. rewrite Hs. reflexivity. }
  destruct (String.eqb key "n" || String.eqb key "N") eqn:Hn.
  - right; right; right; right. split.
    + apply orb_true_iff in Hn as [H | H]; apply String.eqb_eq in H;
        [left | right]; exact H.
    + unfold new_round. rewrite Hs. reflexivity.
  - left. reflexivity.
Qed.

(** Every event does one of six things to the game. *)
Lemma handle_cases (e : event) (u : draws) (g : Game) :
  handle e u g = g
  \/ (state g = drilling /\ exists dt, e = Tick dt /\ handle e u g = update dt g)
  \/ (state g = aim /\ is_tick e = false /\ handle e u g = startDrill g)
  \/ (state g = lose /\ (0 < tries_remaining g)%Z /\ is_tick e = false
      /\ handle e u g = set_state aim g)
  \/ (state g <> drilling /\ resets e g = true
      /\ handle e u g = resetRound u g)
  \/ (state g = aim
      /\ (handle e u g = set_angle (clamp (angle g - 1) ANGLE_MIN ANGLE_MAX) g
          \/ handle e u g
             = set_angle (clamp (angle g + 1) ANGLE_MIN ANGLE_MAX) g)).
Proof.
  destruct e as [dt | | | key help]; simpl.
  - destruct (state g) eqn:Hs;
      try (left; apply update_not_drilling; congruence).
    right; left. split; [reflexivity|]. exists dt. split; reflexivity.
  - destruct (drill_or_resume_cases g) as [E | [[Hs E] | (Hs & Ht & E)]].
    + left; exact E.
    + right; right; left. repeat split; assumption.
    + right; right; right; left. repeat split; assumption.
  - unfold new_round. destruct (state g) eqn:Hs;
      try (right; right; right; right; left;
           split; [discriminate | split; reflexivity]).
    left; reflexivity.
  - destruct (state g) eqn:Hs.
    + destruct (keydown_aim key help u g Hs)
        as [E | [[_ E] | [[_ E] | [[_ E] | [Hk E]]]]].
      * left; exact E.
      * right; right; right; right; right. split; [reflexivity|left; exact E].
      * right; right; right; right; right.
        split; [reflexivity|right; exact E].
      * right; right; left. repeat split; assumption.
      * right; right; right; right; left. split; [discriminate|].
        split; [|exact E].
        destruct Hk as [-> | ->]; reflexivity.
    + destruct (keydown_not_aim key help u g) as [E | [[_ E] | [_ E]]];
        try (rewrite Hs; discriminate).
      * left; exact E.
      * left. rewrite E. unfold drill_or_resume. rewrite Hs. reflexivity.
      * left. rewrite E. unfold new_round. rewrite Hs. reflexivity.
    + destruct (keydown_not_aim key help u g) as [E | [[_ E] | [Hk E]]];
        try (rewrite Hs; discriminate).
      * left; exact E.
      * left. rewrite E. unfold drill_or_resume. rewrite Hs. reflexivity.
      * right; right; right; right; left. split; [discriminate|].
        split; [destruct Hk as [-> | ->]; reflexivity|].
        rewrite E. unfold new_round. rewrite Hs. reflexivity.
    + destruct (keydown_not_aim key help u g) as [E | [[_ E] | [Hk E]]];
        try (rewrite Hs; discriminate).
      * left; exact E.
      * rewrite E.
        destruct (drill_or_resume_cases g) as [E' | [[Hs' _] | (_ & Ht & E')]].
        -- left; exact E'.
        -- congruence.
        -- right; right; right; left. repeat split; assumption.
      * right; right; right; right; left. split; [discriminate|].
        split; [destruct Hk as [-> | ->]; reflexivity|].
        rewrite E. unfold new_round. rewrite Hs. reflexivity.
Qed.

(** X5. The transitions of the state tag.  From [aim] an event leads to
    [aim] or [drilling]; from [drilling] to [drilling], [win] or [lose],
    and only a frame does anything at all there: an attempt cannot be
    cancelled.  In [win] an event changes nothing or is a round reset; in
    [lose] it changes nothing, or returns to [aim] with a try left, or is a
    round reset.  [win] and [lose] are entered from [drilling] only. *)
Theorem state_transitions (e : event) (u : draws) (g : Game) :
  let g' := handle e u g in
  (state g = aim -> state g' = aim \/ state g' = drilling)
  /\ (state g = drilling ->
      (state g' = drilling \/ state g' = win \/ state g' = lose)
      /\ (is_tick e = false -> g' = g))
  /\ (state g = win -> g' = g \/ g' = resetRound u g)
  /\ (state g = lose ->
      g' = g
      \/ ((0 < tries_remaining g)%Z /\ g' = set_state aim g)
      \/ g' = resetRound u g)
  /\ (state g <> win -> state g' = win -> state g = drilling)
  /\ (state g <> lose -> state g' = lose -> state g = drilling).
Proof.
  cbv zeta.
  destruct (handle_cases e u g)
    as [E | [(Hs & dt & -> & E) | [(Hs & Ht & E) | [(Hs & Hp & Ht & E)
        | [(Hs & Hr & E) | (Hs & HE)]]]]].
  - rewrite E. repeat split; try congruence; try tauto.
  - rewrite E. simpl.
    destruct (update_session dt g Hs) as [(Hw & _) | [(Hl & _) | (Hd & _)]];
      repeat split; try congruence; try tauto; try discriminate.
  - rewrite E. unfold startDrill. rewrite Hs. simpl.
    repeat split; try congruence; try discriminate; try tauto.
  - rewrite E. simpl.
    repeat split; try congruence; try discriminate; try tauto.
  - rewrite E. simpl.
    repeat split; try congruence; try discriminate; try tauto.
  - destruct HE as [E | E]; rewrite E; simpl; rewrite Hs;
      repeat split; try congruence; try discriminate; try tauto.
Qed.

(** X6. Only a round reset changes the round: every other event leaves
    the origin, the target and the drill speed as they are.  And outside
    [aim] no event changes the angle. *)
Theorem round_changes_only_on_reset (e : event) (u : draws) (g : Game) :
  let g' := handle e u g in
  (resets e g = false ->
   origin_x g' = origin_x g /\ target_x g' = target_x g
   /\ target_y g' = target_y g /\ target_radius g' = target_radius g
   /\ drill_speed_mps g' = drill_speed_mps g)
  /\ (state g <> aim -> angle g' = angle g).
Proof.
  cbv zeta.
  destruct (handle_cases e u g)
    as [E | [(Hs & dt & -> & E) | [(Hs & Ht & E) | [(Hs & Hp & Ht & E)
        | [(Hs & Hr & E) | (Hs & HE)]]]]].
  - rewrite E. repeat split.
  - rewrite E. destruct (update_frame dt g) as (Ha & Ho & Hx & Hy & Hrad & Hv).
    split; [intros _; repeat split; assumption | intros _; exact Ha].
  - rewrite E. unfold startDrill. rewrite Hs. repeat split.
  - rewrite E. repeat split.
  - rewrite E, Hr. split; [discriminate | reflexivity].
  - split; [|congruence].
    intros _. destruct HE as [E | E]; rewrite E; repeat split.
Qed.

(** ** The arrow keys *)

Lemma arrow_left_aim (help : bool) (u : draws) (g : Game) :
  state g = aim ->
  keydown "ArrowLeft" help u g
  = set_angle (clamp (angle g - 1) ANGLE_MIN ANGLE_MAX) g.
Proof.
  intros Hs. unfold keydown, keydown_commands, keydown_arrows. simpl.
  rewrite Hs. reflexivity.
Qed.

Lemma arrow_right_aim (help : bool) (u : draws) (g : Game) :
  state g = aim ->
  keydown "ArrowRight" help u g
  = set_angle (clamp (angle g + 1) ANGLE_MIN ANGLE_MAX) g.
Proof.
  intros Hs. unfold keydown, keydown_commands, keydown_arrows. simpl.
  rewrite Hs. reflexivity.
Qed.

Lemma set_angle_same (g : Game) (a : R) : a = angle g -> set_angle a g = g.
Proof. intros ->. destruct g. reflexivity. Qed.

Lemma set_angle_twice (g : Game) (a b : R) :
  set_angle b (set_angle a g) = set_angle b g.
Proof. reflexivity. Qed.

(** X7. The arrow keys while aiming, with the angle in its range.  Each
    changes the angle only, by at most one degree.  Left then right gives
    back the game as it was unless the angle is within a degree of -180,
    and right then left unless it is within a degree of 0; at -180 the left
    key, and at 0 the right key, changes nothing. *)
Theorem arrow_keys_round_trip (help : bool) (u : draws) (g : Game) :
  state g = aim -> ANGLE_MIN <= angle g <= ANGLE_MAX ->
  let left := keydown "ArrowLeft" help u in
  let right := keydown "ArrowRight" help u in
  (left g = set_angle (angle (left g)) g
   /\ angle g - 1 <= angle (left g) <= angle g)
  /\ (right g = set_angle (angle (right g)) g
      /\ angle g <= angle (right g) <= angle g + 1)
  /\ (ANGLE_MIN + 1 <= angle g -> right (left g) = g)
  /\ (angle g <= ANGLE_MAX - 1 -> left (right g) = g)
  /\ (angle g = ANGLE_MIN ->
      left g = g /\ angle (right (left g)) = ANGLE_MIN + 1)
  /\ (angle g = ANGLE_MAX ->
      right g = g /\ angle (left (right g)) = ANGLE_MAX - 1).
Proof.
  intros Hs Ha. cbv zeta.
  pose proof (arrow_left_aim help u g Hs) as EL.
  pose proof (arrow_right_aim help u g Hs) as ER.
  assert (HsL : state (keydown "ArrowLeft" help u g) = aim)
    by (rewrite EL; exact Hs).
  assert (HsR : state (keydown "ArrowRight" help u g) = aim)
    by (rewrite ER; exact Hs).
  pose proof (arrow_right_aim help u _ HsL) as ERL.
  pose proof (arrow_left_aim help u _ HsR) as ELR.
  rewrite ERL, ELR, EL, ER. simpl.
  set (L := clamp (angle g - 1) ANGLE_MIN ANGLE_MAX).
  set (Rt := clamp (angle g + 1) ANGLE_MIN ANGLE_MAX).
  assert (HL : (ANGLE_MIN + 1 <= angle g /\ L = angle g - 1)
               \/ (angle g < ANGLE_MIN + 1 /\ L = ANGLE_MIN)).
  { unfold L.
    destruct (clamp_cases (angle g - 1) ANGLE_MIN ANGLE_MAX)
      as [[H1 H2] | [[H1 H2] | [H1 H2]]].
    - unfold ANGLE_MIN, ANGLE_MAX. lra.
    - right. split; [lra | exact H2].
    - left. split; [lra | exact H2].
    - exfalso. lra. }
  assert (HR : (angle g <= ANGLE_MAX - 1 /\ Rt = angle g + 1)
               \/ (ANGLE_MAX - 1 < angle g /\ Rt = ANGLE_MAX)).
  { unfold Rt.
    destruct (clamp_cases (angle g + 1) ANGLE_MIN ANGLE_MAX)
      as [[H1 H2] | [[H1 H2] | [H1 H2]]].
    - unfold ANGLE_MIN, ANGLE_MAX. lra.
    - exfalso. lra.
    - left. split; [lra | exact H2].
    - right. split; [lra | exact H2]. }
  assert (Hback : forall a, a = angle g ->
                    clamp a ANGLE_MIN ANGLE_MAX = angle g)
    by (intros a ->; apply clamp_in_range; exact Ha).
  assert (Hmin : ANGLE_MIN + 1 <= ANGLE_MAX)
    by (unfold ANGLE_MIN, ANGLE_MAX; lra).
  split; [split; [reflexivity | destruct HL as [[? ->] | [? ->]]; lra]|].
  split; [split; [reflexivity | destruct HR as [[? ->] | [? ->]]; lra]|].
  split; [|split; [|split]].
  - intros H. destruct HL as [[_ EL'] | [? _]]; [|lra].
    rewrite set_angle_twice, EL'. apply set_angle_same, Hback. ring.
  - intros H. destruct HR as [[_ ER'] | [? _]]; [|lra].
    rewrite set_angle_twice, ER'. apply set_angle_same, Hback. ring.
  - intros H. destruct HL as [[? _] | [_ EL']]; [lra|].
    rewrite EL'. split; [apply set_angle_same; lra|].
    apply clamp_in_range. lra.
  - intros H. destruct HR as [[? _] | [_ ER']]; [lra|].
    rewrite ER'. split; [apply set_angle_same; lra|].
    apply clamp_in_range. lra.
Qed.

(** A fresh game: left then right, and right then left, give it back. *)
Lemma arrow_keys_round_trip_witness :
  let g := newGame zero_draws in
  keydown "ArrowRight" false zero_draws
    (keydown "ArrowLeft" false zero_draws g) = g
  /\ keydown "ArrowLeft" false zero_draws
       (keydown "ArrowRight" false zero_draws g) = g.
Proof.
  cbv zeta.
  assert (Ha : ANGLE_MIN <= angle (newGame zero_draws) <= ANGLE_MAX)
    by (simpl; world; lra).
  destruct (arrow_keys_round_trip false zero_draws (newGame zero_draws)
              eq_refl Ha) as (_ & _ & HLR & HRL & _).
  split; [apply HLR | apply HRL]; simpl; world; lra.
Defined.

(** ** Costs, tries and what the panel shows *)

Lemma cost_inv_reachable (g : Game) : reachable g -> cost_inv g.
Proof.
  apply reachable_preserves; unfold cost_inv.
  - intros dt g0 Hr (Hc & Hw & H3 & Hlt & Hacc) Hs.
    destruct (session_inv_reachable g0 Hr) as (Ht & Ht1 & Hp & _).
    specialize (Ht1 (or_intror Hs)).
    assert (Hnw : state g0 <> win) by congruence.
    pose proof (concluding_path_positive dt g0 Hr Hs) as Hpos.
    destruct (update_cases dt g0 Hs) as [[ipt Hi] | [[Hi Ho] | [Hi Ho]]].
    + rewrite (update_hit dt g0 ipt Hs Hi) in *. simpl in *.
      specialize (Hpos ltac:(discriminate)).
      assert (0 < (drill_path_length g0 + seg_len (drill_tip g0) ipt)
                  * DRILL_COST_PER_METER)
        by (unfold DRILL_COST_PER_METER; lra).
      repeat split; try lra; try lia; try congruence.
    + rewrite (update_exit dt g0 Hs Hi Ho) in *. simpl in *.
      specialize (Hpos ltac:(discriminate)).
      assert (0 < (drill_path_length g0
                   + seg_len (drill_tip g0) (next_tip dt g0))
                  * DRILL_COST_PER_METER)
        by (unfold DRILL_COST_PER_METER; lra).
      repeat split; try lra; try lia; try congruence.
    + rewrite (update_advance dt g0 Hs Hi Ho). simpl.
      split; [intros [|]; discriminate|]. split; [discriminate|].
      split; [intros H _; apply H3; assumption|].
      split; [|exact Hacc].
      intros [H | H]; [apply Hlt; left; exact H | discriminate].
  - intros g0 Hr (Hc & Hw & H3 & Hlt & Hacc) Hs.
    unfold startDrill. rewrite Hs. simpl.
    split; [intros [|]; discriminate|]. split; [discriminate|].
    split; [intros H _; apply H3; [exact H | congruence]|].
    split; [|exact Hacc].
    intros [H | H]; [apply Hlt; left; exact H | discriminate].
  - intros g0 Hr (Hc & Hw & H3 & Hlt & Hacc) Hs Ht. simpl.
    split; [intros [|]; discriminate|]. split; [discriminate|].
    split; [intros H _; apply H3; [exact H | congruence]|].
    split; [|exact Hacc].
    intros [H | H]; [apply Hlt; left; exact H | discriminate].
  - intros u g0 _ _ _ _. simpl.
    split; [intros [|]; discriminate|]. split; [discriminate|].
    split; [reflexivity|]. split; [|lra].
    intros [H | H]; [lia | discriminate].
  - intros g0 _ Hp Hs. exact Hp.
  - intros g0 _ Hp Hs. exact Hp.
  - intros u _. simpl.
    split; [intros [|]; discriminate|]. split; [discriminate|].
    split; [reflexivity|]. split; [|lra].
    intros [H | H]; [lia | discriminate].
Qed.

(** X8. Costs and tries in a reachable state.  Nothing is accumulated
    exactly when all three tries are left and the attempt is not won.  In
    [win] and [lose] the path length is positive, the cost of the attempt
    is the path length times the cost per meter and is part of the
    accumulated cost, so both guards of the cost panel pass.  In [aim] and
    [drilling] exactly one of the two budget lines applies. *)
Theorem costs_and_panel (g : Game) :
  reachable g ->
  (accumulated_cost g = 0 <-> tries_remaining g = 3%Z /\ state g <> win)
  /\ (state g = win \/ state g = lose ->
      total_cost g = drill_path_length g * DRILL_COST_PER_METER
      /\ 0 < total_cost g <= accumulated_cost g
      /\ shows_attempt_cost g = true
      /\ shows_accumulated_cost g = true)
  /\ (state g = aim \/ state g = drilling ->
      xorb (shows_initial_budget g) (shows_running_budget g) = true).
Proof.
  intros Hr. destruct (cost_inv_reachable g Hr) as (Hc & Hw & H3 & Hlt & Hacc).
  destruct (session_inv_reachable g Hr) as (Ht & _).
  assert (Hiff : accumulated_cost g = 0
                 <-> tries_remaining g = 3%Z /\ state g <> win).
  { split.
    - intros H0. split.
      + destruct (Z.eq_dec (tries_remaining g) 3) as [E|N]; [exact E|].
        exfalso. assert (0 < accumulated_cost g) by (apply Hlt; left; lia).
        lra.
      + intros Hs. assert (0 < accumulated_cost g)
          by (apply Hlt; right; exact Hs). lra.
    - intros [E N]. apply H3; assumption. }
  split; [exact Hiff|]. split.
  - intros Hs. destruct (Hc Hs) as (Hp & Htot & Hle).
    assert (Hpos : 0 < total_cost g)
      by (rewrite Htot; unfold DRILL_COST_PER_METER; lra).
    split; [exact Htot|]. split; [lra|].
    unfold shows_accumulated_cost, shows_attempt_cost.
    destruct (Rlt_dec 0 (drill_path_length g)); [|lra].
    destruct (Rlt_dec 0 (accumulated_cost g)); [|lra].
    split; reflexivity.
  - intros Hs. unfold shows_running_budget, shows_initial_budget.
    destruct (Req_dec_T (accumulated_cost g) 0) as [E0 | N0].
    + destruct (proj1 Hiff E0) as [E3 _]. rewrite E3. reflexivity.
    + assert (N3 : tries_remaining g <> 3%Z).
      { intros E3. apply N0, H3; [exact E3|].
        destruct Hs as [Hs | Hs]; rewrite Hs; discriminate. }
      simpl.
      destruct (Z.ltb_spec (tries_remaining g) 3) as [_ | Hge];
        [reflexivity | lia].
Qed.

(** After one lost attempt: 540000 accumulated, two tries left. *)
Lemma costs_and_panel_witness :
  let g := exec [(DrillClick, zero_draws); (Tick 2, zero_draws)]
                (newGame zero_draws) in
  reachable g
  /\ total_cost g = drill_path_length g * DRILL_COST_PER_METER
  /\ shows_accumulated_cost g = true.
Proof.
  cbv zeta.
  assert (Hr : reachable
                 (exec [(DrillClick, zero_draws); (Tick 2, zero_draws)]
                       (newGame zero_draws))).
  { apply exec_reachable; [apply reach_new, zero_draws_valid|].
    repeat (apply Forall_cons; [apply zero_draws_valid|]). apply Forall_nil. }
  assert (Hs : state (exec [(DrillClick, zero_draws); (Tick 2, zero_draws)]
                           (newGame zero_draws)) = lose).
  { destruct deep_miss as (Hs & Hn & Hi & Ho).
    apply out_of_bounds_true in Ho. cbn [exec handle].
    rewrite (drill_or_resume_aim (newGame zero_draws) eq_refl).
    rewrite (update_exit 2 _ Hs Hi Ho). reflexivity. }
  split; [exact Hr|].
  destruct (costs_and_panel _ Hr) as (_ & Hconcl & _).
  destruct (Hconcl (or_intror Hs)) as (Htot & _ & _ & Hshow).
  split; [exact Htot | exact Hshow].
Defined.

(** ** Attempts in a round *)

(** What the ledger and the game keep in step. *)
Lemma ledger_step (e : event) (u : draws) (g : Game) (acc : list R) :
  session_inv g ->
  Z.of_nat (List.length acc) = attempts_made g ->
  (state g = win -> (1 <= tries_remaining g)%Z) ->
  let g' := handle e u g in
  let acc' := if resets e g then []
              else if concludes g g' then acc ++ [drill_path_length g']
              else acc in
  Z.of_nat (List.length acc') = attempts_made g'
  /\ (state g' = win -> (1 <= tries_remaining g')%Z).
Proof.
  intros (Ht & Ht1 & _) Hlen Hwin. cbv zeta. unfold attempts_made, won in *.
  destruct (resets e g) eqn:Hr.
  - destruct (handle_classify e u g) as [[_ E] | [(Hr' & _) | (Hr' & _)]];
      try congruence.
    rewrite E. simpl. split; [reflexivity | discriminate].
  - destruct (handle_cases e u g)
      as [E | [(Hs & dt & -> & E) | [(Hs & _ & E) | [(Hs & Hp & _ & E)
          | [(_ & Hr' & _) | (Hs & HE)]]]]].
    + rewrite E. unfold concludes. split; [|exact Hwin].
      destruct (state g); exact Hlen.
    + rewrite E. unfold concludes. rewrite Hs in *.
      specialize (Ht1 (or_intror eq_refl)).
      destruct (update_session dt g Hs)
        as [(Hw & Htr & _) | [(Hl & Htr & _) | (Hd & Htr & _)]];
        rewrite ?Hw, ?Hl, ?Hd, Htr;
        rewrite ?length_app; cbn [List.length]; rewrite ?Nat2Z.inj_add;
        (split; [lia | try discriminate; intros _; lia]).
    + rewrite E. unfold startDrill, concludes. rewrite Hs in *. simpl.
      split; [exact Hlen | discriminate].
    + rewrite E. unfold concludes. rewrite Hs in *. simpl.
      split; [exact Hlen | discriminate].
    + congruence.
    + unfold concludes. rewrite Hs in *.
      destruct HE as [E | E]; rewrite E; simpl; rewrite Hs;
        (split; [exact Hlen | discriminate]).
Qed.

Lemma ledger_attempts (tr : trace) (g : Game) (acc : list R) :
  session_inv g ->
  Z.of_nat (List.length acc) = attempts_made g ->
  (state g = win -> (1 <= tries_remaining g)%Z) ->
  Z.of_nat (List.length (ledger tr g acc)) = attempts_made (exec tr g)
  /\ (state (exec tr g) = win -> (1 <= tries_remaining (exec tr g))%Z).
Proof.
  revert g acc. induction tr as [|[e u] rest IH]; intros g acc I Hlen Hwin.
  - simpl. split; assumption.
  - simpl. destruct (ledger_step e u g acc I Hlen Hwin) as [Hlen' Hwin'].
    apply IH; [apply session_inv_handle, I | exact Hlen' | exact Hwin'].
Qed.

(** X9. A round has at most three concluded attempts.  Along any run of
    a fresh game, the attempts concluded in the current round are as many
    as the tries spent, plus one when the round is won; the won game has a
    try left, so they are never more than three. *)
Theorem at_most_three_attempts (u0 : draws) (tr : trace) :
  let g := exec tr (newGame u0) in
  let done := ledger tr (newGame u0) [] in
  Z.of_nat (List.length done) = attempts_made g
  /\ (List.length done <= 3)%nat
  /\ (state g = win -> (1 <= tries_remaining g <= 3)%Z)
  /\ (List.length done = 3%nat ->
      state g = win \/ (state g = lose /\ tries_remaining g = 0%Z)).
Proof.
  cbv zeta.
  assert (I0 : session_inv (newGame u0)) by apply session_inv_resetRound.
  destruct (ledger_attempts tr (newGame u0) [] I0 eq_refl)
    as [Hlen Hwin]; [discriminate|].
  pose proof (session_inv_exec tr _ I0) as (Ht & Ht1 & _).
  set (g := exec tr (newGame u0)) in *.
  unfold attempts_made, won in Hlen.
  split; [exact Hlen|].
  destruct (state g) eqn:Hs.
  - specialize (Ht1 (or_introl eq_refl)).
    repeat split; try discriminate; try lia.
  - specialize (Ht1 (or_intror eq_refl)).
    repeat split; try discriminate; try lia.
  - specialize (Hwin eq_refl).
    repeat split; try lia. intros _. left; reflexivity.
  - repeat split; try discriminate; try lia.
    intros H3. right. split; [reflexivity | lia].
Qed.

(** ** The drilled path is a straight line *)

Lemma heading_unit (a : R) :
  cos (deg2rad a) * cos (deg2rad a) + sin (deg2rad a) * sin (deg2rad a) = 1.
Proof.
  pose proof (sin2_cos2 (deg2rad a)) as H. unfold Rsqr in H. lra.
Qed.

(** The distance from a point to the point [d >= 0] further along a
    heading is [d]. *)
Lemma seg_len_along (p : point) (a d : R) :
  0 <= d ->
  seg_len p (fst p + cos (deg2rad a) * d, snd p + sin (deg2rad a) * d) = d.
Proof.
  intros Hd. unfold seg_len. simpl.
  replace ((fst p + cos (deg2rad a) * d - fst p)
           * (fst p + cos (deg2rad a) * d - fst p)
           + (snd p + sin (deg2rad a) * d - snd p)
             * (snd p + sin (deg2rad a) * d - snd p))
    with (d * d * (cos (deg2rad a) * cos (deg2rad a)
                   + sin (deg2rad a) * sin (deg2rad a))) by ring.
  rewrite heading_unit, Rmult_1_r. apply sqrt_square, Hd.
Qed.

(** The candidate tip is the tip moved along the heading by the step. *)
Lemma step_length (dt : R) (g : Game) :
  0 <= drill_speed_mps g * dt ->
  seg_len (drill_tip g) (next_tip dt g) = drill_speed_mps g * dt.
Proof. intros H. unfold next_tip. apply seg_len_along, H. Qed.

(** Along frames of non-negative duration the tip is on the ray from the
    origin along the heading, at the distance of the path length. *)
Lemma frames_on_ray (g : Game) (dts : nat -> R) (n : nat) :
  state g = aim -> 0 <= drill_speed_mps g ->
  (forall k, (k < n)%nat -> 0 <= dts k) ->
  let gn := frames dts n (startDrill g) in
  0 <= drill_path_length gn
  /\ drill_tip gn
     = (origin_x g + cos (deg2rad (angle g)) * drill_path_length gn,
        SURFACE_Y_WORLD + sin (deg2rad (angle g)) * drill_path_length gn).
Proof.
  intros Hs Hv. cbv zeta.
  assert (E : startDrill g
              = set_drill_path_length 0
                  (set_result_point None
                     (set_drill_tip (getOrigin g) (set_state drilling g))))
    by (unfold startDrill; rewrite Hs; reflexivity).
  induction n as [|n IH]; intros Hdt.
  - simpl. rewrite E. unfold getOrigin. simpl. split; [lra|]. f_equal; ring.
  - assert (Hpre : forall k, (k < n)%nat -> 0 <= dts k)
      by (intros k Hk; apply Hdt; lia).
    destruct (IH Hpre) as [Hp Ht]. clear IH.
    assert (Hstep : 0 <= dts n) by (apply Hdt; lia).
    destruct (frames_frame dts n (startDrill g)) as (Ha & _ & _ & _ & Hsp).
    assert (Ha0 : angle (startDrill g) = angle g) by (rewrite E; reflexivity).
    assert (Hsp0 : drill_speed_mps (startDrill g) = drill_speed_mps g)
      by (rewrite E; reflexivity).
    rewrite Ha0 in Ha. rewrite Hsp0 in Hsp.
    simpl frames. set (gn := frames dts n (startDrill g)) in *.
    assert (Hsd : 0 <= drill_speed_mps gn * dts n) by (rewrite Hsp; nra).
    assert (Hnext : next_tip (dts n) gn
                    = (origin_x g + cos (deg2rad (angle g))
                                    * (drill_path_length gn
                                       + drill_speed_mps gn * dts n),
                       SURFACE_Y_WORLD
                       + sin (deg2rad (angle g))
                         * (drill_path_length gn
                            + drill_speed_mps gn * dts n))).
    { unfold next_tip. rewrite Ha, Ht. simpl. f_equal; ring. }
    destruct (state gn) eqn:Hsn;
      try (rewrite update_not_drilling by congruence; split; assumption).
    destruct (update_cases (dts n) gn Hsn) as [[ipt Hi] | [[Hi Ho] | [Hi Ho]]].
    + rewrite (update_hit (dts n) gn ipt Hsn Hi). simpl.
      apply hit_inversion in Hi as (v & Hv01 & -> & _).
      rewrite seg_len_point_at by lra.
      rewrite (step_length (dts n) gn Hsd).
      split; [nra|].
      unfold point_at, seg_dx, seg_dy. rewrite Hnext, Ht. simpl.
      f_equal; ring.
    + rewrite (update_exit (dts n) gn Hsn Hi Ho). simpl.
      rewrite (step_length (dts n) gn Hsd). split; [lra | exact Hnext].
    + rewrite (update_advance (dts n) gn Hsn Hi Ho). simpl.
      rewrite (step_length (dts n) gn Hsd). split; [lra | exact Hnext].
Qed.

(** X10. Along frames of non-negative duration the tip runs on the ray
    from the origin along the heading, and the path length is the straight
    distance from the origin to the tip, also where the attempt concluded:
    a concluded attempt is charged that distance times the cost per meter.
    While the game is still drilling the path length is the speed times
    the time elapsed. *)
Theorem path_is_straight_line (g : Game) (dts : nat -> R) (n : nat) :
  state g = aim -> 0 <= drill_speed_mps g ->
  (forall k, (k < n)%nat -> 0 <= dts k) ->
  let gn := frames dts n (startDrill g) in
  drill_path_length gn = seg_len (getOrigin g) (drill_tip gn)
  /\ drill_tip gn
     = (origin_x g + cos (deg2rad (angle g)) * drill_path_length gn,
        SURFACE_Y_WORLD + sin (deg2rad (angle g)) * drill_path_length gn)
  /\ (state gn = drilling ->
      drill_path_length gn = drill_speed_mps g * elapsed dts n)
  /\ (state gn = win \/ state gn = lose ->
      (0 < n)%nat ->
      total_cost gn
      = seg_len (getOrigin g) (drill_tip gn) * DRILL_COST_PER_METER).
Proof.
  intros Hs Hv Hdt. cbv zeta.
  destruct (frames_on_ray g dts n Hs Hv Hdt) as [Hp Ht].
  assert (Hdist : drill_path_length (frames dts n (startDrill g))
                  = seg_len (getOrigin g)
                      (drill_tip (frames dts n (startDrill g)))).
  { rewrite Ht at 1. symmetry.
    apply (seg_len_along (getOrigin g) (angle g)), Hp. }
  split; [exact Hdist|]. split; [exact Ht|]. split.
  - clear Hdist Ht Hp. induction n as [|n IH].
    + intros _. simpl. unfold startDrill. rewrite Hs. simpl. ring.
    + intros Hd. simpl in Hd.
      destruct (update_still_drilling _ _ Hd) as (Hsn & Htip & _).
      assert (Hpre : forall k, (k < n)%nat -> 0 <= dts k)
        by (intros k Hk; apply Hdt; lia).
      specialize (IH Hpre Hsn).
      assert (Hstep : 0 <= dts n) by (apply Hdt; lia).
      destruct (frames_frame dts n (startDrill g)) as (_ & _ & _ & _ & Hsp).
      assert (Hsp0 : drill_speed_mps (startDrill g) = drill_speed_mps g)
        by (unfold startDrill; rewrite Hs; reflexivity).
      simpl. rewrite update_path_step, Htip.
      rewrite step_length by (rewrite Hsp, Hsp0; nra).
      rewrite IH, Hsp, Hsp0. ring.
  - intros Hc Hn. rewrite <- Hdist. clear Hdist Ht Hp.
    induction n as [|n IH]; [lia|]. clear Hn.
    simpl in *. set (gn := frames dts n (startDrill g)) in *.
    destruct (state gn) eqn:Hsn.
    + exfalso. apply (frames_not_aim dts n (startDrill g));
        [unfold startDrill; rewrite Hs; discriminate | exact Hsn].
    + destruct (update_cases (dts n) gn Hsn)
        as [[ipt Hi] | [[Hi Ho] | [Hi Ho]]].
      * rewrite (update_hit _ _ ipt Hsn Hi). reflexivity.
      * rewrite (update_exit _ _ Hsn Hi Ho). reflexivity.
      * rewrite (update_advance _ _ Hsn Hi Ho) in Hc. simpl in Hc.
        destruct Hc; discriminate.
    + rewrite update_not_drilling in * by congruence.
      destruct n as [|n'].
      * exfalso. unfold gn in Hsn. simpl in Hsn. unfold startDrill in Hsn.
        rewrite Hs in Hsn. discriminate.
      * apply IH; [intros k Hk; apply Hdt; lia | left; reflexivity | lia].
    + rewrite update_not_drilling in * by congruence.
      destruct n as [|n'].
      * exfalso. unfold gn in Hsn. simpl in Hsn. unfold startDrill in Hsn.
        rewrite Hs in Hsn. discriminate.
      * apply IH; [intros k Hk; apply Hdt; lia | right; reflexivity | lia].
Qed.

(** A fresh game aimed at the target right below: the first frame of one
    second wins at depth 495, and 495 is the path length. *)
Lemma path_is_straight_line_witness :
  let g := newGame centred_draws in
  let g1 := frames seconds 1 (startDrill g) in
  state g1 = win
  /\ drill_tip g1 = (500, -495)
  /\ drill_path_length g1 = seg_len (getOrigin g) (drill_tip g1)
  /\ total_cost g1
     = seg_len (getOrigin g) (drill_tip g1) * DRILL_COST_PER_METER.
Proof.
  cbv zeta.
  assert (E : frames seconds 1 (startDrill (newGame centred_draws))
              = update 1 (startDrill (newGame centred_draws)))
    by reflexivity.
  assert (Hw : state (frames seconds 1 (startDrill (newGame centred_draws)))
               = win
               /\ drill_tip (frames seconds 1
                               (startDrill (newGame centred_draws)))
                  = (500, -495)).
  { rewrite E.
    rewrite (update_hit 1 (startDrill (newGame centred_draws)) (500, -495)
               eq_refl straight_down_hit).
    split; reflexivity. }
  destruct Hw as [Hw Ht].
  assert (Hdt : forall k, (k < 1)%nat -> 0 <= seconds k)
    by (intros k _; unfold seconds; lra).
  assert (Hv : 0 <= drill_speed_mps (newGame centred_draws))
    by (simpl; lra).
  destruct (path_is_straight_line (newGame centred_draws) seconds 1
              eq_refl Hv Hdt) as (Hp & _ & _ & Hc).
  split; [exact Hw|]. split; [exact Ht|]. split; [exact Hp|].
  apply Hc; [left; exact Hw | lia].
Defined.

(** ** The animation loop *)

Lemma last_any_default (ts : list R) (t d1 d2 : R) :
  last (t :: ts) d1 = last (t :: ts) d2.
Proof.
  revert t. induction ts as [|t' rest IH]; intros t; [reflexivity|].
  change (last (t :: t' :: rest) d1) with (last (t' :: rest) d1).
  change (last (t :: t' :: rest) d2) with (last (t' :: rest) d2).
  apply IH.
Qed.

Lemma run_loop_drilling_prefix (times : list R) (l : Loop) :
  state (game (run_loop times l)) = drilling -> state (game l) = drilling.
Proof.
  revert l. induction times as [|t rest IH]; intros l H; simpl in H.
  - exact H.
  - apply IH in H. unfold gameLoop in H. simpl in H.
    apply update_still_drilling in H as (Hs & _). exact Hs.
Qed.

(** X11. The distance drilled goes by the clock, not by the frames.
    When the frame times do not go back and the game is still drilling
    after the last of them, the path length has grown by the speed times
    the clock time elapsed since the loop's last frame, in seconds, and
    the tip has moved that far along the heading, however the time is cut
    into frames. *)
Theorem loop_distance_by_clock (times : list R) (l : Loop) :
  ascending (lastTime l) times ->
  0 <= drill_speed_mps (game l) ->
  state (game (run_loop times l)) = drilling ->
  let l' := run_loop times l in
  let d := drill_speed_mps (game l) * ((lastTime l' - lastTime l) / 1000) in
  lastTime l' = last times (lastTime l)
  /\ drill_path_length (game l') = drill_path_length (game l) + d
  /\ drill_tip (game l')
     = (fst (drill_tip (game l)) + cos (deg2rad (angle (game l))) * d,
        snd (drill_tip (game l)) + sin (deg2rad (angle (game l))) * d).
Proof.
  revert l. induction times as [|t rest IH]; intros l Hasc Hv Hd; cbv zeta.
  - simpl. split; [reflexivity|]. split.
    + unfold Rminus. rewrite Rplus_opp_r. unfold Rdiv.
      rewrite Rmult_0_l, Rmult_0_r, Rplus_0_r. reflexivity.
    + unfold Rminus. rewrite Rplus_opp_r. unfold Rdiv.
      rewrite Rmult_0_l, !Rmult_0_r, !Rplus_0_r.
      apply surjective_pairing.
  - destruct Hasc as [Hle Hasc]. simpl in Hd.
    pose proof (run_loop_drilling_prefix rest _ Hd) as Hd1.
    unfold gameLoop in Hd1. simpl in Hd1.
    destruct (update_still_drilling _ _ Hd1) as (Hs & Htip & _).
    destruct (update_frame ((t - lastTime l) / 1000) (game l))
      as (Ha & _ & _ & _ & _ & Hsp).
    assert (Hdt : 0 <= drill_speed_mps (game l) * ((t - lastTime l) / 1000)).
    { apply Rmult_le_pos; [exact Hv|]. lra. }
    specialize (IH (gameLoop t l)).
    cbv zeta in IH. unfold gameLoop in IH at 1 2 3. simpl in IH.
    rewrite Hsp in IH.
    destruct (IH Hasc Hv Hd) as (IH1 & IH2 & IH3). clear IH.
    change (run_loop (t :: rest) l) with (run_loop rest (gameLoop t l)).
    split; [|split].
    + rewrite IH1. destruct rest as [|t' rest]; [reflexivity|].
      apply (last_any_default rest t' t (lastTime l)).
    + rewrite IH2, update_path_step, Htip, (step_length _ _ Hdt). lra.
    + rewrite IH3, Ha, Htip. unfold next_tip. simpl. f_equal; lra.
Qed.

(** Straight down beside the target, a frame that stays above the depth
    bound keeps the game drilling. *)
Lemma beside_target_advance (dt : R) (g : Game) :
  state g = drilling -> angle g = ANGLE_DEFAULT -> drill_speed_mps g = 900 ->
  fst (drill_tip g) = 100 -> target_x g = 250 -> target_radius g = 5 ->
  MAX_DEPTH_WORLD < snd (drill_tip g) - 900 * dt ->
  state (update dt g) = drilling
  /\ drill_tip (update dt g) = (100, snd (drill_tip g) - 900 * dt).
Proof.
  intros Hs Ha Hv Hx Htx Hr Hy.
  assert (Hn : next_tip dt g = (100, snd (drill_tip g) - 900 * dt)).
  { rewrite next_tip_default by exact Ha. rewrite Hx, Hv. reflexivity. }
  rewrite <- Hn. apply update_keeps_drilling; [exact Hs | |].
  - apply vertical_miss; rewrite ?Hn, ?Hx, ?Htx, ?Hr; simpl; lra.
  - apply out_of_bounds_false. rewrite Hn. simpl. lra.
Qed.

(** Frames at 100 ms and 250 ms after the start of an attempt fired
    straight down: 225 drilled, as one frame at 250 ms would have. *)
Lemma loop_distance_by_clock_witness :
  let l := mkLoop 0 (startDrill (newGame zero_draws)) in
  ascending (lastTime l) [100; 250]
  /\ state (game (run_loop [100; 250] l)) = drilling
  /\ drill_path_length (game (run_loop [100; 250] l))
     = 900 * ((250 - 0) / 1000).
Proof.
  cbv zeta.
  destruct (smallest_round ANGLE_DEFAULT) as (Hs & Ha & Hv & Ht & Hx & _ & Hr).
  change (set_angle ANGLE_DEFAULT (newGame zero_draws))
    with (newGame zero_draws) in *.
  assert (Hasc : ascending 0 [100; 250]) by (simpl; lra).
  assert (Hd : state (game (run_loop [100; 250]
                              (mkLoop 0 (startDrill (newGame zero_draws)))))
               = drilling).
  { cbn [run_loop gameLoop lastTime game].
    destruct (beside_target_advance ((100 - 0) / 1000)
                (startDrill (newGame zero_draws)) Hs Ha Hv)
      as [Hs1 Ht1]; try assumption.
    { rewrite Ht; reflexivity. }
    { rewrite Ht. simpl. world. lra. }
    destruct (update_frame ((100 - 0) / 1000)
                (startDrill (newGame zero_draws)))
      as (Ha1 & _ & Hx1 & _ & Hr1 & Hv1).
    rewrite Ht in Ht1. simpl in Ht1.
    remember (update ((100 - 0) / 1000) (startDrill (newGame zero_draws)))
      as g1 eqn:E1. clear E1.
    apply (beside_target_advance ((250 - 100) / 1000) g1); try congruence.
    - rewrite Ht1. reflexivity.
    - rewrite Ht1. simpl. world. lra. }
  split; [exact Hasc|]. split; [exact Hd|].
  destruct (loop_distance_by_clock [100; 250]
              (mkLoop 0 (startDrill (newGame zero_draws))) Hasc)
    as (Hlast & Hpath & _).
  - cbn [game]. rewrite Hv. lra.
  - exact Hd.
  - rewrite Hpath, Hlast. cbn [game lastTime last].
    rewrite Hv. unfold startDrill, drill_path_length at 1. simpl. lra.
Defined.

(** ** The notification and the keys it names *)

(** X12. The notification over the canvas names the key that works.  No
    text is shown in [aim] and [drilling].  Where it says to press space
    to try again, the space key leads back to [aim]; where it says the
    target is hit or the round is complete, the space key does nothing;
    and wherever a text is shown, the keys [n] and [N] start a new round. *)
Theorem notification_names_working_key (g : Game) (u : draws) (help : bool) :
  (notification g = None <-> state g = aim \/ state g = drilling)
  /\ (notification g = Some "MISS! Press SPACE to try again"%string ->
      keydown " " help u g = set_state aim g
      /\ state (keydown " " help u g) = aim)
  /\ (notification g = Some "ROUND COMPLETE! Press N for new round"%string
      \/ notification g = Some "TARGET HIT! Press N for new round"%string ->
      keydown " " help u g = g)
  /\ (notification g <> None ->
      keydown "n" help u g = resetRound u g
      /\ keydown "N" help u g = resetRound u g).
Proof.
  assert (Hsp : keydown " " help u g = drill_or_resume g).
  { destruct (state g) eqn:Hs.
    - unfold keydown, keydown_commands, keydown_arrows. simpl.
      rewrite Hs. reflexivity.
    - unfold keydown, keydown_commands. simpl.
      rewrite keydown_arrows_not_aim by congruence. reflexivity.
    - unfold keydown, keydown_commands. simpl.
      rewrite keydown_arrows_not_aim by congruence. reflexivity.
    - unfold keydown, keydown_commands. simpl.
      rewrite keydown_arrows_not_aim by congruence. reflexivity. }
  assert (Hn : keydown "n" help u g = new_round u g
               /\ keydown "N" help u g = new_round u g).
  { unfold keydown, keydown_commands. simpl.
    rewrite !arrows_ignore_n by tauto. split; reflexivity. }
  destruct Hn as [Hn1 Hn2]. rewrite Hsp, Hn1, Hn2.
  unfold notification, drill_or_resume, new_round.
  destruct (state g) eqn:Hs;
    [ | | | destruct (Z.ltb_spec 0 (tries_remaining g))];
    repeat split; try discriminate; try tauto; try congruence;
    try (intros [H0 | H0]; discriminate).
Qed.

(** ** The miss distance *)

(** In the range of the angle the heading is vertical at -90 only. *)
Lemma heading_vertical_only_at_default (a : R) :
  ANGLE_MIN <= a <= ANGLE_MAX -> cos (deg2rad a) = 0 -> a = ANGLE_DEFAULT.
Proof.
  unfold ANGLE_MIN, ANGLE_MAX, ANGLE_DEFAULT, deg2rad. intros [Hlo Hhi] Hc.
  pose proof PI_RGT_0 as Hpi.
  destruct (cos_eq_0_0 _ Hc) as [k Hk].
  assert (Hk1 : -2 < IZR k) by nra.
  assert (Hk2 : IZR k < 0) by nra.
  apply lt_IZR in Hk1. apply lt_IZR in Hk2.
  assert (k = (-1)%Z) by lia. subst k.
  assert (Ha : a * PI = -90 * PI) by (simpl in Hk; lra).
  apply Rmult_eq_reg_r in Ha; lra.
Qed.

Lemma miss_vertical (g : Game) :
  angle g = ANGLE_DEFAULT ->
  miss_distance g = Rabs (target_x g - origin_x g)
  /\ line_distance g = Rabs (target_x g - origin_x g).
Proof.
  intros Ha. unfold miss_distance, line_distance. cbv zeta.
  rewrite Ha, cos_default, sin_default. split.
  - destruct (Rlt_dec (Rabs (ANGLE_DEFAULT - -90)) 0.001) as [_|N];
      [reflexivity|].
    exfalso. apply N. unfold ANGLE_DEFAULT.
    replace (-90 - -90) with 0 by ring. rewrite Rabs_R0. lra.
  - replace (-1 * (target_x g - origin_x g)
             - 0 * (target_y g - SURFACE_Y_WORLD))
      with (- (target_x g - origin_x g)) by ring.
    apply Rabs_Ropp.
Qed.

Lemma miss_slanted (g : Game) :
  ANGLE_MIN <= angle g <= ANGLE_MAX -> 0.001 <= Rabs (angle g - -90) ->
  cos (deg2rad (angle g)) <> 0
  /\ miss_distance g
     = Rabs (tan (deg2rad (angle g)) * (target_x g - origin_x g)
             - target_y g)
  /\ miss_distance g * Rabs (cos (deg2rad (angle g))) = line_distance g.
Proof.
  intros Ha Hoff.
  assert (Hc : cos (deg2rad (angle g)) <> 0).
  { intros Hc. apply heading_vertical_only_at_default in Hc; [|exact Ha].
    rewrite Hc in Hoff. unfold ANGLE_DEFAULT in Hoff.
    replace (-90 - -90) with 0 in Hoff by ring.
    rewrite Rabs_R0 in Hoff. lra. }
  assert (Hm : miss_distance g
               = Rabs (tan (deg2rad (angle g)) * (target_x g - origin_x g)
                       - target_y g)).
  { unfold miss_distance. cbv zeta.
    destruct (Rlt_dec (Rabs (angle g - -90)) 0.001) as [Hlt|_]; [lra|].
    unfold SURFACE_Y_WORLD. f_equal. ring. }
  split; [exact Hc|]. split; [exact Hm|].
  rewrite Hm, <- Rabs_mult. unfold line_distance. cbv zeta.
  f_equal. unfold tan, SURFACE_Y_WORLD. field. exact Hc.
Qed.

(** In a reachable state the angle is -90 or at least a degree off it. *)
Lemma angle_range_or_default (g : Game) :
  reachable g ->
  angle g = ANGLE_DEFAULT
  \/ (ANGLE_MIN <= angle g <= ANGLE_MAX /\ 0.001 <= Rabs (angle g - -90)).
Proof.
  intros Hr. destruct (whole_angle_reachable g Hr) as [k Hk].
  destruct (round_inv_reachable g Hr) as (_ & _ & _ & _ & _ & Ha & _).
  destruct (Z.eq_dec k (-90)) as [-> | N].
  - left. rewrite Hk. reflexivity.
  - right. split; [exact Ha|]. rewrite Hk.
    replace (IZR k - -90) with (IZR (k + 90)) by (rewrite plus_IZR; ring).
    destruct (Z_lt_le_dec (k + 90) 0) as [Hneg | Hpos].
    + rewrite Rabs_left by (apply IZR_lt; exact Hneg).
      assert (IZR (k + 90) <= IZR (-1)) by (apply IZR_le; lia). lra.
    + rewrite Rabs_right by (apply Rle_ge, IZR_le; exact Hpos).
      assert (IZR 1 <= IZR (k + 90)) by (apply IZR_le; lia). lra.
Qed.

(** X13. The miss distance shown after a miss, in a reachable state.  At
    -90 it is the horizontal offset of the target from the origin.  At any
    other angle the tangent is taken where the cosine is not zero, and the
    distance shown times the absolute cosine is the distance of the
    target's centre from the drill line.  So the distance shown is never
    less than that distance, and it is zero exactly when the drill line
    passes through the centre. *)
Theorem miss_distance_vs_drill_line (g : Game) :
  reachable g ->
  (angle g = ANGLE_DEFAULT ->
   miss_distance g = Rabs (target_x g - origin_x g)
   /\ miss_distance g = line_distance g)
  /\ (angle g <> ANGLE_DEFAULT ->
      cos (deg2rad (angle g)) <> 0
      /\ miss_distance g
         = Rabs (tan (deg2rad (angle g)) * (target_x g - origin_x g)
                 - target_y g)
      /\ miss_distance g * Rabs (cos (deg2rad (angle g))) = line_distance g)
  /\ line_distance g <= miss_distance g
  /\ (miss_distance g = 0 <-> line_distance g = 0).
Proof.
  intros Hr.
  destruct (angle_range_or_default g Hr) as [Hd | [Ha Hoff]].
  - destruct (miss_vertical g Hd) as [Hm Hl].
    split; [intros _; split; [exact Hm | congruence]|].
    split; [intros N; contradiction|].
    rewrite Hm, Hl. split; [lra | tauto].
  - destruct (miss_slanted g Ha Hoff) as (Hc & Hm & Hl).
    assert (Hnd : angle g <> ANGLE_DEFAULT).
    { intros E. rewrite E in Hoff. unfold ANGLE_DEFAULT in Hoff.
      replace (-90 - -90) with 0 in Hoff by ring.
      rewrite Rabs_R0 in Hoff. lra. }
    split; [intros E; contradiction|].
    split; [intros _; repeat split; assumption|].
    pose proof (Rabs_pos (cos (deg2rad (angle g)))) as Hc0.
    pose proof (Rabs_no_R0 _ Hc) as Hc1.
    assert (Hc2 : Rabs (cos (deg2rad (angle g))) <= 1).
    { apply Rabs_le. apply COS_bound. }
    assert (Hm0 : 0 <= miss_distance g) by (rewrite Hm; apply Rabs_pos).
    rewrite <- Hl. split; [nra|].
    split; intros H0.
    + rewrite H0. ring.
    + apply Rmult_integral in H0 as [H0 | H0]; [exact H0 | contradiction].
Qed.

(** A fresh game of the smallest round: the target is 150 to the right. *)
Lemma miss_distance_vs_drill_line_witness :
  reachable (newGame zero_draws)
  /\ miss_distance (newGame zero_draws) = 150
  /\ line_distance (newGame zero_draws) <= miss_distance (newGame zero_draws).
Proof.
  assert (Hr : reachable (newGame zero_draws))
    by (apply reach_new, zero_draws_valid).
  destruct (miss_distance_vs_drill_line (newGame zero_draws) Hr)
    as (Hv & _ & Hle & _).
  split; [exact Hr|]. split; [|exact Hle].
  destruct (Hv eq_refl) as [Hm _]. rewrite Hm. simpl. world.
  rewrite Rabs_right; lra.
Defined.

(** ** [clamp] *)

(** X14. [clamp] between ordered bounds gives a number between them,
    leaves a number between them as it is, maps every number below to the
    lower and every number above to the upper bound, does not reverse the
    order of two numbers, and is idempotent.  With the bounds the wrong way
    round it gives the lower-bound argument. *)
Theorem clamp_properties (v w a b : R) :
  (a <= b ->
   a <= clamp v a b <= b
   /\ (a <= v <= b -> clamp v a b = v)
   /\ (v <= a -> clamp v a b = a)
   /\ (b <= v -> clamp v a b = b)
   /\ (v <= w -> clamp v a b <= clamp w a b)
   /\ clamp (clamp v a b) a b = clamp v a b)
  /\ (b < a -> clamp v a b = a).
Proof.
  split.
  - intros Hab.
    destruct (clamp_cases v a b Hab) as [[Hv Ev] | [[Hv Ev] | [Hv Ev]]];
    destruct (clamp_cases w a b Hab) as [[Hw Ew] | [[Hw Ew] | [Hw Ew]]];
    rewrite ?Ev, ?Ew;
    (split; [lra|]);
    (split; [intros; lra|]);
    (split; [intros; lra|]);
    (split; [intros; lra|]);
    (split; [intros; lra|]);
    try reflexivity; unfold clamp;
    try (rewrite Rmin_right by lra; apply Rmax_left; lra);
    try (rewrite Rmin_right by lra; apply Rmax_right; lra).
  - intros Hba. unfold clamp. apply Rmax_left.
    pose proof (Rmin_l b v). lra.
Qed.

(** ** The screen *)

Lemma screen_size : SCREEN_W = 1240 /\ SCREEN_H = 1040.
Proof.
  unfold SCREEN_W, SCREEN_H, MARGIN_L, MARGIN_R, MARGIN_T, MARGIN_B,
    PX_PER_M, MAX_DEPTH_WORLD.
  rewrite Rabs_left by lra. split; lra.
Qed.

(** X15. [worldToScreen] keeps distances (one pixel is one world unit),
    turns the vertical axis over (deeper is further down the screen), and
    maps the world window, 0 to 1000 across and the surface down to the
    maximum depth, into the canvas. *)
Theorem worldToScreen_properties (p q : point) :
  seg_len (worldToScreen (fst p) (snd p)) (worldToScreen (fst q) (snd q))
  = seg_len p q
  /\ (snd p < snd q ->
      snd (worldToScreen (fst q) (snd q))
      < snd (worldToScreen (fst p) (snd p)))
  /\ (fst p < fst q ->
      fst (worldToScreen (fst p) (snd p))
      < fst (worldToScreen (fst q) (snd q)))
  /\ (0 <= fst p <= 1000 -> MAX_DEPTH_WORLD <= snd p <= SURFACE_Y_WORLD ->
      0 <= fst (worldToScreen (fst p) (snd p)) <= SCREEN_W
      /\ 0 <= snd (worldToScreen (fst p) (snd p)) <= SCREEN_H).
Proof.
  destruct screen_size as [HW HH]. rewrite HW, HH.
  unfold worldToScreen, seg_len, MARGIN_L, MARGIN_T, PX_PER_M,
    MAX_DEPTH_WORLD, SURFACE_Y_WORLD. simpl.
  split; [f_equal; ring|]. repeat split; lra.
Qed.

(** ** The drawn target *)

Lemma seg_len_polar (p : point) (x d : R) :
  0 <= d -> seg_len p (fst p + cos x * d, snd p + sin x * d) = d.
Proof.
  intros Hd. unfold seg_len. simpl.
  replace ((fst p + cos x * d - fst p) * (fst p + cos x * d - fst p)
           + (snd p + sin x * d - snd p) * (snd p + sin x * d - snd p))
    with (d * d * (Rsqr (sin x) + Rsqr (cos x))) by (unfold Rsqr; ring).
  rewrite sin2_cos2, Rmult_1_r. apply sqrt_square, Hd.
Qed.

(** The radius of a vertex of the drawn shape, as a share of the base
    radius, is between 0.15 and 1.35. *)
Lemma blob_share_bounds (x y z : R) :
  0.15 <= 0.75 + sin x * 0.25 + cos y * 0.2 + sin z * 0.15 <= 1.35.
Proof.
  pose proof (SIN_bound x). pose proof (COS_bound y). pose proof (SIN_bound z).
  lra.
Qed.

(** X16. The shape drawn for the target is not the circle that is hit.
    In a reachable state each of its vertices is at a distance from the
    target's centre on the screen of between 0.15 and 1.35 times the
    target's radius, and it is on the canvas. *)
Theorem drawn_target_vertices (g : Game) (i : nat) :
  reachable g ->
  let c := worldToScreen (target_x g) (target_y g) in
  let p := blob_point (fst c) (snd c) (target_radius g) i in
  0.15 * target_radius g <= seg_len c p <= 1.35 * target_radius g
  /\ 0 <= fst p <= SCREEN_W
  /\ 0 <= snd p <= SCREEN_H.
Proof.
  intros Hr. cbv zeta.
  destruct (round_inv_reachable g Hr) as (_ & Hx & Hy & Hrad & _).
  destruct screen_size as [HW HH]. rewrite HW, HH.
  unfold blob_point. cbv zeta.
  set (c := worldToScreen (target_x g) (target_y g)).
  set (a := INR i / 16 * PI * 2).
  set (share := 0.75 + sin (a * 3.7 + floor (fst c * 0.1)) * 0.25
                + cos (a * 2.3 + floor (snd c * 0.1)) * 0.2
                + sin (a * 5.1) * 0.15).
  pose proof (blob_share_bounds (a * 3.7 + floor (fst c * 0.1))
                (a * 2.3 + floor (snd c * 0.1)) (a * 5.1)) as Hshare.
  fold share in Hshare.
  world.
  assert (Hd : 0 <= target_radius g * share) by nra.
  assert (Hd2 : target_radius g * share <= 27) by nra.
  rewrite (seg_len_polar c a _ Hd). split; [nra|].
  pose proof (COS_bound a) as Hc. pose proof (SIN_bound a) as Hs.
  assert (Hcx : -27 <= cos a * (target_radius g * share) <= 27) by nra.
  assert (Hsy : -27 <= sin a * (target_radius g * share) <= 27) by nra.
  unfold c, worldToScreen, MARGIN_L, MARGIN_T, PX_PER_M. simpl.
  split; lra.
Qed.

(** The smallest round. *)
Lemma drawn_target_vertices_witness :
  let g := newGame zero_draws in
  let c := worldToScreen (target_x g) (target_y g) in
  reachable g
  /\ seg_len c (blob_point (fst c) (snd c) (target_radius g) 3)
     <= 1.35 * target_radius g.
Proof.
  cbv zeta.
  assert (Hr : reachable (newGame zero_draws))
    by (apply reach_new, zero_draws_valid).
  split; [exact Hr|].
  apply (drawn_target_vertices (newGame zero_draws) 3 Hr).
Defined.

(** ** What a concluded attempt costs at least *)

Lemma lost_out_reachable (g : Game) : reachable g -> lost_out g.
Proof.
  apply reachable_preserves; unfold lost_out.
  - intros dt g0 _ _ Hs.
    destruct (update_cases dt g0 Hs) as [[ipt Hi] | [[Hi Ho] | [Hi Ho]]].
    + rewrite (update_hit dt g0 ipt Hs Hi). simpl. discriminate.
    + rewrite (update_exit dt g0 Hs Hi Ho). simpl. intros _. exact Ho.
    + rewrite (update_advance dt g0 Hs Hi Ho). simpl. discriminate.
  - intros g0 _ _ Hs. unfold startDrill. rewrite Hs. simpl. discriminate.
  - intros g0 _ _ _ _. simpl. discriminate.
  - intros u g0 _ _ _ _. simpl. discriminate.
  - intros g0 _ _ Hs. simpl. rewrite Hs. discriminate.
  - intros g0 _ _ Hs. simpl. rewrite Hs. discriminate.
  - intros u _. simpl. discriminate.
Qed.

Lemma on_ray_reachable (g : Game) : reachable g -> on_ray g.
Proof.
  apply reachable_preserves; unfold on_ray.
  - intros dt g0 _ Hp Hs _.
    destruct Hp as (d & Hd & Ht); [congruence|].
    set (step := drill_speed_mps g0 * dt).
    assert (Hn : next_tip dt g0
                 = (origin_x g0 + cos (deg2rad (angle g0)) * (d + step),
                    SURFACE_Y_WORLD
                    + sin (deg2rad (angle g0)) * (d + step))).
    { unfold next_tip. rewrite Ht. simpl. fold step. f_equal; ring. }
    assert (Hlen : seg_len (drill_tip g0) (next_tip dt g0) = Rabs step).
    { unfold next_tip. fold step. apply seg_len_polar_abs. }
    pose proof (Rabs_triang d step) as Htri.
    destruct (update_cases dt g0 Hs) as [[ipt Hi] | [[Hi Ho] | [Hi Ho]]].
    + rewrite (update_hit dt g0 ipt Hs Hi). simpl.
      apply hit_inversion in Hi as (v & Hv & -> & _).
      rewrite seg_len_point_at by lra. rewrite Hlen.
      exists (d + v * step). split.
      * pose proof (Rabs_triang d (v * step)) as Htri'.
        rewrite (Rabs_mult v step), (Rabs_right v) in Htri' by lra.
        lra.
      * unfold point_at, seg_dx, seg_dy. rewrite Hn, Ht. simpl.
        f_equal; ring.
    + rewrite (update_exit dt g0 Hs Hi Ho). simpl. rewrite Hlen.
      exists (d + step). split; [lra | exact Hn].
    + rewrite (update_advance dt g0 Hs Hi Ho). simpl. rewrite Hlen.
      exists (d + step). split; [lra | exact Hn].
  - intros g0 _ _ Hs _. unfold startDrill, getOrigin. rewrite Hs. simpl.
    exists 0. split; [rewrite Rabs_R0; lra | f_equal; ring].
  - intros g0 _ _ _ _ N. simpl in N. congruence.
  - intros u g0 _ _ _ _ N. simpl in N. congruence.
  - intros g0 _ _ Hs N. simpl in N. congruence.
  - intros g0 _ _ Hs N. simpl in N. congruence.
  - intros u _ N. simpl in N. congruence.
Qed.

(** X17. A concluded attempt is never cheap.  In a reachable state a won
    attempt has drilled more than 479 and costs more than a quarter of the
    budget; a lost attempt has drilled more than 199 and costs more than a
    tenth of the budget; and an attempt lost at the depth bound has drilled
    more than 899 and costs more than half the budget.  The distances are
    at least 480, from the surface to the top of the largest and highest
    target, 200, from the rightmost origin to the lateral bound, and 900;
    they are stated with a margin of one, which the rounding of the path
    length cannot use up. *)
Theorem concluded_attempt_costs (g : Game) :
  reachable g ->
  (state g = win ->
   479 < drill_path_length g /\ DRILL_COST_BUDGET / 4 < total_cost g)
  /\ (state g = lose ->
      199 < drill_path_length g /\ DRILL_COST_BUDGET / 10 < total_cost g
      /\ (snd (drill_tip g) <= -900 ->
          899 < drill_path_length g
          /\ DRILL_COST_BUDGET / 2 < total_cost g)).
Proof.
  intros Hr. unfold DRILL_COST_BUDGET.
  destruct (cost_inv_reachable g Hr) as (Hc & _).
  destruct (round_inv_reachable g Hr) as (Ho & _ & Hy & Hrad & _).
  destruct (session_inv_reachable g Hr) as (_ & _ & _ & _ & Hw).
  pose proof (on_ray_reachable g Hr) as Hray.
  pose proof (lost_out_reachable g Hr) as Hout.
  pose proof (SIN_bound (deg2rad (angle g))) as Hsin.
  pose proof (COS_bound (deg2rad (angle g))) as Hcos.
  split.
  - intros Hs. destruct (Hc (or_introl Hs)) as (_ & Htot & _).
    destruct (Hray ltac:(congruence)) as (d & Hd & Ht).
    destruct (Hw Hs) as [_ Hon]. rewrite Ht in Hon.
    unfold sqdist in Hon. simpl in Hon. world.
    assert (Hdepth : sin (deg2rad (angle g)) * d <= -480).
    { assert (Hsq : (0 + sin (deg2rad (angle g)) * d - target_y g)
                    * (0 + sin (deg2rad (angle g)) * d - target_y g)
                    <= target_radius g * target_radius g).
      { pose proof (Rle_0_sqr (origin_x g + cos (deg2rad (angle g)) * d
                               - target_x g)) as H0.
        unfold Rsqr in H0. lra. }
      nra. }
    assert (Habs : 480 <= Rabs d).
    { unfold Rabs. destruct (Rcase_abs d); nra. }
    rewrite Htot. split; lra.
  - intros Hs. destruct (Hc (or_intror Hs)) as (_ & Htot & _).
    destruct (Hray ltac:(congruence)) as (d & Hd & Ht).
    specialize (Hout Hs). apply out_of_bounds_true in Hout.
    rewrite Ht in Hout |- *. simpl in Hout |- *. world.
    assert (Hdeep : 0 + sin (deg2rad (angle g)) * d <= -900 ->
                    900 <= Rabs d).
    { intros H. unfold Rabs. destruct (Rcase_abs d); nra. }
    assert (Habs : 200 <= Rabs d).
    { destruct Hout as [H | H].
      - specialize (Hdeep H). lra.
      - unfold Rabs. destruct (Rcase_abs d); nra. }
    rewrite Htot. split; [lra|]. split; [lra|].
    intros H. specialize (Hdeep H). split; lra.
Qed.

(** A fresh game fired straight down for two seconds beside the target:
    lost at the depth bound. *)
Lemma concluded_attempt_costs_witness :
  let g := exec [(DrillClick, zero_draws); (Tick 2, zero_draws)]
                (newGame zero_draws) in
  reachable g /\ state g = lose
  /\ snd (drill_tip g) <= -900
  /\ 899 < drill_path_length g /\ DRILL_COST_BUDGET / 2 < total_cost g.
Proof.
  cbv zeta.
  assert (Hr : reachable
                 (exec [(DrillClick, zero_draws); (Tick 2, zero_draws)]
                       (newGame zero_draws))).
  { apply exec_reachable; [apply reach_new, zero_draws_valid|].
    repeat (apply Forall_cons; [apply zero_draws_valid|]). apply Forall_nil. }
  assert (Hs : state (exec [(DrillClick, zero_draws); (Tick 2, zero_draws)]
                           (newGame zero_draws)) = lose).
  { destruct deep_miss as (Hs & Hn & Hi & Ho).
    apply out_of_bounds_true in Ho. cbn [exec handle].
    rewrite (drill_or_resume_aim (newGame zero_draws) eq_refl).
    rewrite (update_exit 2 _ Hs Hi Ho). reflexivity. }
  split; [exact Hr|]. split; [exact Hs|].
  assert (Hd : snd (drill_tip (exec [(DrillClick, zero_draws);
                                      (Tick 2, zero_draws)]
                                     (newGame zero_draws))) <= -900).
  { destruct deep_miss as (Hs0 & Hn & Hi & Ho).
    apply out_of_bounds_true in Ho. cbn [exec handle].
    rewrite (drill_or_resume_aim (newGame zero_draws) eq_refl).
    rewrite (update_exit 2 _ Hs0 Hi Ho).
    change (snd (next_tip 2 (startDrill (newGame zero_draws))) <= -900).
    rewrite Hn. simpl. lra. }
  split; [exact Hd|].
  destruct (concluded_attempt_costs _ Hr) as [_ Hlose].
  destruct (Hlose Hs) as (_ & _ & Hdeep). exact (Hdeep Hd).
Defined.
